(** * The density-clustering engine of the e-mail suite

    A shallow embedding of the DBSCAN module: [euclidean], [computeScaler],
    [applyScalerToRow], [applyScaler], [dbscan], [assignByNearestCore],
    [preprocessEmails] and [determineClusterLabel].

    JavaScript numbers are IEEE-754 binary64 values, so they are embedded as
    Rocq's primitive floats, whose operations are the same correctly rounded
    ones.  Arrays are lists read with stdpp's lookup; the last clustering
    session, which the source keeps in [global.__dbscan._last], is passed
    explicitly. *)

From Stdlib Require Import ZArith List Lia Bool.
From Stdlib Require Import Floats.
From stdpp Require Import gmap list strings.
Import ListNotations.

Open Scope float_scope.

(** ** JavaScript numbers *)

(** A number is falsy when it is [0], [-0] or [NaN]. *)
Definition falsy (x : float) : bool := is_nan x || is_zero x.

(** [v || d] for a possibly [undefined] number [v] ([None] is [undefined],
    as an index past the end of an array yields). *)
Definition or_else (v : option float) (d : float) : float :=
  match v with
  | Some x => if falsy x then d else x
  | None => d
  end.

(** [isFinite(x)]. *)
Definition isFinite (x : float) : bool := is_finite x.

(** An array length or a count, as a number. *)
Definition num (n : nat) : float := of_uint63 (Uint63.of_Z (Z.of_nat n)).

Abbreviation vector := (list float).
Abbreviation matrix := (list vector).

(** An argument that is expected to be a matrix: [Array.isArray] tells the
    two cases apart ([NotArray] stands for [undefined] and [null]). *)
Inductive input :=
  | NotArray
  | Arr (X : matrix).

(** ** Euclidean distance *)

Definition euclidean (a b : vector) : float :=
  sqrt (fold_left
          (fun s i =>
             let ai := or_else (a !! i) 0 in
             let bi := or_else (b !! i) 0 in
             let d := ai - bi in
             s + d * d)
          (seq 0 (Nat.max (length a) (length b))) 0).

(** ** Z-score scaler *)

Record Scaler := { mean : vector; std : vector }.

(** [s] of the first loop: the sum of column [j]. *)
Definition column_sum (X : matrix) (j : nat) : float :=
  fold_left (fun s row => s + or_else (row !! j) 0) X 0.

(** [s] of the second loop: the sum of squared deviations from [mj]. *)
Definition column_sq_dev (X : matrix) (j : nat) (mj : float) : float :=
  fold_left (fun s row => let v := or_else (row !! j) 0 - mj in s + v * v) X 0.

(** The guard on [std[j]]; the bound is the double that [1e-8] denotes. *)
Definition clamp_std (s : float) : float :=
  if negb (isFinite s) || (s <=? 0x1.5798ee2308c3ap-27) then 1 else s.

Definition column_mean (X : matrix) (j : nat) : float :=
  column_sum X j / num (length X).

(** What [std[j]] first receives: the sample deviation, with the divisor
    [Math.max(1, n - 1)]. *)
Definition column_dev (X : matrix) (j : nat) : float :=
  sqrt (column_sq_dev X j (column_mean X j) / num (Nat.max 1 (length X - 1))).

Definition column_std (X : matrix) (j : nat) : float :=
  clamp_std (column_dev X j).

Definition computeScaler (X : input) : Scaler :=
  match X with
  | NotArray => {| mean := []; std := [] |}
  | Arr [] => {| mean := []; std := [] |}
  | Arr (row0 :: rest) =>
      let rows := row0 :: rest in
      let m := length row0 in
      {| mean := map (column_mean rows) (seq 0 m);
         std := map (column_std rows) (seq 0 m) |}
  end.

(** The [scaler] argument as [applyScalerToRow] inspects it: a falsy value,
    or an object whose [mean] and [std] properties may or may not be arrays
    ([None] is a property that is not an array). *)
Inductive scaler_value :=
  | SFalsy
  | SObject (mean_prop std_prop : option vector).

Definition of_scaler (s : Scaler) : scaler_value :=
  SObject (Some (mean s)) (Some (std s)).

Definition isArray (p : option vector) : bool :=
  match p with Some _ => true | None => false end.

Definition elems (p : option vector) : vector :=
  match p with Some v => v | None => [] end.

(** The guard of [applyScalerToRow]:
    [!scaler || !Array.isArray(scaler.mean) || !Array.isArray(scaler.std)]. *)
Definition malformed (scaler : scaler_value) : bool :=
  match scaler with
  | SFalsy => true
  | SObject m s => negb (isArray m) || negb (isArray s)
  end.

Definition scaler_mean (scaler : scaler_value) : vector :=
  match scaler with SFalsy => [] | SObject m _ => elems m end.

Definition scaler_std (scaler : scaler_value) : vector :=
  match scaler with SFalsy => [] | SObject _ s => elems s end.

Definition applyScalerToRow (row : vector) (scaler : scaler_value) : vector :=
  if malformed scaler then row
  else imap (fun j v =>
               (or_else (Some v) 0 - or_else (scaler_mean scaler !! j) 0)
               / or_else (scaler_std scaler !! j) 1) row.

Definition applyScaler (X : matrix) (scaler : scaler_value) : matrix :=
  map (fun r => applyScalerToRow r scaler) X.

Close Scope float_scope.

(** ** The DBSCAN walk

    The walk only looks at the scaled matrix through [regionQuery], so it is
    written over the number of points [n] and the test
    [near i j], which [dbscan] instantiates with
    [euclidean(X[i], X[j]) <= eps].  [minPts] is an integer here; the walk
    for [minPts] any number, [NaN] included, is [walk_all_num]. *)

(** A label slot: [None] is [undefined]. *)
Abbreviation label := (option Z).

Record walk := {
  labels : list label;
  visited : list bool;
  clusterId : Z
}.

Section Walk.
Variable n : nat.
Variable near : nat -> nat -> bool.
Variable minPts : Z.

Definition regionQuery (i : nat) : list nat :=
  List.filter (fun j => negb (Nat.eqb i j) && near i j) (seq 0 n).

(** [neighbors.length + 1 < minPts] *)
Definition sparse (neighbors : list nat) : bool :=
  (Z.of_nat (length neighbors) + 1 <? minPts)%Z.

(** [neighbors.length + 1 >= minPts] *)
Definition dense (neighbors : list nat) : bool :=
  (Z.of_nat (length neighbors) + 1 >=? minPts)%Z.

(** [visited[j]]; every index the walk meets is below [n]. *)
Definition is_visited (w : walk) (j : nat) : bool :=
  match visited w !! j with Some b => b | None => false end.

(** [if (!stack.includes(nb)) stack.push(nb)] *)
Definition push_new (stack : list nat) (nb : nat) : list nat :=
  if existsb (Nat.eqb nb) stack then stack else stack ++ [nb].

(** [labels[j] === undefined || labels[j] === -1] *)
Definition unlabelled (w : walk) (j : nat) : bool :=
  match labels w !! j with
  | Some (Some c) => (c =? -1)%Z
  | Some None => true
  | None => true
  end.

(** One turn of the [while] loop: [j] has just been shifted off the
    stack, [rest] is what remains of it. *)
Definition expand_step (w : walk) (j : nat) (rest : list nat)
  : walk * list nat :=
  let '(vis, stack) :=
    if negb (is_visited w j) then
      let jNeighbors := regionQuery j in
      (<[j:=true]> (visited w),
       if dense jNeighbors then fold_left push_new jNeighbors rest else rest)
    else (visited w, rest) in
  let lbls :=
    if unlabelled w j then <[j:=Some (clusterId w)]> (labels w)
    else labels w in
  ({| labels := lbls; visited := vis; clusterId := clusterId w |}, stack).

(** The [while (stack.length)] loop, bounded by [fuel] turns; it returns
    the stack it stopped with, which [expand_exhausts] shows to be empty
    for the fuel that [visit] gives it. *)
Fixpoint expand (fuel : nat) (w : walk) (stack : list nat)
  : walk * list nat :=
  match fuel with
  | O => (w, stack)
  | S fuel' =>
      match stack with
      | [] => (w, [])
      | j :: rest =>
          let '(w', stack') := expand_step w j rest in
          expand fuel' w' stack'
      end
  end.

Definition walk_fuel : nat := S n * S n.

(** The body of the outer [for] loop at index [i]. *)
Definition visit (w : walk) (i : nat) : walk :=
  if is_visited w i then w
  else
    let vis := <[i:=true]> (visited w) in
    let neighbors := regionQuery i in
    if sparse neighbors then
      {| labels := <[i:=Some (-1)%Z]> (labels w);
         visited := vis; clusterId := clusterId w |}
    else
      let w1 := {| labels := <[i:=Some (clusterId w)]> (labels w);
                   visited := vis; clusterId := clusterId w |} in
      let w2 := fst (expand walk_fuel w1 neighbors) in
      {| labels := labels w2; visited := visited w2;
         clusterId := (clusterId w2 + 1)%Z |}.

Definition walk_init : walk :=
  {| labels := replicate n None; visited := replicate n false;
     clusterId := 0%Z |}.

(** The state after the first [k] turns of the outer loop. *)
Definition walk_upto (k : nat) : walk := fold_left visit (seq 0 k) walk_init.

Definition walk_all : walk := walk_upto n.

(** The second pass, which collects the core points. *)
Definition core (i : nat) : bool := dense (regionQuery i).

Definition corePoints_of : list nat := List.filter core (seq 0 n).
End Walk.

(** [labels.forEach((lbl) => (counts[lbl] = (counts[lbl] || 0) + 1))]; the
    object's keys are the labels as printed, one key per label. *)
Definition count_labels (ls : list label) : gmap label nat :=
  fold_left (fun counts lbl => <[lbl := default 0%nat (counts !! lbl) + 1]> counts)
            ls ∅.

(** ** Sessions and the two exported operations *)

(** [summary = { counts }]: the summary object holds the mapping in its
    [counts] property. *)
Record summary := { counts : gmap label nat }.

Record session := {
  ses_Xraw : matrix;
  ses_Xscaled : matrix;
  ses_labels : list label;
  ses_corePoints : list nat;
  ses_scaler : Scaler;
  ses_eps : float;
  ses_minPts : Z;
  ses_summary : summary
}.

(** [global.__dbscan._last]: absent until the first clustering. *)
Record global := { last : option session }.

(** What [dbscan] returns; [None] in [res_scaler] is [null], [None] in
    [res_summary] is a result object without that property. *)
Record result := {
  res_labels : list label;
  res_corePoints : list nat;
  res_scaler : option Scaler;
  res_Xscaled : matrix;
  res_summary : option summary
}.

Definition row (X : matrix) (i : nat) : vector := default [] (X !! i).

(** [euclidean(xi, X[j]) <= eps] of [regionQuery]. *)
Definition within (X : matrix) (eps : float) (i j : nat) : bool :=
  (euclidean (row X i) (row X j) <=? eps)%float.

(** [dbscan(Xraw, eps, minPts)] with the stored session [g] before the call;
    it returns the result and the stored session after it.  The defaults of
    the source ([eps = 2.0], [minPts = 4]) are what a caller that omits them
    passes. *)
Definition dbscan (g : global) (Xraw : input) (eps : float) (minPts : Z)
  : result * global :=
  match Xraw with
  | NotArray | Arr [] =>
      ({| res_labels := []; res_corePoints := []; res_scaler := None;
          res_Xscaled := []; res_summary := None |}, g)
  | Arr raw =>
      let scaler := computeScaler Xraw in
      let X := applyScaler raw (of_scaler scaler) in
      let n := length X in
      let w := walk_all n (within X eps) minPts in
      let corePoints := corePoints_of n (within X eps) minPts in
      let summary := {| counts := count_labels (labels w) |} in
      ({| res_labels := labels w; res_corePoints := corePoints;
          res_scaler := Some scaler; res_Xscaled := X;
          res_summary := Some summary |},
       {| last := Some {| ses_Xraw := raw; ses_Xscaled := X;
                          ses_labels := labels w;
                          ses_corePoints := corePoints;
                          ses_scaler := scaler; ses_eps := eps;
                          ses_minPts := minPts; ses_summary := summary |} |})
  end.

(** [best] of [assignByNearestCore]; [idx] is [-1] until a core point wins. *)
Record best := { idx : Z; dist : float }.

Record assigned := { cluster : label; a_dist : float }.

(** The body of [for (const i of corePoints)]. *)
Definition nearer (Xscaled : matrix) (newPtScaled : vector) (b : best) (i : nat)
  : best :=
  match Xscaled !! i with
  | None => b
  | Some xi =>
      let d := euclidean xi newPtScaled in
      if (d <? dist b)%float then {| idx := Z.of_nat i; dist := d |} else b
  end.

Definition nearest (Xscaled : matrix) (newPtScaled : vector)
    (corePoints : list nat) : best :=
  fold_left (nearer Xscaled newPtScaled) corePoints
            {| idx := (-1)%Z; dist := infinity |}.

(** [labels[best.idx]] *)
Definition label_at (ls : list label) (i : Z) : label :=
  if (i <? 0)%Z then None else mjoin (ls !! Z.to_nat i).

(** [Xraw || []] *)
Definition or_empty (Xraw : input) : matrix :=
  match Xraw with NotArray => [] | Arr X => X end.

Definition assignByNearestCore (g : global) (Xraw : input)
    (lbls : list label) (corePoints : list nat) (eps : float)
    (newPoint : vector) : assigned :=
  let scaler :=
    match last g with
    | Some s => ses_scaler s
    | None => computeScaler (Arr (or_empty Xraw))
    end in
  let newPtScaled := applyScalerToRow newPoint (of_scaler scaler) in
  let Xscaled :=
    match last g with
    | Some s => ses_Xscaled s
    | None => applyScaler (or_empty Xraw) (of_scaler scaler)
    end in
  let b := nearest Xscaled newPtScaled corePoints in
  if (idx b =? -1)%Z || (eps <? dist b)%float then
    {| cluster := Some (-1)%Z; a_dist := dist b |}
  else {| cluster := label_at lbls (idx b); a_dist := dist b |}.

Definition scenario : matrix := [[0; 0]; [0; 1]; [1; 0]; [10; 10]]%float.

Definition no_session : global := {| last := None |}.


(** * Definitions used to state the properties *)

(** ** Reading floats through their specification *)

Ltac to_spec :=
  rewrite ?FloatAxioms.ltb_spec, ?FloatAxioms.leb_spec, ?FloatAxioms.eqb_spec in *;
  unfold SFltb, SFleb, SFeqb in *.

Ltac cmp_cases :=
  change PosDef.Pos.compare_cont with Pos.compare_cont;
  rewrite ?Pos.compare_cont_spec; simpl;
  repeat match goal with
  | |- context [Z.compare ?a ?b] => destruct (Z.compare_spec a b); simpl
  | |- context [Pos.compare ?a ?b] => destruct (Pos.compare_spec a b); simpl
  end.

Definition is_szero (x : spec_float) : bool :=
  match x with S754_zero _ => true | _ => false end.

(** [x] is a zero, a finite number or an infinity of sign [s]. *)
Definition signed (s : bool) (x : spec_float) : bool :=
  match x with
  | S754_zero s' | S754_infinity s' | S754_finite s' _ _ => Bool.eqb s' s
  | S754_nan => false
  end.

(** ** The distance as the specification words it

    Both vectors are read over [max(len(a), len(b))] positions, a missing or
    falsy position as [0]; the squared differences are summed and the root
    is taken, all in double arithmetic. *)

Definition zero_fill (len : nat) (v : vector) : vector :=
  map (fun i => or_else (v !! i) 0%float) (seq 0 len).

Definition sq_diff (x y : float) : float := ((x - y) * (x - y))%float.

Definition euclid_spec (a b : vector) : float :=
  let len := Nat.max (length a) (length b) in
  sqrt (fold_left PrimFloat.add
          (zip_with sq_diff (zero_fill len a) (zero_fill len b)) 0%float).

(** No entry of [v] is [Infinity] or [-Infinity]. *)
Definition no_infinity (v : vector) : Prop :=
  Forall (fun x => is_infinity x = false) v.

(** A non-negative real number, as a double: finite and at least zero. *)
Definition nonneg_real (x : float) : bool := isFinite x && (0 <=? x)%float.

(** A scaler argument that is absent ([undefined], [null]) or malformed: not
    an object whose [mean] and [std] are both arrays. *)
Definition absent_or_malformed (scaler : scaler_value) : Prop :=
  scaler = SFalsy
  \/ exists m s, scaler = SObject m s /\ (m = None \/ s = None).

(** ** Invariants of the walk *)

(** The number of points not yet visited. *)
Definition unvisited (vis : list bool) : nat := length (List.filter negb vis).

Section WalkInvariants.
Variable n : nat.
Variable near : nat -> nat -> bool.
Variable minPts : Z.

(** Point [i] marked visited and given the label [c]. *)
Definition mark (w : walk) (i : nat) (c : Z) : walk :=
  {| labels := <[i:=Some c]> (labels w); visited := <[i:=true]> (visited w);
     clusterId := clusterId w |}.

(** [clusterId++] *)
Definition next_cluster (w : walk) : walk :=
  {| labels := labels w; visited := visited w;
     clusterId := (clusterId w + 1)%Z |}.

(** What bounds the turns of the [while] loop that remain: a turn either
    visits a point, or only shortens the stack. *)
Definition expand_measure (w : walk) (stack : list nat) : nat :=
  unvisited (visited w) * S n + length stack.

(** The stack holds indices of points, none of them twice. *)
Definition stack_ok (stack : list nat) : Prop :=
  NoDup stack /\ forall x, In x stack -> x < n.

(** What holds of the arrays between any two turns of either loop. *)
Record walk_ok (w : walk) : Prop := {
  ok_labels : length (labels w) = n;
  ok_visited : length (visited w) = n;
  ok_clusterId : (0 <= clusterId w)%Z;
  ok_labelled_visited :
    forall j c, labels w !! j = Some (Some c) -> is_visited w j = true;
  ok_visited_labelled :
    forall j, is_visited w j = true -> exists c, labels w !! j = Some (Some c);
  ok_noise :
    forall j, labels w !! j = Some (Some (-1)%Z) ->
              sparse minPts (regionQuery n near j) = true
}.

(** The labels in use are [-1] and the cluster ids below [k], each of which
    some point carries. *)
Definition ids_upto (k : Z) (w : walk) : Prop :=
  (forall j c, labels w !! j = Some (Some c) -> c = (-1)%Z \/ (0 <= c < k)%Z)
  /\ (forall c, (0 <= c < k)%Z -> exists j, labels w !! j = Some (Some c)).

(** Core points that are neighbours carry one label: every neighbour of a
    visited core point is visited or waits on the stack of the cluster being
    expanded, to which that core point then belongs. *)
Definition linked (w : walk) (stack : list nat) : Prop :=
  (forall j nb, is_visited w j = true -> core n near minPts j = true ->
                In nb (regionQuery n near j) ->
                is_visited w nb = true
                \/ (In nb stack /\ labels w !! j = Some (Some (clusterId w))))
  /\ (forall j nb, is_visited w j = true -> core n near minPts j = true ->
                   is_visited w nb = true -> core n near minPts nb = true ->
                   In nb (regionQuery n near j) ->
                   labels w !! j = labels w !! nb).
End WalkInvariants.

(** The cluster ids (non-negative labels) that occur in a label array. *)
Definition cluster_ids (ls : list label) : gset Z :=
  list_to_set (omap (fun l : label =>
                       match l with
                       | Some c => if (0 <=? c)%Z then Some c else None
                       | None => None
                       end) ls).

(** The eps-neighbourhood of point [i] of the scaled matrix [X], the point
    itself included: what [regionQuery(i)] finds, and [i]. *)
Definition eps_neighbourhood (X : matrix) (eps : float) (i : nat) : list nat :=
  i :: regionQuery (length X) (within X eps) i.

(** The scaled matrix [X] of [dbscan]: the raw matrix under its own scaler. *)
Definition scaled (raw : matrix) : matrix :=
  applyScaler raw (of_scaler (computeScaler (Arr raw))).

(** What [dbscan] returns on a degenerate input. *)
Definition empty_result : result :=
  {| res_labels := []; res_corePoints := []; res_scaler := None;
     res_Xscaled := []; res_summary := None |}.

(** How many entries of [ls] are the label [l]. *)
Definition occurrences (l : label) (ls : list label) : nat :=
  length (List.filter (fun l' => bool_decide (l' = l)) ls).

(** ** Assignment *)

(** The scaler that [assignByNearestCore] uses: the stored session's, or one
    fitted to [Xraw] when no session is stored. *)
Definition assign_scaler (g : global) (Xraw : input) : Scaler :=
  match last g with
  | Some s => ses_scaler s
  | None => computeScaler (Arr (or_empty Xraw))
  end.

(** The scaled matrix that [assignByNearestCore] uses. *)
Definition assign_Xscaled (g : global) (Xraw : input) : matrix :=
  match last g with
  | Some s => ses_Xscaled s
  | None => applyScaler (or_empty Xraw) (of_scaler (assign_scaler g Xraw))
  end.

(** The distance from core point [i] to [p]; [None] when [Xscaled[i]] is
    missing, in which case the loop skips [i]. *)
Definition core_dist (X : matrix) (p : vector) (i : nat) : option float :=
  (fun xi => euclidean xi p) <$> X !! i.

(** A distance that lets a core point take the new point: below [Infinity]
    and not greater than [eps]. *)
Definition in_reach (eps d : float) : bool :=
  (d <? infinity)%float && negb (eps <? d)%float.

(** [k] is the first core point, in iteration order, whose distance [d] to
    [p] is least: no core point is nearer, and none before [k] is as near. *)
Definition first_least (X : matrix) (p : vector) (cores : list nat)
    (k : nat) (d : float) : Prop :=
  exists pre post,
    cores = pre ++ k :: post
    /\ core_dist X p k = Some d
    /\ (d <? infinity)%float = true
    /\ (forall i di, In i cores -> core_dist X p i = Some di ->
                     (di <? d)%float = false)
    /\ (forall i di, In i pre -> core_dist X p i = Some di ->
                     (di <=? d)%float = false).

(** C6 as the specification states it: noise when there is no core point or
    every core point is strictly farther than [eps]; otherwise the label of
    a core point and the distance to it. *)
Definition all_beyond (X : matrix) (p : vector) (eps : float)
    (cores : list nat) : Prop :=
  forall i d, In i cores -> core_dist X p i = Some d -> (eps <? d)%float = true.

Definition assign_as_stated (g : global) (Xraw : input) (lbls : list label)
    (cores : list nat) (eps : float) (newPoint : vector) : Prop :=
  let X := assign_Xscaled g Xraw in
  let p := applyScalerToRow newPoint (of_scaler (assign_scaler g Xraw)) in
  let r := assignByNearestCore g Xraw lbls cores eps newPoint in
  (cores = [] \/ all_beyond X p eps cores -> cluster r = Some (-1)%Z)
  /\ (~ (cores = [] \/ all_beyond X p eps cores) ->
      exists k d, In k cores /\ core_dist X p k = Some d
                  /\ cluster r = label_at lbls (Z.of_nat k) /\ a_dist r = d).

(** Two rows, each holding the largest power of two; their sum overflows. *)
Definition overflowing : matrix := [[0x1p1023]; [0x1p1023]]%float.

(** Three points on a line, one apart after scaling. *)
Definition line : matrix := [[0]; [1]; [2]]%float.

(** The machine epsilon of binary64. *)
Definition float_epsilon : float := 0x1p-52%float.

(** C3 as the specification states it, for the session that [dbscan] stores
    for [raw]: the core point [i] with label [c] is assigned [c], at a
    distance of zero up to the machine epsilon. *)
Definition agreement_as_stated (raw : matrix) (eps : float) (minPts : Z)
    (i : nat) (c : Z) : Prop :=
  let out := dbscan no_session (Arr raw) eps minPts in
  In i (res_corePoints (fst out)) ->
  res_labels (fst out) !! i = Some (Some c) ->
  (0 <=? eps)%float = true ->
  let r := assignByNearestCore (snd out) (Arr raw) (res_labels (fst out))
                               (res_corePoints (fst out)) eps (row raw i) in
  cluster r = Some c /\ (a_dist r <=? float_epsilon)%float = true.

(** ** The states the walk goes through *)

Section Trace.
Variable n : nat.
Variable near : nat -> nat -> bool.
Variable minPts : Z.

(** The arrays after each turn of the [while] loop, in order. *)
Fixpoint expand_trace (fuel : nat) (w : walk) (stack : list nat)
  : list walk :=
  match fuel with
  | O => []
  | S fuel' =>
      match stack with
      | [] => []
      | j :: rest =>
          let '(w', stack') := expand_step n near minPts w j rest in
          w' :: expand_trace fuel' w' stack'
      end
  end.

(** The states that follow [w] in the turn of the outer loop at [i]: none
    if [i] is visited; else [i] marked, and for a seed the states of the
    expansion and the state with the next cluster id. *)
Definition visit_trace (w : walk) (i : nat) : list walk :=
  if is_visited w i then []
  else if sparse minPts (regionQuery n near i) then [mark w i (-1)]
  else
    let w1 := mark w i (clusterId w) in
    w1 :: expand_trace (walk_fuel n) w1 (regionQuery n near i)
       ++ [next_cluster
             (fst (expand n near minPts (walk_fuel n) w1 (regionQuery n near i)))].

(** The states that follow the initial one in the first [k] turns of the
    outer loop. *)
Fixpoint walk_tail (k : nat) : list walk :=
  match k with
  | O => []
  | S k' => walk_tail k' ++ visit_trace (walk_upto n near minPts k') k'
  end.

(** Every state of the walk, from the initial arrays to the final ones. *)
Definition walk_trace : list walk := walk_init n :: walk_tail n.
End Trace.

(** No cluster id that [w] holds is lost or changed in [w']. *)
Definition keeps (w w' : walk) : Prop :=
  forall p c, (0 <= c)%Z -> labels w !! p = Some (Some c) ->
              labels w' !! p = Some (Some c).

(** Each state of [l], starting from [w], keeps the cluster ids of the one
    before. *)
Fixpoint steps_keep (w : walk) (l : list walk) : Prop :=
  match l with
  | [] => True
  | w' :: l' => keeps w w' /\ steps_keep w' l'
  end.

(** ** Columns of zero variance *)

(** Every row of [X] holds [v] at column [j], as the scaler reads it. *)
Definition constant_column (X : matrix) (j : nat) (v : float) : Prop :=
  forall row, In row X -> or_else (row !! j) 0%float = v.

(** C8 as the specification states it: on a matrix that is not empty every
    [std[j]] is finite and not zero, and a degenerate column (of zero
    variance, or of fewer than two samples) has [std[j] = 1]. *)
Definition std_as_stated (X : matrix) : Prop :=
  X <> [] ->
  let s := std (computeScaler (Arr X)) in
  Forall (fun x => isFinite x = true /\ is_zero x = false) s
  /\ forall j, j < length s ->
       (exists v, constant_column X j v) \/ length X < 2 ->
       s !! j = Some 1%float.

(** Ten rows that hold the double nearest to [1000000000.1]. *)
Definition near_billion : matrix := repeat [0x1.dcd65000ccccdp+29%float] 10.

(** Two rows whose first column is constant. *)
Definition fives : matrix := [[5; 1]; [5; 2]]%float.

(** ** Which points a cluster takes in *)

Section Reach.
Variable n : nat.
Variable near : nat -> nat -> bool.
Variable minPts : Z.

(** [x] is a neighbour of the core point [j]. *)
Definition reaches (j x : nat) : Prop :=
  j < n /\ core n near minPts j = true /\ In x (regionQuery n near j).

(** A chain of core points that starts at [i], each of them a neighbour of
    the one before. *)
Inductive chained (i : nat) : nat -> Prop :=
  | chained_here : chained i i
  | chained_next j k :
      chained i j -> reaches j k -> core n near minPts k = true ->
      chained i k.

(** What the clusters look like between two turns of the [while] loop:
    the neighbours of a visited core point hold a cluster id or wait on
    the stack; a point with a cluster id is a core point or a neighbour of
    a core point of that cluster; the points on the stack are neighbours of
    core points of the cluster being expanded; and the core points of one
    cluster are chained. *)
Record grown (w : walk) (stack : list nat) : Prop := {
  gr_taken :
    forall j nb, is_visited w j = true -> core n near minPts j = true ->
                 In nb (regionQuery n near j) ->
                 (exists c, (0 <= c)%Z /\ labels w !! nb = Some (Some c))
                 \/ In nb stack;
  gr_joined :
    forall x c, (0 <= c)%Z -> labels w !! x = Some (Some c) ->
                core n near minPts x = true
                \/ exists j, reaches j x /\ labels w !! j = Some (Some c);
  gr_stack :
    forall x, In x stack ->
              exists j, reaches j x /\ labels w !! j = Some (Some (clusterId w));
  gr_chained :
    forall x y c, (0 <= c)%Z ->
                  core n near minPts x = true -> core n near minPts y = true ->
                  labels w !! x = Some (Some c) ->
                  labels w !! y = Some (Some c) -> chained x y
}.

(** The neighbours of a visited core point hold a cluster id that is not
    above that of the core point, or wait on the stack of its cluster. *)
Definition ordered (w : walk) (stack : list nat) : Prop :=
  forall j nb cj,
    is_visited w j = true -> core n near minPts j = true ->
    In nb (regionQuery n near j) -> labels w !! j = Some (Some cj) ->
    (exists c, (0 <= c <= cj)%Z /\ labels w !! nb = Some (Some c))
    \/ (In nb stack /\ cj = clusterId w).

(** No point before [k] is a core point. *)
Definition no_core_before (k : nat) : Prop :=
  forall j, j < k -> core n near minPts j = false.
End Reach.

(** Three rows, the first and the last alike. *)
Definition twins : matrix := [[1; 2]; [5; 5]; [1; 2]]%float.

(** ** E-mails and their features

    [preprocessEmails] and [determineClusterLabel] read four properties of
    an e-mail.  A JavaScript string is the list of its UTF-16 code units,
    so that [length] is the [length] property. *)

Abbreviation jsstring := (list nat).

(** The code units of a literal of ASCII characters. *)
Definition units (s : string) : jsstring :=
  map Ascii.nat_of_ascii (String.list_ascii_of_string s).

(** [body] is [None] when the property is missing; [fromDomain] is the
    property key that [e.fromDomain] denotes; [hasAttachment] is the
    truthiness of that property; [senderReputation] is [None] when the
    property is missing. *)
Record email := {
  body : option jsstring;
  fromDomain : jsstring;
  hasAttachment : bool;
  senderReputation : option float
}.

(** What a cell of a feature row can hold: a number, the value that the
    fresh object [{}] inherits under the key [k], or [undefined]. *)
Inductive value :=
  | Num (x : float)
  | Inherited (k : jsstring)
  | Undefined.

(** [kw] is found in [s] at position [0]. *)
Fixpoint starts_with (kw s : jsstring) : bool :=
  match kw, s with
  | [], _ => true
  | _ :: _, [] => false
  | a :: kw', b :: s' => Nat.eqb a b && starts_with kw' s'
  end.

(** [s.includes(kw)] *)
Fixpoint includes (kw s : jsstring) : bool :=
  starts_with kw s
  || match s with [] => false | _ :: s' => includes kw s' end.

(** The matches that [split] finds for a separator [kw] that is not empty:
    it searches from left to right and resumes after the end of each
    match; [skip] counts the code units of the last match still to pass. *)
Fixpoint matches_from (kw : jsstring) (skip : nat) (s : jsstring) : nat :=
  match s with
  | [] => 0
  | _ :: s' =>
      match skip with
      | S k => matches_from kw k s'
      | O =>
          if starts_with kw s then S (matches_from kw (length kw - 1) s')
          else matches_from kw 0 s'
      end
  end.

(** [s.split(kw).length - 1], for [kw] not empty. *)
Definition split_count (kw s : jsstring) : nat := matches_from kw 0 s.

(** [b || ""] for a body [b]. *)
Definition or_empty_string (b : option jsstring) : jsstring := default [] b.

Definition keywords : list jsstring :=
  map units ["verify"; "invoice"; "payment"; "meeting"]%string.

Definition phishingKeywords : list jsstring :=
  map units ["verify"; "action required"; "payment issue";
             "suspicious activity"; "login"; "urgent";
             "account suspended"]%string.

Definition promoKeywords : list jsstring :=
  map units ["invoice"; "offer"; "meeting"; "update"; "newsletter";
             "promotion"; "discount"]%string.

Section Emails.
(** Which keys the fresh object [{}] answers to through its prototype
    ([constructor], [toString] and the like); their values are truthy and
    no numbers. *)
Variable inherited : jsstring -> bool.
(** [String.prototype.toLowerCase] *)
Variable toLowerCase : jsstring -> jsstring.

(** [!domainMap[k]]: an own property is falsy when it is [0], an inherited
    one is truthy, and a key that is nowhere yields [undefined]. *)
Definition unmapped (domainMap : gmap jsstring nat) (k : jsstring) : bool :=
  match domainMap !! k with
  | Some v => Nat.eqb v 0
  | None => negb (inherited k)
  end.

(** [if (!domainMap[e.fromDomain]) domainMap[e.fromDomain] = idx++] *)
Definition note_domain (st : gmap jsstring nat * nat) (e : email)
  : gmap jsstring nat * nat :=
  if unmapped (fst st) (fromDomain e)
  then (<[fromDomain e := snd st]> (fst st), S (snd st))
  else st.

(** [domainMap] after the first loop. *)
Definition domain_map (emails : list email) : gmap jsstring nat :=
  fst (fold_left note_domain emails (∅, 0)).

(** [domainMap[k]] as the second loop reads it. *)
Definition domain_lookup (domainMap : gmap jsstring nat) (k : jsstring)
  : value :=
  match domainMap !! k with
  | Some v => Num (num v)
  | None => if inherited k then Inherited k else Undefined
  end.

(** The callback of [emails.map]; [None] is the [TypeError] that
    [e.body.length] throws when the body is missing. *)
Definition featureArr (domainMap : gmap jsstring nat) (e : email)
  : option (list value) :=
  match body e with
  | None => None
  | Some b =>
      let bodyLower := toLowerCase (or_empty_string (body e)) in
      Some (fold_left
              (fun arr kw => arr ++ [Num (num (split_count kw bodyLower))])
              keywords
              [Num (num (length b));
               domain_lookup domainMap (fromDomain e);
               Num (if hasAttachment e then 1 else 0)%float;
               Num (or_else (senderReputation e) 0%float)])
  end.

(** [preprocessEmails(emails)]; [None] when it throws. *)
Definition preprocessEmails (emails : list email) : option (list (list value)) :=
  mapM (featureArr (domain_map emails)) emails.

(** [phishingKeywords.forEach((kw) => { if (bodyLower.includes(kw)) score++ })] *)
Definition count_hits (kws : list jsstring) (bodyLower : jsstring) (score : nat)
  : nat :=
  fold_left (fun s kw => if includes kw bodyLower then S s else s) kws score.

(** The body of [for (let email of clusterEmails)], on the two scores. *)
Definition score_email (scores : nat * nat) (e : email) : nat * nat :=
  let bodyLower := toLowerCase (or_empty_string (body e)) in
  (count_hits phishingKeywords bodyLower (fst scores),
   count_hits promoKeywords bodyLower (snd scores)).

Definition determineClusterLabel (clusterEmails : list email) : string :=
  match clusterEmails with
  | [] => "Other"
  | _ :: _ =>
      let scores := fold_left score_email clusterEmails (0, 0) in
      let phishingScore := (num (fst scores) / num (length clusterEmails))%float in
      let promoScore := (num (snd scores) / num (length clusterEmails))%float in
      if (promoScore <? phishingScore)%float && (0.5 <? phishingScore)%float
      then "Phishing"
      else if (phishingScore <? promoScore)%float && (0.5 <? promoScore)%float
      then "Promo"
      else "Other"
  end.
(** What holds of [domainMap] and [idx] between two turns of the first
    loop: the indices in use are below [idx], no two keys share one, and
    no inherited key has become an own property. *)
Definition domains_ok (st : gmap jsstring nat * nat) : Prop :=
  (forall k v, fst st !! k = Some v -> v < snd st)
  /\ (forall k1 k2 v, fst st !! k1 = Some v -> fst st !! k2 = Some v -> k1 = k2)
  /\ (forall k, is_Some (fst st !! k) -> inherited k = false).
End Emails.

(** [kw] occurs in [s]. *)
Definition substring (kw s : jsstring) : Prop :=
  exists pre post, s = pre ++ kw ++ post.

(** A feature matrix all of whose cells are numbers, as the matrix that
    [dbscan] reads. *)
Definition number (v : value) : option float :=
  match v with Num x => Some x | _ => None end.

Definition numbers (rows : list (list value)) : option matrix :=
  mapM (mapM number) rows.

(** The keys that [Object.prototype] defines. *)
Definition object_prototype_keys : list jsstring :=
  map units ["constructor"; "hasOwnProperty"; "isPrototypeOf";
             "propertyIsEnumerable"; "toLocaleString"; "toString"; "valueOf";
             "__proto__"; "__defineGetter__"; "__defineSetter__";
             "__lookupGetter__"; "__lookupSetter__"]%string.

Definition from_prototype (k : jsstring) : bool :=
  bool_decide (k ∈ object_prototype_keys).

(** [toLowerCase] on the letters of ASCII. *)
Definition lower_ascii (s : jsstring) : jsstring :=
  map (fun c => if (65 <=? c) && (c <=? 90) then c + 32 else c) s.

(** Three e-mails, the first and the last from one domain. *)
Definition inbox : list email :=
  [ {| body := Some (units "Please VERIFY your payment"); fromDomain := units "a.com";
       hasAttachment := false; senderReputation := Some 0.5%float |};
    {| body := Some (units "meeting invoice"); fromDomain := units "b.org";
       hasAttachment := true; senderReputation := None |};
    {| body := Some (units "urgent: verify login"); fromDomain := units "a.com";
       hasAttachment := false; senderReputation := Some 0%float |} ].

(** ** [minPts] as a JavaScript number

    The walk above takes [minPts] as an integer.  A caller may pass any
    number.  The two tests, [neighbors.length + 1 < minPts] and
    [neighbors.length + 1 >= minPts], compare it with an integer: a number
    that is not [NaN] decides them as the least integer not below it does
    (an infinite one as an integer beyond every count), and [NaN] fails
    both.  [Threshold z] is a number that acts as the integer [z],
    [NotANumber] is [NaN]; on [Threshold z] the walk below is the walk
    above ([walk_upto_num_int]). *)

Inductive threshold :=
  | Threshold (z : Z)
  | NotANumber.

(** [neighbors.length + 1 < minPts] *)
Definition below (minPts : threshold) (neighbors : list nat) : bool :=
  match minPts with
  | Threshold z => (Z.of_nat (length neighbors) + 1 <? z)%Z
  | NotANumber => false
  end.

(** [neighbors.length + 1 >= minPts] *)
Definition reached (minPts : threshold) (neighbors : list nat) : bool :=
  match minPts with
  | Threshold z => (Z.of_nat (length neighbors) + 1 >=? z)%Z
  | NotANumber => false
  end.

Section WalkNumber.
Variable n : nat.
Variable near : nat -> nat -> bool.
Variable minPts : threshold.

(** One turn of the [while] loop. *)
Definition expand_step_num (w : walk) (j : nat) (rest : list nat)
  : walk * list nat :=
  let '(vis, stack) :=
    if negb (is_visited w j) then
      let jNeighbors := regionQuery n near j in
      (<[j:=true]> (visited w),
       if reached minPts jNeighbors then fold_left push_new jNeighbors rest
       else rest)
    else (visited w, rest) in
  let lbls :=
    if unlabelled w j then <[j:=Some (clusterId w)]> (labels w)
    else labels w in
  ({| labels := lbls; visited := vis; clusterId := clusterId w |}, stack).

(** The [while (stack.length)] loop, bounded by [fuel] turns. *)
Fixpoint expand_num (fuel : nat) (w : walk) (stack : list nat)
  : walk * list nat :=
  match fuel with
  | O => (w, stack)
  | S fuel' =>
      match stack with
      | [] => (w, [])
      | j :: rest =>
          let '(w', stack') := expand_step_num w j rest in
          expand_num fuel' w' stack'
      end
  end.

(** The body of the outer [for] loop at index [i]. *)
Definition visit_num (w : walk) (i : nat) : walk :=
  if is_visited w i then w
  else
    let vis := <[i:=true]> (visited w) in
    let neighbors := regionQuery n near i in
    if below minPts neighbors then
      {| labels := <[i:=Some (-1)%Z]> (labels w);
         visited := vis; clusterId := clusterId w |}
    else
      let w1 := {| labels := <[i:=Some (clusterId w)]> (labels w);
                   visited := vis; clusterId := clusterId w |} in
      let w2 := fst (expand_num (walk_fuel n) w1 neighbors) in
      {| labels := labels w2; visited := visited w2;
         clusterId := (clusterId w2 + 1)%Z |}.

Definition walk_upto_num (k : nat) : walk :=
  fold_left visit_num (seq 0 k) (walk_init n).

Definition walk_all_num : walk := walk_upto_num n.

(** The second pass, which collects the core points. *)
Definition core_num (i : nat) : bool := reached minPts (regionQuery n near i).

Definition corePoints_num : list nat := List.filter core_num (seq 0 n).

(** No label is negative and the next cluster id is not either. *)
Definition ids_only (w : walk) : Prop :=
  (0 <= clusterId w)%Z
  /\ forall j c, labels w !! j = Some (Some c) -> (0 <= c)%Z.
End WalkNumber.

(** What [dbscan(Xraw, eps, minPts)] returns, for [minPts] any number. *)
Definition dbscan_num (Xraw : input) (eps : float) (minPts : threshold)
  : result :=
  match Xraw with
  | NotArray | Arr [] =>
      {| res_labels := []; res_corePoints := []; res_scaler := None;
         res_Xscaled := []; res_summary := None |}
  | Arr raw =>
      let scaler := computeScaler Xraw in
      let X := applyScaler raw (of_scaler scaler) in
      let n := length X in
      let w := walk_all_num n (within X eps) minPts in
      let corePoints := corePoints_num n (within X eps) minPts in
      let summary := {| counts := count_labels (labels w) |} in
      {| res_labels := labels w; res_corePoints := corePoints;
         res_scaler := Some scaler; res_Xscaled := X;
         res_summary := Some summary |}
  end.

(** * Facts about binary64 arithmetic

    The primitive operations are specified by [FloatAxioms] in terms of
    [SpecFloat]; the facts the engine relies on are derived from that
    specification. *)

Module FloatFacts.
Local Open Scope float_scope.

(** ** Comparisons *)

Lemma SFcompare_antisym x y :
  SFcompare y x = option_map CompOpp (SFcompare x y).
Proof.
  destruct x as [[]|[]| |[] mx ex], y as [[]|[]| |[] my ey]; simpl; try reflexivity.
  all: cmp_cases; subst; try reflexivity; try lia.
  all: cmp_cases; subst; try reflexivity; lia.
Qed.

Lemma SFcompare_trans x y z c1 c2 :
  SFcompare x y = Some c1 -> SFcompare y z = Some c2 ->
  c1 <> Gt -> c2 <> Gt ->
  SFcompare x z = Some (match c1, c2 with Eq, Eq => Eq | _, _ => Lt end).
Proof.
  destruct x as [[]|[]| |[] mx ex], y as [[]|[]| |[] my ey], z as [[]|[]| |[] mz ez];
    simpl; intros H1 H2 N1 N2; try congruence;
    try (injection H1 as <-; injection H2 as <-; try reflexivity; congruence).
  all: injection H1 as <-; injection H2 as <-; revert N1 N2.
  all: cmp_cases; intros; subst; try congruence; try lia.
Qed.

Lemma ltb_trans x y z : (x <? y) = true -> (y <? z) = true -> (x <? z) = true.
Proof.
  to_spec.
  destruct (SFcompare (Prim2SF x) (Prim2SF y)) as [[]|] eqn:E1; try discriminate.
  destruct (SFcompare (Prim2SF y) (Prim2SF z)) as [[]|] eqn:E2; try discriminate.
  intros _ _. now rewrite (SFcompare_trans _ _ _ _ _ E1 E2).
Qed.

Lemma leb_ltb_trans x y z : (x <=? y) = true -> (y <? z) = true -> (x <? z) = true.
Proof.
  to_spec.
  destruct (SFcompare (Prim2SF x) (Prim2SF y)) as [[]|] eqn:E1; try discriminate;
  destruct (SFcompare (Prim2SF y) (Prim2SF z)) as [[]|] eqn:E2; try discriminate;
  intros _ _; now rewrite (SFcompare_trans _ _ _ _ _ E1 E2).
Qed.

Lemma ltb_leb_trans x y z : (x <? y) = true -> (y <=? z) = true -> (x <? z) = true.
Proof.
  to_spec.
  destruct (SFcompare (Prim2SF x) (Prim2SF y)) as [[]|] eqn:E1; try discriminate;
  destruct (SFcompare (Prim2SF y) (Prim2SF z)) as [[]|] eqn:E2; try discriminate;
  intros _ _; now rewrite (SFcompare_trans _ _ _ _ _ E1 E2).
Qed.

Lemma leb_trans x y z : (x <=? y) = true -> (y <=? z) = true -> (x <=? z) = true.
Proof.
  to_spec.
  destruct (SFcompare (Prim2SF x) (Prim2SF y)) as [[]|] eqn:E1; try discriminate;
  destruct (SFcompare (Prim2SF y) (Prim2SF z)) as [[]|] eqn:E2; try discriminate;
  intros _ _; now rewrite (SFcompare_trans _ _ _ _ _ E1 E2).
Qed.

Lemma is_nan_spec x :
  is_nan x = match Prim2SF x with S754_nan => true | _ => false end.
Proof.
  unfold is_nan. to_spec.
  destruct (Prim2SF x) as [[]|[]| |[] m e]; simpl; try reflexivity.
  all: cmp_cases; try reflexivity; lia.
Qed.

Lemma is_zero_spec x :
  is_zero x = match Prim2SF x with S754_zero _ => true | _ => false end.
Proof.
  unfold is_zero. to_spec. change (Prim2SF 0) with (S754_zero false).
  destruct (Prim2SF x) as [[]|[]| |[] m e]; reflexivity.
Qed.

Lemma is_infinity_spec x :
  is_infinity x = match Prim2SF x with S754_infinity _ => true | _ => false end.
Proof.
  unfold is_infinity. to_spec. rewrite abs_spec.
  change (Prim2SF infinity) with (S754_infinity false).
  destruct (Prim2SF x) as [[]|[]| |[] m e]; reflexivity.
Qed.

Lemma ltb_false_leb x y :
  (x <? y) = false -> is_nan x = false -> is_nan y = false -> (y <=? x) = true.
Proof.
  rewrite !is_nan_spec. to_spec. rewrite (SFcompare_antisym (Prim2SF x) (Prim2SF y)).
  destruct (SFcompare (Prim2SF x) (Prim2SF y)) as [[]|] eqn:E; simpl; try easy.
  destruct (Prim2SF x) as [[]|[]| |[] mx ex], (Prim2SF y) as [[]|[]| |[] my ey];
    simpl in *; congruence.
Qed.

Lemma leb_ltb_false x y : (x <=? y) = true -> (y <? x) = false.
Proof.
  to_spec. rewrite (SFcompare_antisym (Prim2SF x) (Prim2SF y)).
  destruct (SFcompare (Prim2SF x) (Prim2SF y)) as [[]|]; simpl; easy.
Qed.

Lemma ltb_not_nan x y : (x <? y) = true -> is_nan x = false /\ is_nan y = false.
Proof.
  rewrite !is_nan_spec. to_spec.
  destruct (Prim2SF x) as [[]|[]| |[] mx ex], (Prim2SF y) as [[]|[]| |[] my ey];
    simpl; easy.
Qed.

Lemma ltb_irrefl x : (x <? x) = false.
Proof.
  to_spec. destruct (Prim2SF x) as [[]|[]| |[] m e]; simpl; try reflexivity.
  all: cmp_cases; try reflexivity; lia.
Qed.

Lemma ltb_infinity x :
  (x <? infinity) = negb (is_nan x) && negb (x =? infinity).
Proof.
  rewrite is_nan_spec. to_spec. change (Prim2SF infinity) with (S754_infinity false).
  destruct (Prim2SF x) as [[]|[]| |[] mx ex]; reflexivity.
Qed.

(** A zero compares below every positive number, so a value that is not at
    most a positive bound is not a zero. *)
Lemma zero_leb_pos x y :
  is_zero x = true -> (0 <? y) = true -> (x <=? y) = true.
Proof.
  rewrite is_zero_spec. to_spec. change (Prim2SF 0) with (S754_zero false).
  destruct (Prim2SF x) as [[]|[]| |[] mx ex], (Prim2SF y) as [[]|[]| |[] my ey];
    simpl; easy.
Qed.

(** ** Subtraction, addition, division by one *)

Lemma sub_diag x : is_nan x = false -> is_infinity x = false -> x - x = 0.
Proof.
  rewrite is_nan_spec, is_infinity_spec. intros Hn Hi.
  apply Prim2SF_inj. rewrite sub_spec. change (Prim2SF 0) with (S754_zero false).
  destruct (Prim2SF x) as [[]|[]| |s m e]; try discriminate; try reflexivity.
  unfold SF64sub, SFsub. rewrite Z.sub_diag. reflexivity.
Qed.

Lemma sub_diag_infinity x : is_infinity x = true -> is_nan (x - x) = true.
Proof.
  rewrite is_nan_spec, is_infinity_spec, sub_spec.
  destruct (Prim2SF x) as [[]|[]| |s m e]; try discriminate; reflexivity.
Qed.

Lemma add_0_l x : is_zero x = false \/ x = 0 -> 0 + x = x.
Proof.
  intros [H| ->]; [|reflexivity]. rewrite is_zero_spec in H.
  apply Prim2SF_inj. rewrite add_spec. change (Prim2SF 0) with (S754_zero false).
  destruct (Prim2SF x) as [[]|[]| |s m e]; try discriminate; reflexivity.
Qed.

Lemma fexp64 z : fexp prec emax z = Z.max (z - 53) (-1074).
Proof. reflexivity. Qed.

Lemma div_eucl_pair a b : Z.div_eucl a b = ((a / b)%Z, (a mod b)%Z).
Proof. unfold Z.div, Z.modulo. now destruct (Z.div_eucl a b). Qed.

Lemma SFdiv_core_one m e :
  bounded prec emax m e = true ->
  SFdiv_core_binary prec emax (Z.pos m) e 4503599627370496 (-52) =
  if (e =? -1074)%Z then (Z.pos m, e, loc_Exact)
  else (Z.pos m~0, (e - 1)%Z, loc_Exact).
Proof.
  unfold bounded, canonical_mantissa. rewrite fexp64.
  intros [Hc He]%andb_prop. apply Z.eqb_eq in Hc. apply Z.leb_le in He.
  unfold SFdiv_core_binary.
  change (Zdigits2 (Z.pos m)) with (Z.pos (digits2_pos m)).
  change (Zdigits2 4503599627370496) with 53%Z.
  rewrite fexp64.
  destruct (Z.eqb_spec e (-1074)) as [E|E].
  - replace (Z.min _ _) with e by lia.
    replace (e - -52 - e)%Z with 52%Z by lia.
    rewrite div_eucl_pair, Z.shiftl_mul_pow2 by lia.
    change (2 ^ 52)%Z with 4503599627370496%Z.
    rewrite Z.div_mul, Z.mod_mul by lia. reflexivity.
  - replace (Z.min _ _) with (e - 1)%Z by lia.
    replace (e - -52 - (e - 1))%Z with 53%Z by lia.
    rewrite div_eucl_pair, Z.shiftl_mul_pow2 by lia.
    change (2 ^ 53)%Z with (2 * 4503599627370496)%Z.
    rewrite Z.mul_assoc, Z.div_mul, Z.mod_mul by lia.
    rewrite (Z.mul_comm _ 2). reflexivity.
Qed.

Lemma binary_round_aux_exact s m e :
  bounded prec emax m e = true ->
  binary_round_aux prec emax s (Z.pos m) e loc_Exact = S754_finite s m e.
Proof.
  unfold bounded, canonical_mantissa. rewrite fexp64.
  intros [Hc He]%andb_prop. apply Z.eqb_eq in Hc.
  unfold binary_round_aux, shr_fexp.
  change (Zdigits2 (Z.pos m)) with (Z.pos (digits2_pos m)).
  rewrite fexp64, Hc, Z.sub_diag.
  simpl. rewrite fexp64, Hc, Z.sub_diag. simpl. now rewrite He.
Qed.

Lemma binary_round_aux_double s m e :
  bounded prec emax m e = true -> e <> (-1074)%Z ->
  binary_round_aux prec emax s (Z.pos m~0) (e - 1) loc_Exact = S754_finite s m e.
Proof.
  unfold bounded, canonical_mantissa. rewrite fexp64.
  intros [Hc He]%andb_prop Hn. apply Z.eqb_eq in Hc.
  unfold binary_round_aux, shr_fexp.
  change (Zdigits2 (Z.pos m~0)) with (Z.pos (Pos.succ (digits2_pos m))).
  rewrite fexp64.
  replace (Z.max _ _ - (e - 1))%Z with 1%Z by lia.
  simpl. replace (e - 1 + 1)%Z with e by lia.
  rewrite fexp64, Hc, Z.sub_diag. simpl. now rewrite He.
Qed.

(** Dividing by one is exact. *)
Lemma div_1_r x : x / 1 = x.
Proof.
  apply Prim2SF_inj. rewrite div_spec.
  change (Prim2SF 1) with (S754_finite false 4503599627370496 (-52)).
  pose proof (Prim2SF_valid x) as V.
  destruct (Prim2SF x) as [[]|[]| |s m e]; try reflexivity.
  simpl in V. unfold SF64div, SFdiv. rewrite SFdiv_core_one by assumption.
  rewrite xorb_false_r.
  destruct (Z.eqb_spec e (-1074)).
  - now apply binary_round_aux_exact.
  - now apply binary_round_aux_double.
Qed.

(** ** The square of a difference does not depend on the order *)

Lemma binary_round_aux_opp s m e l :
  binary_round_aux prec emax (negb s) m e l
  = SFopp (binary_round_aux prec emax s m e l).
Proof.
  unfold binary_round_aux.
  destruct (shr_fexp prec emax m e l) as [mrs' e'].
  destruct (shr_fexp prec emax _ e' loc_Exact) as [mrs'' e''].
  destruct (shr_m mrs''); try reflexivity.
  destruct (e'' <=? emax - prec)%Z; reflexivity.
Qed.

Lemma binary_normalize_opp m e :
  m <> 0%Z ->
  binary_normalize prec emax (- m) e false
  = SFopp (binary_normalize prec emax m e false).
Proof.
  destruct m as [|p|p]; [congruence| |]; intros _; simpl; unfold binary_round;
    destruct (shl_align _ _ _) as [mz ez].
  - apply (binary_round_aux_opp false).
  - apply (binary_round_aux_opp true).
Qed.

Lemma SFsub_swap x y :
  SF64sub y x = SFopp (SF64sub x y) \/
  (is_szero (SF64sub x y) = true /\ is_szero (SF64sub y x) = true).
Proof.
  destruct x as [[]|[]| |sx mx ex], y as [[]|[]| |sy my ey]; simpl; auto;
    try (destruct sx; simpl; auto; fail); try (destruct sy; simpl; auto; fail).
  unfold SF64sub, SFsub. rewrite (Z.min_comm ey ex).
  set (a := cond_Zopp sx _). set (b := cond_Zopp sy _).
  destruct (Z.eq_dec (a - b)%Z 0%Z) as [E|E].
  - right. replace (b - a)%Z with 0%Z by lia. rewrite E. auto.
  - left. replace (b - a)%Z with (- (a - b))%Z by lia. now apply binary_normalize_opp.
Qed.

Lemma SFmul_opp_sq z : SF64mul (SFopp z) (SFopp z) = SF64mul z z.
Proof. destruct z as [[]|[]| |[] m e]; reflexivity. Qed.

Lemma SFmul_zero_sq z : is_szero z = true -> SF64mul z z = S754_zero false.
Proof. destruct z as [[]|[]| |[] m e]; try discriminate; reflexivity. Qed.

Lemma sq_sub_swap x y : (x - y) * (x - y) = (y - x) * (y - x).
Proof.
  apply Prim2SF_inj. rewrite !mul_spec, !sub_spec.
  destruct (SFsub_swap (Prim2SF x) (Prim2SF y)) as [-> | [H1 H2]].
  - now rewrite SFmul_opp_sq.
  - now rewrite !SFmul_zero_sq.
Qed.

(** ** Signs of results *)

Lemma sqrt_not_neg x : (sqrt x <? 0) = false.
Proof.
  to_spec. rewrite sqrt_spec. change (Prim2SF 0) with (S754_zero false).
  destruct (Prim2SF x) as [[]|[]| |[] m e]; try reflexivity.
  unfold SF64sqrt, SFsqrt.
  destruct (SFsqrt_core_binary prec emax (Z.pos m) e) as [[mz ez] lz].
  unfold binary_round_aux.
  destruct (shr_fexp prec emax mz ez lz) as [mrs' e'].
  destruct (shr_fexp prec emax _ e' loc_Exact) as [mrs'' e''].
  destruct (shr_m mrs''); try reflexivity.
  destruct (e'' <=? emax - prec)%Z; reflexivity.
Qed.

Lemma shr_1_nonneg mrs : (0 <= shr_m mrs)%Z -> (0 <= shr_m (shr_1 mrs))%Z.
Proof. destruct mrs as [[|[p|p|]|[p|p|]] r s]; simpl; lia. Qed.

Lemma iter_shr_1_nonneg p : forall mrs,
  (0 <= shr_m mrs)%Z -> (0 <= shr_m (SpecFloat.iter_pos shr_1 p mrs))%Z.
Proof.
  induction p as [p IH|p IH|]; intros mrs H; simpl.
  - apply IH, IH, shr_1_nonneg, H.
  - apply IH, IH, H.
  - apply shr_1_nonneg, H.
Qed.

Lemma shr_fexp_nonneg m e l :
  (0 <= m)%Z -> (0 <= shr_m (fst (shr_fexp prec emax m e l)))%Z.
Proof.
  intros H. unfold shr_fexp, shr.
  assert (H0 : (0 <= shr_m (shr_record_of_loc m l))%Z)
    by (destruct l as [|[]]; exact H).
  destruct (_ - e)%Z; simpl; auto using iter_shr_1_nonneg.
Qed.

Lemma round_nearest_even_nonneg m l :
  (0 <= m)%Z -> (0 <= round_nearest_even m l)%Z.
Proof. destruct l as [|[]]; simpl; try destruct (Z.even m); lia. Qed.

(** Rounding a non-negative mantissa gives a number that carries the sign
    asked for; it is never [NaN]. *)
Lemma binary_round_aux_signed s m e l :
  (0 <= m)%Z -> signed s (binary_round_aux prec emax s m e l) = true.
Proof.
  intros H. unfold binary_round_aux.
  pose proof (shr_fexp_nonneg m e l H) as H1.
  destruct (shr_fexp prec emax m e l) as [mrs' e']. simpl in H1.
  pose proof (shr_fexp_nonneg _ e' loc_Exact
                (round_nearest_even_nonneg _ (loc_of_shr_record mrs') H1)) as H2.
  destruct (shr_fexp prec emax _ e' loc_Exact) as [mrs'' e'']. simpl in H2.
  destruct (shr_m mrs''); try lia.
  - now destruct s.
  - destruct (e'' <=? emax - prec)%Z; now destruct s.
Qed.

Lemma binary_normalize_not_nan m e :
  binary_normalize prec emax m e false <> S754_nan.
Proof.
  destruct m as [|p|p]; simpl; try discriminate; unfold binary_round;
    destruct (shl_align _ _ _) as [mz ez]; intros E.
  - pose proof (binary_round_aux_signed false (Z.pos mz) ez loc_Exact) as H.
    rewrite E in H. discriminate H. lia.
  - pose proof (binary_round_aux_signed true (Z.pos mz) ez loc_Exact) as H.
    rewrite E in H. discriminate H. lia.
Qed.

(** The difference of two numbers that are neither [NaN] nor infinite is
    not [NaN]. *)
Lemma sub_not_nan x y :
  is_nan x = false -> is_infinity x = false ->
  is_nan y = false -> is_infinity y = false ->
  is_nan (x - y) = false.
Proof.
  rewrite !is_nan_spec, !is_infinity_spec, sub_spec.
  destruct (Prim2SF x) as [[]|[]| |sx mx ex], (Prim2SF y) as [[]|[]| |sy my ey];
    try discriminate; try reflexivity; intros _ _ _ _.
  unfold SF64sub, SFsub.
  pose proof (binary_normalize_not_nan
    (cond_Zopp sx (Z.pos (fst (shl_align mx ex (Z.min ex ey))))
     - cond_Zopp sy (Z.pos (fst (shl_align my ey (Z.min ex ey)))))%Z
    (Z.min ex ey)) as H.
  destruct (binary_normalize _ _ _ _ _); congruence.
Qed.

Lemma square_signed d :
  is_nan d = false -> signed false (Prim2SF (d * d)) = true.
Proof.
  rewrite is_nan_spec, mul_spec.
  destruct (Prim2SF d) as [[]|[]| |s m e]; try discriminate; try reflexivity.
  intros _. unfold SF64mul, SFmul. rewrite xorb_nilpotent.
  now apply binary_round_aux_signed.
Qed.

Lemma add_signed x y :
  signed false (Prim2SF x) = true -> signed false (Prim2SF y) = true ->
  signed false (Prim2SF (x + y)) = true.
Proof.
  rewrite add_spec.
  destruct (Prim2SF x) as [[]|[]| |[] mx ex], (Prim2SF y) as [[]|[]| |[] my ey];
    try discriminate; try reflexivity; intros _ _.
  unfold SF64add, SFadd, cond_Zopp, binary_normalize.
  change (Z.pos ?a + Z.pos ?b)%Z with (Z.pos (a + b)). unfold binary_round.
  destruct (shl_align _ _ _) as [mz ez].
  now apply binary_round_aux_signed.
Qed.

Lemma sqrt_signed x :
  signed false (Prim2SF x) = true -> signed false (Prim2SF (sqrt x)) = true.
Proof.
  rewrite sqrt_spec.
  destruct (Prim2SF x) as [[]|[]| |[] m e]; try discriminate; try reflexivity.
  intros _. unfold SF64sqrt, SFsqrt, SFsqrt_core_binary.
  set (m' := match _ with Z.pos _ => _ | Z0 => _ | Z.neg _ => _ end).
  assert (Hm : (0 <= m')%Z).
  { subst m'. destruct (_ - _)%Z; try lia. now apply Z.shiftl_nonneg. }
  pose proof (Z.sqrtrem_spec m' Hm) as Hs.
  destruct (Z.sqrtrem m') as [q r].
  apply binary_round_aux_signed. lia.
Qed.

(** A number that carries the sign [+] is at least zero. *)
Lemma signed_leb x : signed false (Prim2SF x) = true -> (0 <=? x) = true.
Proof.
  to_spec. change (Prim2SF 0) with (S754_zero false).
  destruct (Prim2SF x) as [[]|[]| |[] m e]; try discriminate; reflexivity.
Qed.

End FloatFacts.

(** * The distance metric *)

Section Distance.
Local Open Scope float_scope.

Lemma fold_left_ext_float {A} (f g : float -> A -> float) l : forall acc,
  (forall s i, f s i = g s i) -> fold_left f l acc = fold_left g l acc.
Proof.
  induction l as [|i l IH]; intros acc H; simpl; [reflexivity|].
  rewrite H. now apply IH.
Qed.

Lemma fold_sq_diff (g h : nat -> float) l : forall acc,
  fold_left (fun s i => let d := g i - h i in s + d * d) l acc
  = fold_left PrimFloat.add (zip_with sq_diff (map g l) (map h l)) acc.
Proof. induction l as [|i l IH]; intros acc; simpl; [reflexivity|apply IH]. Qed.

Lemma euclidean_refines a b : euclidean a b = euclid_spec a b.
Proof.
  unfold euclidean, euclid_spec, zero_fill. f_equal.
  apply (fold_sq_diff (fun i => or_else (a !! i) 0) (fun i => or_else (b !! i) 0)).
Qed.

Lemma euclidean_sym a b : euclidean a b = euclidean b a.
Proof.
  unfold euclidean. rewrite (Nat.max_comm (length a)). f_equal.
  apply fold_left_ext_float. intros s i. simpl. f_equal. apply FloatFacts.sq_sub_swap.
Qed.

Lemma euclidean_not_negative a b : (euclidean a b <? 0) = false.
Proof. apply FloatFacts.sqrt_not_neg. Qed.

Lemma or_else_zero_cases v :
  or_else v 0 = 0 \/ (is_nan (or_else v 0) = false /\ is_zero (or_else v 0) = false).
Proof.
  destruct v as [x|]; unfold or_else, falsy; [|now left].
  destruct (is_nan x) eqn:En; [now left|].
  destruct (is_zero x) eqn:Ez; [now left|]. right. cbn [orb]. now split.
Qed.

Lemma or_else_not_nan v : is_nan (or_else v 0) = false.
Proof. destruct (or_else_zero_cases v) as [-> | [H _]]; [reflexivity|exact H]. Qed.

Lemma or_else_no_infinity (v : vector) i :
  no_infinity v -> is_infinity (or_else (v !! i) 0) = false.
Proof.
  intros H. destruct (v !! i) as [x|] eqn:E; unfold or_else; [|reflexivity].
  destruct (falsy x); [reflexivity|].
  unfold no_infinity in H. rewrite Forall_lookup in H. exact (H i x E).
Qed.

Lemma fold_signed (g h : nat -> float) l :
  (forall i, is_nan (g i - h i) = false) ->
  forall acc, signed false (Prim2SF acc) = true ->
  signed false
    (Prim2SF (fold_left (fun s i => let d := g i - h i in s + d * d) l acc)) = true.
Proof.
  intros Hd. induction l as [|i l IH]; intros acc Hacc; simpl; [exact Hacc|].
  apply IH. apply FloatFacts.add_signed; [exact Hacc|].
  apply FloatFacts.square_signed, Hd.
Qed.

Lemma euclidean_at_least_zero a b :
  no_infinity a -> no_infinity b -> (0 <=? euclidean a b) = true.
Proof.
  intros Ha Hb. apply FloatFacts.signed_leb, FloatFacts.sqrt_signed.
  apply (fold_signed (fun i => or_else (a !! i) 0) (fun i => or_else (b !! i) 0));
    [|reflexivity].
  intros i. apply FloatFacts.sub_not_nan;
    auto using or_else_not_nan, or_else_no_infinity.
Qed.

Lemma fold_zero (g : nat -> float) l :
  (forall i, g i - g i = 0) ->
  fold_left (fun s i => let d := g i - g i in s + d * d) l 0 = 0.
Proof.
  intros Hd. induction l as [|i l IH]; simpl; [reflexivity|].
  rewrite Hd. exact IH.
Qed.

Lemma euclidean_self a : no_infinity a -> euclidean a a = 0.
Proof.
  intros Ha. unfold euclidean.
  rewrite (fold_zero (fun i => or_else (a !! i) 0)); [reflexivity|].
  intros i. apply FloatFacts.sub_diag;
    auto using or_else_not_nan, or_else_no_infinity.
Qed.

End Distance.

(** * The scaler *)

Section ScalerFacts.
Local Open Scope float_scope.

Lemma clamp_std_safe s :
  isFinite (clamp_std s) = true /\ is_zero (clamp_std s) = false.
Proof.
  unfold clamp_std.
  destruct (negb (isFinite s) || (s <=? 0x1.5798ee2308c3ap-27)) eqn:E.
  - split; reflexivity.
  - apply orb_false_elim in E as [Hf Hle]. apply negb_false_iff in Hf.
    split; [exact Hf|].
    destruct (is_zero s) eqn:Ez; [|reflexivity].
    rewrite (FloatFacts.zero_leb_pos s _ Ez) in Hle; [discriminate|reflexivity].
Qed.

Lemma clamp_std_degenerate s :
  isFinite s = false \/ (s <=? 0x1.5798ee2308c3ap-27) = true -> clamp_std s = 1.
Proof.
  unfold clamp_std. intros [-> | ->]; [reflexivity|].
  now rewrite orb_true_r.
Qed.

Lemma is_nan_eq x : is_nan x = true -> x = nan.
Proof.
  rewrite FloatFacts.is_nan_spec. intros H. apply Prim2SF_inj.
  change (Prim2SF nan) with S754_nan.
  destruct (Prim2SF x); try discriminate; reflexivity.
Qed.

Lemma column_mean_single r j : column_mean [r] j = or_else (r !! j) 0.
Proof.
  unfold column_mean, column_sum. simpl. change (num 1) with 1.
  rewrite FloatFacts.div_1_r. apply FloatFacts.add_0_l.
  destruct (or_else_zero_cases (r !! j)) as [-> | [_ H]]; auto.
Qed.

Lemma column_std_single r j : column_std [r] j = 1.
Proof.
  unfold column_std, column_dev. rewrite column_mean_single.
  unfold column_sq_dev. simpl. change (num 1) with 1.
  set (v := or_else (r !! j) 0).
  destruct (is_infinity v) eqn:Ei.
  - rewrite (is_nan_eq _ (FloatFacts.sub_diag_infinity v Ei)). reflexivity.
  - rewrite FloatFacts.sub_diag; [reflexivity|apply or_else_not_nan|exact Ei].
Qed.

Lemma add_nan_r s : s + nan = nan.
Proof.
  apply Prim2SF_inj. rewrite add_spec. change (Prim2SF nan) with S754_nan.
  destruct (Prim2SF s) as [[]|[]| |[] m e]; reflexivity.
Qed.

Lemma sq_dev_constant (X : matrix) j v :
  constant_column X j v ->
  column_sq_dev X j v
  = fold_left (fun s (_ : vector) => s + (v - v) * (v - v)) X 0.
Proof.
  unfold column_sq_dev. intros H.
  enough (Hacc : forall acc,
            fold_left (fun s row => let d := or_else (row !! j) 0 - v in s + d * d)
                      X acc
            = fold_left (fun s (_ : vector) => s + (v - v) * (v - v)) X acc)
    by apply Hacc.
  induction X as [|r X IH]; intros acc; [reflexivity|]. simpl.
  rewrite (H r (or_introl eq_refl)). apply IH.
  intros r' Hr'. apply H. now right.
Qed.

Lemma fold_zero_squares (X : matrix) :
  fold_left (fun s (_ : vector) => s + 0 * 0) X 0 = 0.
Proof. induction X as [|r X IH]; [reflexivity|exact IH]. Qed.

Lemma fold_nan_squares (X : matrix) :
  fold_left (fun s (_ : vector) => s + nan * nan) X nan = nan.
Proof. induction X as [|r X IH]; [reflexivity|exact IH]. Qed.

(** The root of a quotient of zero is a zero or [NaN], which the guard
    turns into [1]. *)
Lemma clamp_root_of_zero x : clamp_std (sqrt (0 / x)) = 1.
Proof.
  assert (H : sqrt (0 / x) = 0 \/ sqrt (0 / x) = neg_zero \/ sqrt (0 / x) = nan).
  { assert (H : Prim2SF (sqrt (0 / x)) = S754_zero false
                \/ Prim2SF (sqrt (0 / x)) = S754_zero true
                \/ Prim2SF (sqrt (0 / x)) = S754_nan).
    { rewrite sqrt_spec, div_spec. change (Prim2SF 0) with (S754_zero false).
      destruct (Prim2SF x) as [[]|[]| |[] m e]; simpl; auto. }
    destruct H as [H|[H|H]]; [left|right; left|right; right];
      apply Prim2SF_inj; rewrite H; reflexivity. }
  destruct H as [-> |[-> | ->]]; reflexivity.
Qed.

Lemma clamp_root_of_nan x : clamp_std (sqrt (nan / x)) = 1.
Proof.
  assert (H : sqrt (nan / x) = nan).
  { apply Prim2SF_inj. rewrite sqrt_spec, div_spec.
    change (Prim2SF nan) with S754_nan.
    destruct (Prim2SF x) as [[]|[]| |[] m e]; reflexivity. }
  now rewrite H.
Qed.

(** A constant column whose mean comes out as its value has a deviation of
    zero (of [NaN], for an infinite value). *)
Lemma constant_exact_std (r0 : vector) (rest : matrix) j v :
  constant_column (r0 :: rest) j v -> column_mean (r0 :: rest) j = v ->
  column_std (r0 :: rest) j = 1.
Proof.
  intros Hc Hm. unfold column_std, column_dev. rewrite Hm.
  rewrite (sq_dev_constant (r0 :: rest) j v Hc).
  assert (Hnan : is_nan v = false).
  { rewrite <- (Hc r0 (or_introl eq_refl)). apply or_else_not_nan. }
  destruct (is_infinity v) eqn:Ei.
  - rewrite (is_nan_eq _ (FloatFacts.sub_diag_infinity v Ei)).
    cbn [fold_left]. change (0 + nan * nan) with nan.
    rewrite fold_nan_squares. apply clamp_root_of_nan.
  - rewrite (FloatFacts.sub_diag v Hnan Ei), fold_zero_squares.
    apply clamp_root_of_zero.
Qed.

(** The guard looks at the computed deviation, not at the column: rounding
    in the mean of ten equal large values leaves a deviation far above the
    bound, which is kept. *)
Lemma constant_column_unclamped :
  exists s, std (computeScaler (Arr (repeat [0x1.999999999999ap96] 10))) = [s]
            /\ (0x1p40 <? s) = true.
Proof. eexists. split; vm_compute; reflexivity. Qed.

End ScalerFacts.

(** C7, as amended.  [euclidean a b] is the value, in double arithmetic, of
    the root of the sum of the squared differences over
    [max(len(a), len(b))] positions, a position that is missing or falsy in
    a vector read as [0].  That value is never negative; when neither vector
    holds an infinite entry it is at least zero (a number or [+Infinity],
    never [NaN]). *)
Theorem euclidean_distance (a b : vector) :
  euclidean a b = euclid_spec a b
  /\ (euclidean a b <? 0)%float = false
  /\ (no_infinity a -> no_infinity b -> (0 <=? euclidean a b)%float = true).
Proof.
  split; [apply euclidean_refines|].
  split; [apply euclidean_not_negative|apply euclidean_at_least_zero].
Qed.

(** The amended C7 at [[3; 4]] against the shorter [[0]]: the distance is [5]. *)
Lemma euclidean_distance_witness :
  euclidean [3; 4]%float [0%float] = 5%float
  /\ (0 <=? euclidean [3; 4]%float [0%float])%float = true.
Proof.
  split; [reflexivity|].
  apply (proj2 (proj2 (euclidean_distance [3; 4]%float [0%float])));
    repeat constructor.
Defined.

(** C7 as stated fails: with [Infinity] at the same position of both
    vectors the difference is [NaN], and so is the distance, which is then
    no non-negative real. *)
Lemma euclidean_infinite_entries :
  is_nan (euclidean [infinity] [infinity]) = true
  /\ nonneg_real (euclidean [infinity] [infinity]) = false.
Proof. split; reflexivity. Qed.

(** C8, as amended.  On a non-empty matrix every [std[j]] that
    [computeScaler] returns is finite and is not zero; a column whose
    computed deviation is not finite or is at most [1e-8] gets
    [std[j] = 1], and so does every constant column whose computed mean is
    the value it holds; on a matrix of one row every [std[j]] is [1]. *)
Theorem computeScaler_std_safe (row0 : vector) (rest : matrix) :
  let X := row0 :: rest in
  Forall (fun s => isFinite s = true /\ is_zero s = false)
         (std (computeScaler (Arr X)))
  /\ (forall j, j < length row0 ->
       isFinite (column_dev X j) = false
       \/ (column_dev X j <=? 0x1.5798ee2308c3ap-27)%float = true ->
       std (computeScaler (Arr X)) !! j = Some 1%float)
  /\ (forall j v, j < length row0 ->
       constant_column X j v -> column_mean X j = v ->
       std (computeScaler (Arr X)) !! j = Some 1%float)
  /\ std (computeScaler (Arr [row0])) = replicate (length row0) 1%float.
Proof.
  assert (Hstd : forall j, j < length row0 ->
            std (computeScaler (Arr (row0 :: rest))) !! j
            = Some (column_std (row0 :: rest) j)).
  { intros j Hj. simpl std.
    change (map ?f ?l) with (f <$> l). rewrite list_lookup_fmap.
    rewrite lookup_seq_lt by exact Hj. reflexivity. }
  cbv zeta. split; [|split; [|split]].
  - simpl. apply Forall_forall. intros s Hs.
    apply list_elem_of_In, in_map_iff in Hs as [j [<- _]].
    apply clamp_std_safe.
  - intros j Hj Hdeg. rewrite (Hstd j Hj).
    unfold column_std. now rewrite clamp_std_degenerate.
  - intros j v Hj Hc Hm. rewrite (Hstd j Hj).
    now rewrite (constant_exact_std row0 rest j v Hc Hm).
  - clear Hstd. simpl. generalize 0%nat at 1.
    induction (length row0) as [|m IH]; intros k; simpl; [reflexivity|].
    rewrite column_std_single. f_equal. apply IH.
Qed.

(** The amended C8 on a constant column of fives, whose mean is exact. *)
Lemma computeScaler_std_safe_witness :
  std (computeScaler (Arr fives)) !! 0 = Some 1%float.
Proof.
  apply (proj1 (proj2 (proj2 (computeScaler_std_safe [5; 1]%float [[5; 2]%float])))
           0 5%float).
  - simpl. lia.
  - intros r [<-|[<-|[]]]; reflexivity.
  - vm_compute. reflexivity.
Defined.

(** C8 as stated fails on ten rows that hold the double nearest to
    [1000000000.1]: the column has zero variance, the sum of the ten values
    is rounded, the mean differs from the value, and the deviation that
    comes out, about [1.26e-7], is above the bound and is kept. *)
Lemma constant_column_keeps_std : ~ std_as_stated near_billion.
Proof.
  intros H. destruct H as [_ H]; [discriminate|].
  specialize (H 0).
  assert (E : std (computeScaler (Arr near_billion)) !! 0
              = Some 0x1.0dd90273c3ce2p-23%float) by (vm_compute; reflexivity).
  rewrite E in H.
  assert (H1 : Some 0x1.0dd90273c3ce2p-23%float = Some 1%float).
  { apply H.
    - vm_compute. lia.
    - left. exists 0x1.dcd65000ccccdp+29%float.
      intros r Hr. apply repeat_spec in Hr. subst r. reflexivity. }
  apply (f_equal (fun o => match o with
                           | Some x => (x =? 1)%float
                           | None => false
                           end)) in H1.
  vm_compute in H1. discriminate H1.
Qed.

(** C9.  With a scaler that is absent or malformed, [applyScaler] returns the
    rows of [X] with their values unchanged; the operation is total, so
    nothing is thrown. *)
Theorem applyScaler_malformed (X : matrix) (scaler : scaler_value) :
  absent_or_malformed scaler ->
  applyScaler X scaler = X
  /\ forall r, applyScalerToRow r scaler = r.
Proof.
  intros H.
  assert (Hm : malformed scaler = true).
  { destruct H as [->|(m & s & -> & [->| ->])]; [reflexivity|reflexivity|].
    simpl. apply orb_true_r. }
  assert (Hr : forall r, applyScalerToRow r scaler = r)
    by (intros r; unfold applyScalerToRow; now rewrite Hm).
  split; [|exact Hr]. unfold applyScaler.
  induction X as [|r X IH]; simpl; [reflexivity|now rewrite Hr, IH].
Qed.

(** C9 at a scaler object whose [std] is not an array. *)
Lemma applyScaler_malformed_witness :
  applyScaler scenario (SObject (Some [1%float]) None) = scenario.
Proof.
  apply (applyScaler_malformed scenario (SObject (Some [1%float]) None)).
  right. exists (Some [1%float]), None. auto.
Defined.

(** * The walk: the stack and the arrays *)

Lemma push_new_In stack nb x : In x (push_new stack nb) <-> In x stack \/ x = nb.
Proof.
  unfold push_new. destruct (existsb (Nat.eqb nb) stack) eqn:E.
  - apply existsb_exists in E as [y [Hy ->%Nat.eqb_eq]].
    split; [auto|intros [H| ->]; auto].
  - rewrite in_app_iff. simpl.
    split; [intros [H|[->|[]]]; auto|intros [H| ->]; auto].
Qed.

Lemma push_new_NoDup stack nb : NoDup stack -> NoDup (push_new stack nb).
Proof.
  intros H. unfold push_new. destruct (existsb (Nat.eqb nb) stack) eqn:E; [exact H|].
  apply NoDup_app. split; [exact H|]. split; [|apply NoDup_singleton].
  intros x Hx ->%list_elem_of_singleton.
  apply list_elem_of_In in Hx.
  assert (existsb (Nat.eqb nb) stack = true); [|congruence].
  apply existsb_exists. exists nb. split; [exact Hx|apply Nat.eqb_refl].
Qed.

Lemma fold_push_In l : forall stack x,
  In x (fold_left push_new l stack) <-> In x stack \/ In x l.
Proof.
  induction l as [|nb l IH]; intros stack x; simpl; [tauto|].
  rewrite IH, push_new_In.
  split; [intros [[H| ->]|H]|intros [H|[->|H]]]; auto.
Qed.

Lemma fold_push_NoDup l : forall stack,
  NoDup stack -> NoDup (fold_left push_new l stack).
Proof.
  induction l as [|nb l IH]; intros stack H; simpl; [exact H|].
  apply IH, push_new_NoDup, H.
Qed.

Lemma unvisited_le vis : unvisited vis <= length vis.
Proof. apply List.filter_length_le. Qed.

Lemma unvisited_insert vis : forall j,
  vis !! j = Some false -> S (unvisited (<[j:=true]> vis)) = unvisited vis.
Proof.
  unfold unvisited. induction vis as [|b vis IH]; intros [|j] H; try discriminate.
  - injection H as ->. reflexivity.
  - simpl in *. destruct b; simpl; rewrite <- (IH j H); reflexivity.
Qed.

Lemma is_visited_true w j : is_visited w j = true <-> visited w !! j = Some true.
Proof.
  unfold is_visited. destruct (visited w !! j) as [[]|]; split; congruence.
Qed.

Lemma is_visited_false w j :
  j < length (visited w) -> is_visited w j = false -> visited w !! j = Some false.
Proof.
  unfold is_visited. intros Hj. apply lookup_lt_is_Some_2 in Hj as [b Hb].
  rewrite Hb. now intros ->.
Qed.

Lemma unlabelled_false w j :
  unlabelled w j = false <->
  exists c, labels w !! j = Some (Some c) /\ c <> (-1)%Z.
Proof.
  unfold unlabelled. destruct (labels w !! j) as [[c|]|].
  - rewrite Z.eqb_neq. split; [eauto|]. now intros [c' [[= <-] H]].
  - split; [discriminate|]. now intros [c' [[=] _]].
  - split; [discriminate|]. now intros [c' [[=] _]].
Qed.

(** * The walk: neighbourhoods *)

Section WalkFacts.
Variable n : nat.
Variable near : nat -> nat -> bool.
Variable minPts : Z.

Lemma regionQuery_spec i nb :
  In nb (regionQuery n near i) <-> nb < n /\ i <> nb /\ near i nb = true.
Proof.
  unfold regionQuery.
  rewrite filter_In, in_seq, andb_true_iff, negb_true_iff, Nat.eqb_neq.
  intuition lia.
Qed.

Lemma regionQuery_NoDup i : NoDup (regionQuery n near i).
Proof. apply NoDup_ListNoDup, List.NoDup_filter, seq_NoDup. Qed.

Lemma regionQuery_stack_ok i : stack_ok n (regionQuery n near i).
Proof.
  split; [apply regionQuery_NoDup|]. intros x Hx. now apply regionQuery_spec in Hx.
Qed.

Lemma sparse_dense l : sparse minPts l = negb (dense minPts l).
Proof.
  unfold sparse, dense.
  rewrite Z.geb_leb, Z.ltb_antisym. reflexivity.
Qed.

Lemma sparse_not_core j : sparse minPts (regionQuery n near j) = true -> core n near minPts j = false.
Proof.
  unfold core. rewrite sparse_dense.
  now intros ->%negb_true_iff.
Qed.

Lemma stack_ok_length stack : stack_ok n stack -> length stack <= n.
Proof.
  intros [Hnd Hlt].
  assert (H : length stack <= length (seq 0 n)); [|now rewrite length_seq in H].
  apply List.NoDup_incl_length; [now apply NoDup_ListNoDup|].
  intros x Hx. apply in_seq. specialize (Hlt x Hx). lia.
Qed.

Lemma stack_ok_tail j rest : stack_ok n (j :: rest) -> j < n /\ stack_ok n rest.
Proof.
  intros [Hnd Hlt]. split; [apply Hlt; now left|].
  split; [now apply NoDup_cons in Hnd|]. intros x Hx. apply Hlt. now right.
Qed.

Lemma stack_ok_push j rest :
  stack_ok n rest -> stack_ok n (fold_left push_new (regionQuery n near j) rest).
Proof.
  intros [Hnd Hlt]. split; [now apply fold_push_NoDup|].
  intros x [Hx|Hx]%fold_push_In; [now apply Hlt|].
  now apply regionQuery_spec in Hx.
Qed.

(** ** One turn of the [while] loop *)

Lemma expand_step_clusterId w j rest :
  clusterId (fst (expand_step n near minPts w j rest)) = clusterId w.
Proof. unfold expand_step. now destruct (negb (is_visited w j)). Qed.

Lemma expand_step_labels w j rest :
  labels (fst (expand_step n near minPts w j rest))
  = if unlabelled w j then <[j:=Some (clusterId w)]> (labels w) else labels w.
Proof. unfold expand_step. now destruct (negb (is_visited w j)). Qed.

Lemma expand_step_visited w j rest :
  visited (fst (expand_step n near minPts w j rest))
  = if is_visited w j then visited w else <[j:=true]> (visited w).
Proof. unfold expand_step. now destruct (is_visited w j). Qed.

Lemma expand_step_stack w j rest :
  snd (expand_step n near minPts w j rest)
  = if is_visited w j then rest
    else if dense minPts (regionQuery n near j)
         then fold_left push_new (regionQuery n near j) rest else rest.
Proof. unfold expand_step. now destruct (is_visited w j). Qed.

(** A label other than [-1] is not overwritten. *)
Lemma expand_step_keeps w j rest p c :
  labels w !! p = Some (Some c) -> c <> (-1)%Z ->
  labels (fst (expand_step n near minPts w j rest)) !! p = Some (Some c).
Proof.
  intros H Hc. rewrite expand_step_labels.
  destruct (unlabelled w j) eqn:U; [|exact H].
  destruct (decide (j = p)) as [->|Hne]; [|now rewrite list_lookup_insert_ne].
  unfold unlabelled in U. rewrite H in U. apply Z.eqb_eq in U. contradiction.
Qed.

Lemma expand_step_label_inv w j rest x c :
  labels (fst (expand_step n near minPts w j rest)) !! x = Some (Some c) ->
  labels w !! x = Some (Some c) \/ (x = j /\ c = clusterId w).
Proof.
  rewrite expand_step_labels. destruct (unlabelled w j); [|auto].
  intros [(-> & [= <-] & _)|[_ H]]%list_lookup_insert_Some; auto.
Qed.

Lemma expand_step_label_other w j rest x :
  x <> j ->
  labels (fst (expand_step n near minPts w j rest)) !! x = labels w !! x.
Proof.
  intros H. rewrite expand_step_labels. destruct (unlabelled w j); [|reflexivity].
  now rewrite list_lookup_insert_ne.
Qed.

Lemma expand_step_is_visited w j rest x :
  j < length (visited w) ->
  is_visited (fst (expand_step n near minPts w j rest)) x = true
  <-> is_visited w x = true \/ x = j.
Proof.
  intros Hj. rewrite !is_visited_true, expand_step_visited.
  destruct (is_visited w j) eqn:V.
  - apply is_visited_true in V. split; [auto|]. now intros [H| ->].
  - rewrite list_lookup_insert_Some. split.
    + intros [(-> & _ & _)|[_ H]]; auto.
    + intros [H| ->]; [|left; auto].
      destruct (decide (j = x)) as [->|Hne]; [left; auto|right; auto].
Qed.

Lemma expand_step_ok w j rest :
  walk_ok n near minPts w -> j < n ->
  walk_ok n near minPts (fst (expand_step n near minPts w j rest)).
Proof.
  intros [Hl Hv Hc Hlv Hvl Hn] Hj. split.
  - rewrite expand_step_labels. destruct (unlabelled w j); now rewrite ?length_insert.
  - rewrite expand_step_visited. destruct (is_visited w j); now rewrite ?length_insert.
  - now rewrite expand_step_clusterId.
  - intros x c H. apply expand_step_is_visited; [lia|].
    apply expand_step_label_inv in H as [H|[-> _]]; eauto.
  - intros x Hx. apply expand_step_is_visited in Hx; [|lia].
    destruct Hx as [H| ->].
    + destruct (Hvl x H) as [c Hx].
      destruct (decide (x = j)) as [->|Hne];
        [|exists c; now rewrite expand_step_label_other].
      rewrite expand_step_labels. destruct (unlabelled w j); [|eauto].
      rewrite list_lookup_insert_eq by lia. eauto.
    + rewrite expand_step_labels. destruct (unlabelled w j) eqn:U.
      * rewrite list_lookup_insert_eq by lia. eauto.
      * apply unlabelled_false in U as [c [H _]]. eauto.
  - intros x H. apply expand_step_label_inv in H as [H|[-> E]]; [auto|lia].
Qed.

Lemma expand_step_stack_ok w j rest :
  stack_ok n (j :: rest) -> stack_ok n (snd (expand_step n near minPts w j rest)).
Proof.
  intros [_ H]%stack_ok_tail. rewrite expand_step_stack.
  destruct (is_visited w j); [exact H|].
  destruct (dense minPts _); [now apply stack_ok_push|exact H].
Qed.

Lemma expand_step_measure w j rest :
  walk_ok n near minPts w -> stack_ok n (j :: rest) ->
  expand_measure n (fst (expand_step n near minPts w j rest))
                 (snd (expand_step n near minPts w j rest))
  < expand_measure n w (j :: rest).
Proof.
  intros Hok Hst. pose proof (expand_step_stack_ok w j rest Hst) as Hst'.
  apply stack_ok_length in Hst'. apply stack_ok_tail in Hst as [Hj _].
  unfold expand_measure. rewrite expand_step_visited.
  revert Hst'. rewrite expand_step_stack.
  destruct (is_visited w j) eqn:V; simpl; [lia|]. intros Hlen.
  rewrite <- (unvisited_insert (visited w) j).
  - simpl. lia.
  - apply is_visited_false; [|exact V]. now rewrite (ok_visited _ _ _ _ Hok).
Qed.

(** ** The [while] loop *)

(** What every turn preserves holds when the loop stops. *)
Lemma expand_invariant (P : walk -> list nat -> Prop) :
  (forall w j rest, P w (j :: rest) ->
     P (fst (expand_step n near minPts w j rest))
       (snd (expand_step n near minPts w j rest))) ->
  forall fuel w stack, P w stack ->
    P (fst (expand n near minPts fuel w stack))
      (snd (expand n near minPts fuel w stack)).
Proof.
  intros Hstep. induction fuel as [|fuel IH]; intros w stack H; simpl; [exact H|].
  destruct stack as [|j rest]; [exact H|].
  specialize (Hstep w j rest H).
  destruct (expand_step n near minPts w j rest) as [w' stack']. now apply IH.
Qed.

Lemma expand_ok fuel w stack :
  walk_ok n near minPts w -> stack_ok n stack ->
  walk_ok n near minPts (fst (expand n near minPts fuel w stack)).
Proof.
  intros Hw Hs.
  apply (expand_invariant (fun w s => walk_ok n near minPts w /\ stack_ok n s));
    [|now split].
  intros w0 j rest [H1 H2]. split.
  - apply expand_step_ok; [exact H1|]. now apply stack_ok_tail in H2.
  - now apply expand_step_stack_ok.
Qed.

Lemma expand_clusterId fuel w stack :
  clusterId (fst (expand n near minPts fuel w stack)) = clusterId w.
Proof.
  apply (expand_invariant (fun w' _ => clusterId w' = clusterId w)); [|reflexivity].
  intros w0 j rest H. now rewrite expand_step_clusterId.
Qed.

Lemma expand_keeps fuel w stack p c :
  labels w !! p = Some (Some c) -> c <> (-1)%Z ->
  labels (fst (expand n near minPts fuel w stack)) !! p = Some (Some c).
Proof.
  intros H Hc.
  apply (expand_invariant (fun w' _ => labels w' !! p = Some (Some c))); [|exact H].
  intros w0 j rest H0. now apply expand_step_keeps.
Qed.

Lemma expand_visited_mono fuel w stack x :
  is_visited w x = true ->
  is_visited (fst (expand n near minPts fuel w stack)) x = true.
Proof.
  apply (expand_invariant (fun w' _ => is_visited w' x = true)).
  intros w0 j rest H. rewrite is_visited_true in *. rewrite expand_step_visited.
  destruct (is_visited w0 j); [exact H|].
  destruct (decide (j = x)) as [->|Hne]; [|now rewrite list_lookup_insert_ne].
  apply list_lookup_insert_eq. now apply lookup_lt_Some in H.
Qed.

(** The loop ends because its stack is empty, not because the bound on its
    turns is reached. *)
Lemma expand_exhausts fuel : forall w stack,
  walk_ok n near minPts w -> stack_ok n stack ->
  expand_measure n w stack <= fuel ->
  snd (expand n near minPts fuel w stack) = [].
Proof.
  induction fuel as [|fuel IH]; intros w stack Hw Hs Hm; simpl.
  - destruct stack; [reflexivity|]. unfold expand_measure in Hm. simpl in Hm. lia.
  - destruct stack as [|j rest]; [reflexivity|].
    pose proof (expand_step_measure w j rest Hw Hs) as Hlt.
    pose proof (expand_step_stack_ok w j rest Hs) as Hs'.
    pose proof (expand_step_ok w j rest Hw (proj1 (stack_ok_tail j rest Hs))) as Hw'.
    destruct (expand_step n near minPts w j rest) as [w' stack']. simpl in *.
    apply IH; [exact Hw'|exact Hs'|lia].
Qed.

Lemma walk_fuel_enough w stack :
  walk_ok n near minPts w -> stack_ok n stack ->
  expand_measure n w stack <= walk_fuel n.
Proof.
  intros Hw Hs. unfold expand_measure, walk_fuel.
  pose proof (unvisited_le (visited w)) as Hu.
  rewrite (ok_visited _ _ _ _ Hw) in Hu.
  apply stack_ok_length in Hs. nia.
Qed.

(** Any bound that is large enough gives the same result: the result is
    that of the unbounded loop. *)
Lemma expand_fuel_irrelevant fuel : forall fuel' w stack,
  walk_ok n near minPts w -> stack_ok n stack ->
  expand_measure n w stack <= fuel -> expand_measure n w stack <= fuel' ->
  expand n near minPts fuel w stack = expand n near minPts fuel' w stack.
Proof.
  induction fuel as [|fuel IH]; intros fuel' w stack Hw Hs Hm Hm'.
  - destruct stack; [now destruct fuel'|].
    unfold expand_measure in Hm. simpl in Hm. lia.
  - destruct stack as [|j rest]; [now destruct fuel'|].
    destruct fuel' as [|fuel'];
      [unfold expand_measure in Hm'; simpl in Hm'; lia|].
    simpl.
    pose proof (expand_step_measure w j rest Hw Hs) as Hlt.
    pose proof (expand_step_stack_ok w j rest Hs) as Hs'.
    pose proof (expand_step_ok w j rest Hw (proj1 (stack_ok_tail j rest Hs))) as Hw'.
    destruct (expand_step n near minPts w j rest) as [w' stack']. simpl in *.
    apply IH; [exact Hw'|exact Hs'|lia|lia].
Qed.

Lemma expand_step_ids w j rest k :
  ids_upto k w -> (0 <= clusterId w < k)%Z ->
  ids_upto k (fst (expand_step n near minPts w j rest)).
Proof.
  intros [Hdom Hall] Hk. split.
  - intros x c [H|[_ ->]]%expand_step_label_inv; [eauto|right; lia].
  - intros c Hc. destruct (Hall c Hc) as [j0 H]. exists j0.
    apply expand_step_keeps; [exact H|lia].
Qed.

Lemma expand_ids fuel w stack k :
  ids_upto k w -> (0 <= clusterId w < k)%Z ->
  ids_upto k (fst (expand n near minPts fuel w stack)).
Proof.
  intros H Hk.
  apply (expand_invariant
           (fun w' _ => ids_upto k w' /\ clusterId w' = clusterId w)); [|now split].
  intros w0 j rest [H0 E]. split; [|now rewrite expand_step_clusterId].
  apply expand_step_ids; [exact H0|now rewrite E].
Qed.

(** ** One turn of the outer loop *)

Lemma visit_unfold w i :
  visit n near minPts w i
  = if is_visited w i then w
    else if sparse minPts (regionQuery n near i) then mark w i (-1)
    else next_cluster
           (fst (expand n near minPts (walk_fuel n) (mark w i (clusterId w))
                        (regionQuery n near i))).
Proof. reflexivity. Qed.

Lemma mark_is_visited w i c x :
  i < length (visited w) ->
  is_visited (mark w i c) x = true <-> is_visited w x = true \/ x = i.
Proof.
  intros Hi. rewrite !is_visited_true. unfold mark. simpl.
  rewrite list_lookup_insert_Some. split.
  - intros [(-> & _ & _)|[_ H]]; auto.
  - intros [H| ->]; [|left; auto].
    destruct (decide (i = x)) as [->|Hne]; [left; auto|right; auto].
Qed.

Lemma mark_ok w i c :
  walk_ok n near minPts w -> i < n ->
  (c = (-1)%Z -> sparse minPts (regionQuery n near i) = true) ->
  walk_ok n near minPts (mark w i c).
Proof.
  intros [Hl Hv Hc Hlv Hvl Hn] Hi Hsp. split; simpl.
  - now rewrite length_insert.
  - now rewrite length_insert.
  - exact Hc.
  - intros x c' H. apply mark_is_visited; [lia|].
    apply list_lookup_insert_Some in H as [(-> & _ & _)|[_ H]]; eauto.
  - intros x Hx. apply mark_is_visited in Hx; [|lia].
    destruct (decide (i = x)) as [->|Hne].
    + exists c. apply list_lookup_insert_eq. lia.
    + destruct Hx as [Hx| ->]; [|contradiction].
      destruct (Hvl x Hx) as [c' H]. exists c'. now rewrite list_lookup_insert_ne.
  - intros x H.
    apply list_lookup_insert_Some in H as [(-> & [= ->] & _)|[_ H]]; auto.
Qed.

Lemma next_cluster_ok w :
  walk_ok n near minPts w -> walk_ok n near minPts (next_cluster w).
Proof. intros [Hl Hv Hc Hlv Hvl Hn]. split; simpl; auto. lia. Qed.

Lemma visit_ok w i :
  walk_ok n near minPts w -> i < n -> walk_ok n near minPts (visit n near minPts w i).
Proof.
  intros Hw Hi. rewrite visit_unfold.
  destruct (is_visited w i); [exact Hw|].
  destruct (sparse minPts (regionQuery n near i)) eqn:Sp.
  - now apply mark_ok.
  - apply next_cluster_ok, expand_ok; [|apply regionQuery_stack_ok].
    apply mark_ok; [exact Hw|exact Hi|]. pose proof (ok_clusterId _ _ _ _ Hw). lia.
Qed.

(** A point that is not visited yet carries no label, so marking it
    overwrites nothing. *)
Lemma mark_keeps w i c p c' :
  walk_ok n near minPts w -> is_visited w i = false ->
  labels w !! p = Some (Some c') -> labels (mark w i c) !! p = Some (Some c').
Proof.
  intros Hw V H. unfold mark. simpl.
  destruct (decide (i = p)) as [->|Hne]; [|now rewrite list_lookup_insert_ne].
  rewrite (ok_labelled_visited _ _ _ _ Hw p c' H) in V. discriminate.
Qed.

Lemma visit_keeps w i p c :
  walk_ok n near minPts w ->
  labels w !! p = Some (Some c) -> c <> (-1)%Z ->
  labels (visit n near minPts w i) !! p = Some (Some c).
Proof.
  intros Hw H Hc. rewrite visit_unfold.
  destruct (is_visited w i) eqn:V; [exact H|].
  destruct (sparse minPts (regionQuery n near i)).
  - now apply mark_keeps.
  - change (labels (next_cluster ?w)) with (labels w).
    apply expand_keeps; [|exact Hc]. now apply mark_keeps.
Qed.

Lemma mark_visited_mono w i c x :
  is_visited w x = true -> is_visited (mark w i c) x = true.
Proof.
  rewrite !is_visited_true. unfold mark. simpl. intros H.
  destruct (decide (i = x)) as [->|Hne]; [|now rewrite list_lookup_insert_ne].
  apply list_lookup_insert_eq. now apply lookup_lt_Some in H.
Qed.

Lemma visit_visited_mono w i x :
  is_visited w x = true -> is_visited (visit n near minPts w i) x = true.
Proof.
  intros H. rewrite visit_unfold.
  destruct (is_visited w i) eqn:V; [exact H|].
  destruct (sparse minPts (regionQuery n near i)).
  - now apply mark_visited_mono.
  - change (is_visited (next_cluster ?w) x) with (is_visited w x).
    now apply expand_visited_mono, mark_visited_mono.
Qed.

Lemma visit_visits w i :
  walk_ok n near minPts w -> i < n -> is_visited (visit n near minPts w i) i = true.
Proof.
  intros Hw Hi. rewrite visit_unfold.
  destruct (is_visited w i) eqn:V; [exact V|].
  assert (Hm : forall c, is_visited (mark w i c) i = true).
  { intros c. apply mark_is_visited; [|now right].
    now rewrite (ok_visited _ _ _ _ Hw). }
  destruct (sparse minPts (regionQuery n near i)); [apply Hm|].
  change (is_visited (next_cluster ?w) i) with (is_visited w i).
  apply expand_visited_mono, Hm.
Qed.

Lemma mark_ids w i c k :
  walk_ok n near minPts w -> is_visited w i = false ->
  ids_upto k w -> c = (-1)%Z \/ (0 <= c < k)%Z -> ids_upto k (mark w i c).
Proof.
  intros Hw V [Hdom Hall] Hc. split.
  - intros x c' H. unfold mark in H. simpl in H.
    apply list_lookup_insert_Some in H as [(-> & [= <-] & _)|[_ H]]; eauto.
  - intros c' Hc'. destruct (Hall c' Hc') as [j0 H]. exists j0.
    now apply mark_keeps.
Qed.

Lemma ids_upto_succ w i k :
  walk_ok n near minPts w -> is_visited w i = false -> i < n -> (0 <= k)%Z ->
  ids_upto k w -> ids_upto (k + 1) (mark w i k).
Proof.
  intros Hw V Hi Hk [Hdom Hall]. split.
  - intros x c' H. unfold mark in H. simpl in H.
    apply list_lookup_insert_Some in H as [(-> & [= <-] & _)|[_ H]]; [right; lia|].
    destruct (Hdom x c' H); [auto|right; lia].
  - intros c' Hc'. destruct (Z.eq_dec c' k) as [->|Hne].
    + exists i. unfold mark. simpl. apply list_lookup_insert_eq.
      now rewrite (ok_labels _ _ _ _ Hw).
    + destruct (Hall c') as [j0 H]; [lia|]. exists j0. now apply mark_keeps.
Qed.

Lemma visit_ids w i :
  walk_ok n near minPts w -> i < n -> ids_upto (clusterId w) w ->
  ids_upto (clusterId (visit n near minPts w i)) (visit n near minPts w i).
Proof.
  intros Hw Hi Hids. rewrite visit_unfold.
  destruct (is_visited w i) eqn:V; [exact Hids|].
  destruct (sparse minPts (regionQuery n near i)) eqn:Sp.
  - apply mark_ids; auto.
  - pose proof (ok_clusterId _ _ _ _ Hw) as Hc.
    set (w2 := fst (expand _ _ _ _ _ _)).
    change (ids_upto (clusterId w2 + 1) w2). subst w2.
    rewrite expand_clusterId.
    change (clusterId (mark w i (clusterId w))) with (clusterId w).
    apply expand_ids; [now apply ids_upto_succ|simpl; lia].
Qed.

(** ** The outer loop *)

Lemma walk_upto_S k :
  walk_upto n near minPts (S k)
  = visit n near minPts (walk_upto n near minPts k) k.
Proof. unfold walk_upto. now rewrite seq_S, fold_left_app. Qed.

Lemma walk_init_ok : walk_ok n near minPts (walk_init n).
Proof.
  split; simpl.
  - apply length_replicate.
  - apply length_replicate.
  - lia.
  - intros j c [[=] _]%lookup_replicate.
  - intros j [[=] _]%is_visited_true%lookup_replicate.
  - intros j [[=] _]%lookup_replicate.
Qed.

Lemma walk_init_ids : ids_upto 0 (walk_init n).
Proof.
  split.
  - intros j c [[=] _]%lookup_replicate.
  - intros c Hc. lia.
Qed.

Lemma walk_upto_inv k :
  k <= n ->
  walk_ok n near minPts (walk_upto n near minPts k)
  /\ ids_upto (clusterId (walk_upto n near minPts k)) (walk_upto n near minPts k)
  /\ forall i, i < k -> is_visited (walk_upto n near minPts k) i = true.
Proof.
  induction k as [|k IH]; intros Hk.
  - split; [apply walk_init_ok|]. split; [apply walk_init_ids|]. intros i Hi. lia.
  - destruct IH as (Hw & Hids & Hvis); [lia|]. rewrite walk_upto_S.
    split; [apply visit_ok; [exact Hw|lia]|].
    split; [apply visit_ids; [exact Hw|lia|exact Hids]|].
    intros i Hi. destruct (decide (i = k)) as [->|Hne].
    + apply visit_visits; [exact Hw|lia].
    + apply visit_visited_mono, Hvis. lia.
Qed.

Lemma walk_upto_keeps k' : forall k p c,
  k <= k' -> k' <= n ->
  labels (walk_upto n near minPts k) !! p = Some (Some c) -> c <> (-1)%Z ->
  labels (walk_upto n near minPts k') !! p = Some (Some c).
Proof.
  induction k' as [|k' IH]; intros k p c Hk Hn H Hc.
  - now replace k with 0 in H by lia.
  - destruct (decide (k = S k')) as [->|Hne]; [exact H|].
    rewrite walk_upto_S. apply visit_keeps; [|apply (IH k); auto; lia|exact Hc].
    apply walk_upto_inv. lia.
Qed.

(** Every expansion that the walk starts runs until its stack is empty. *)
Lemma visit_expansion_completes k i :
  k <= n -> i < n ->
  let w := walk_upto n near minPts k in
  snd (expand n near minPts (walk_fuel n) (mark w i (clusterId w))
              (regionQuery n near i)) = [].
Proof.
  intros Hk Hi w. destruct (walk_upto_inv k Hk) as (Hw & _ & _). fold w in Hw.
  assert (Hm : walk_ok n near minPts (mark w i (clusterId w))).
  { apply mark_ok; [exact Hw|exact Hi|]. pose proof (ok_clusterId _ _ _ _ Hw). lia. }
  apply expand_exhausts; [exact Hm|apply regionQuery_stack_ok|].
  apply walk_fuel_enough; [exact Hm|apply regionQuery_stack_ok].
Qed.

(** ** The labels the walk ends with *)

Lemma walk_all_labelled i :
  i < n ->
  exists c, labels (walk_all n near minPts) !! i = Some (Some c)
            /\ (c = (-1)%Z \/ (0 <= c < clusterId (walk_all n near minPts))%Z).
Proof.
  intros Hi. destruct (walk_upto_inv n (le_n n)) as (Hw & [Hdom _] & Hvis).
  destruct (ok_visited_labelled _ _ _ _ Hw i (Hvis i Hi)) as [c H].
  exists c. split; [exact H|]. exact (Hdom i c H).
Qed.

Lemma walk_all_length : length (labels (walk_all n near minPts)) = n.
Proof. apply (ok_labels _ _ _ _ (proj1 (walk_upto_inv n (le_n n)))). Qed.

Lemma walk_all_noise i :
  labels (walk_all n near minPts) !! i = Some (Some (-1)%Z) ->
  sparse minPts (regionQuery n near i) = true.
Proof. apply (ok_noise _ _ _ _ (proj1 (walk_upto_inv n (le_n n)))). Qed.

Lemma corePoints_of_spec i :
  In i (corePoints_of n near minPts) <-> i < n /\ core n near minPts i = true.
Proof. unfold corePoints_of. rewrite filter_In, in_seq. intuition lia. Qed.

Lemma walk_all_noise_not_core i :
  labels (walk_all n near minPts) !! i = Some (Some (-1)%Z) ->
  ~ In i (corePoints_of n near minPts).
Proof.
  intros H [_ Hc]%corePoints_of_spec.
  rewrite (sparse_not_core i (walk_all_noise i H)) in Hc. discriminate.
Qed.

End WalkFacts.

(** ** The cluster ids of a label array *)

Lemma cluster_ids_spec (ls : list label) (c : Z) :
  c ∈ cluster_ids ls <-> (0 <= c)%Z /\ exists j, ls !! j = Some (Some c).
Proof.
  unfold cluster_ids. rewrite elem_of_list_to_set, list_elem_of_omap. split.
  - intros [[c'|] [Hin H]]; [|discriminate].
    destruct (Z.leb_spec 0 c'); [|discriminate]. injection H as ->.
    split; [assumption|]. now apply list_elem_of_lookup in Hin.
  - intros [Hc [j H]]. exists (Some c). split.
    + apply list_elem_of_lookup. eauto.
    + destruct (Z.leb_spec 0 c); [reflexivity|lia].
Qed.

Lemma cluster_ids_size (ls : list label) (k : Z) :
  (0 <= k)%Z ->
  (forall j c, ls !! j = Some (Some c) -> c = (-1)%Z \/ (0 <= c < k)%Z) ->
  (forall c, (0 <= c < k)%Z -> exists j, ls !! j = Some (Some c)) ->
  Z.of_nat (size (cluster_ids ls)) = k.
Proof.
  intros Hk Hdom Hall.
  assert (E : cluster_ids ls = list_to_set (Z.of_nat <$> seq 0 (Z.to_nat k))).
  { apply set_eq. intros c.
    rewrite cluster_ids_spec, elem_of_list_to_set, list_elem_of_fmap. split.
    - intros [Hc [j H]]. exists (Z.to_nat c). split; [lia|].
      apply list_elem_of_In, in_seq. destruct (Hdom j c H); lia.
    - intros [m [-> Hm%list_elem_of_In%in_seq]]. split; [lia|]. apply Hall. lia. }
  rewrite E, size_list_to_set, length_fmap, length_seq; [lia|].
  apply NoDup_fmap; [intros a b; lia|apply NoDup_ListNoDup, seq_NoDup].
Qed.

(** * Neighbouring core points share their label

    This is where the symmetry of the distance matters: a core point
    pushes its neighbours, so two core points that are neighbours are
    reached in the same expansion. *)

Section WalkLink.
Variable n : nat.
Variable near : nat -> nat -> bool.
Variable minPts : Z.
Hypothesis near_sym : forall i j, near i j = near j i.

Lemma regionQuery_sym j nb :
  j < n -> In nb (regionQuery n near j) -> In j (regionQuery n near nb).
Proof.
  intros Hj (Hnb & Hne & Hnear)%regionQuery_spec. apply regionQuery_spec.
  rewrite near_sym. auto.
Qed.

Lemma is_visited_lt w x :
  walk_ok n near minPts w -> is_visited w x = true -> x < n.
Proof.
  intros Hw H%is_visited_true%lookup_lt_Some.
  now rewrite (ok_visited _ _ _ _ Hw) in H.
Qed.

Lemma core_label w x :
  walk_ok n near minPts w -> is_visited w x = true ->
  core n near minPts x = true ->
  exists c, labels w !! x = Some (Some c) /\ c <> (-1)%Z.
Proof.
  intros Hw Hv Hc. destruct (ok_visited_labelled _ _ _ _ Hw x Hv) as [c H].
  exists c. split; [exact H|]. intros ->.
  rewrite (sparse_not_core n near minPts x (ok_noise _ _ _ _ Hw x H)) in Hc.
  discriminate.
Qed.

Lemma expand_step_core_label w j rest x :
  walk_ok n near minPts w -> is_visited w x = true ->
  core n near minPts x = true ->
  labels (fst (expand_step n near minPts w j rest)) !! x = labels w !! x.
Proof.
  intros Hw Hv Hc. destruct (core_label w x Hw Hv Hc) as [c [H Hne]].
  rewrite H. now apply expand_step_keeps.
Qed.

Lemma expand_step_fresh_label w j rest :
  walk_ok n near minPts w -> j < n -> is_visited w j = false ->
  labels (fst (expand_step n near minPts w j rest)) !! j
  = Some (Some (clusterId w)).
Proof.
  intros Hw Hj V. rewrite expand_step_labels.
  assert (U : unlabelled w j = true).
  { destruct (unlabelled w j) eqn:U; [reflexivity|].
    apply unlabelled_false in U as [c [H _]].
    rewrite (ok_labelled_visited _ _ _ _ Hw j c H) in V. discriminate. }
  rewrite U. apply list_lookup_insert_eq. now rewrite (ok_labels _ _ _ _ Hw).
Qed.

Lemma expand_step_stack_incl w j rest x :
  In x rest -> In x (snd (expand_step n near minPts w j rest)).
Proof.
  intros H. rewrite expand_step_stack. destruct (is_visited w j); [exact H|].
  destruct (dense minPts _); [|exact H]. apply fold_push_In. now left.
Qed.

Lemma expand_step_linked w j rest :
  walk_ok n near minPts w -> stack_ok n (j :: rest) ->
  linked n near minPts w (j :: rest) ->
  linked n near minPts (fst (expand_step n near minPts w j rest))
                       (snd (expand_step n near minPts w j rest)).
Proof.
  intros Hw Hs [L1 L2]. pose proof (proj1 (stack_ok_tail n j rest Hs)) as Hj.
  assert (Hlen : j < length (visited w)) by now rewrite (ok_visited _ _ _ _ Hw).
  assert (Hnew : forall x, is_visited (fst (expand_step n near minPts w j rest)) x = true ->
                           is_visited w x = true \/ (x = j /\ is_visited w j = false)).
  { intros x [H| ->]%expand_step_is_visited; [auto| |exact Hlen].
    destruct (is_visited w j); auto. }
  split.
  - intros x nb Hx Hc Hnb. rewrite expand_step_clusterId.
    destruct (Hnew x Hx) as [Hvx|[-> V]].
    + destruct (L1 x nb Hvx Hc Hnb) as [H|[[<-|H] Hl]].
      * left. apply expand_step_is_visited; auto.
      * left. apply expand_step_is_visited; auto.
      * right. split; [now apply expand_step_stack_incl|].
        now rewrite expand_step_core_label.
    + right. split; [|now apply expand_step_fresh_label].
      rewrite expand_step_stack, V. fold (core n near minPts j). rewrite Hc.
      apply fold_push_In. now right.
  - intros x nb Hx Hcx Hnb Hcnb Hin.
    destruct (Hnew x Hx) as [Hvx|[-> Vx]], (Hnew nb Hnb) as [Hvnb|[-> Vnb]].
    + rewrite !expand_step_core_label by assumption. now apply L2.
    + rewrite (expand_step_core_label w j rest x),
              (expand_step_fresh_label w j rest) by assumption.
      destruct (L1 x j Hvx Hcx Hin) as [H|[_ H]]; [congruence|exact H].
    + rewrite (expand_step_core_label w j rest nb),
              (expand_step_fresh_label w j rest) by assumption.
      assert (Hin' : In j (regionQuery n near nb)) by now apply regionQuery_sym.
      destruct (L1 nb j Hvnb Hcnb Hin') as [H|[_ H]]; [congruence|now rewrite H].
    + reflexivity.
Qed.

Lemma expand_linked w stack :
  walk_ok n near minPts w -> stack_ok n stack -> linked n near minPts w stack ->
  linked n near minPts (fst (expand n near minPts (walk_fuel n) w stack)) [].
Proof.
  intros Hw Hs Hl.
  rewrite <- (expand_exhausts n near minPts (walk_fuel n) w stack Hw Hs
                (walk_fuel_enough n near minPts w stack Hw Hs)).
  apply (expand_invariant n near minPts
           (fun w s => walk_ok n near minPts w /\ stack_ok n s
                       /\ linked n near minPts w s)); [|auto].
  intros w0 j rest (H1 & H2 & H3). split; [|split].
  - apply expand_step_ok; [exact H1|]. now apply stack_ok_tail in H2.
  - now apply expand_step_stack_ok.
  - now apply expand_step_linked.
Qed.

Lemma mark_label_other w i c x :
  x <> i -> labels (mark w i c) !! x = labels w !! x.
Proof. intros H. unfold mark. simpl. now rewrite list_lookup_insert_ne. Qed.

Lemma mark_visited_inv w i c x :
  walk_ok n near minPts w -> i < n -> is_visited w i = false ->
  is_visited (mark w i c) x = true ->
  (is_visited w x = true /\ x <> i) \/ x = i.
Proof.
  intros Hw Hi V [H| ->]%mark_is_visited; [|now right|].
  - destruct (decide (x = i)) as [->|Hne]; [congruence|auto].
  - now rewrite (ok_visited _ _ _ _ Hw).
Qed.

(** Marking a point that is no core point. *)
Lemma mark_noise_linked w i :
  walk_ok n near minPts w -> i < n -> is_visited w i = false ->
  core n near minPts i = false ->
  linked n near minPts w [] -> linked n near minPts (mark w i (-1)) [].
Proof.
  intros Hw Hi V Hnc [L1 L2]. split.
  - intros x nb Hx Hc Hin.
    destruct (mark_visited_inv w i _ x Hw Hi V Hx) as [[Hvx _]| ->]; [|congruence].
    destruct (L1 x nb Hvx Hc Hin) as [H|[[] _]]. left. now apply mark_visited_mono.
  - intros x nb Hx Hcx Hnb Hcnb Hin.
    destruct (mark_visited_inv w i _ x Hw Hi V Hx) as [[Hvx Hne]| ->]; [|congruence].
    destruct (mark_visited_inv w i _ nb Hw Hi V Hnb) as [[Hvnb Hne']| ->]; [|congruence].
    rewrite !mark_label_other by assumption. now apply L2.
Qed.

(** Marking the seed of a new cluster, whose neighbours make up the stack. *)
Lemma mark_seed_linked w i :
  walk_ok n near minPts w -> i < n -> is_visited w i = false ->
  linked n near minPts w [] ->
  linked n near minPts (mark w i (clusterId w)) (regionQuery n near i).
Proof.
  intros Hw Hi V [L1 L2].
  assert (Hfresh : forall x, is_visited w x = true ->
                             core n near minPts x = true ->
                             ~ In i (regionQuery n near x)).
  { intros x Hvx Hcx Hin. destruct (L1 x i Hvx Hcx Hin) as [H|[[] _]]. congruence. }
  split.
  - intros x nb Hx Hc Hin.
    destruct (mark_visited_inv w i _ x Hw Hi V Hx) as [[Hvx _]| ->].
    + destruct (L1 x nb Hvx Hc Hin) as [H|[[] _]]. left. now apply mark_visited_mono.
    + right. split; [exact Hin|]. unfold mark. simpl.
      apply list_lookup_insert_eq. now rewrite (ok_labels _ _ _ _ Hw).
  - intros x nb Hx Hcx Hnb Hcnb Hin.
    destruct (mark_visited_inv w i _ x Hw Hi V Hx) as [[Hvx Hne]| ->],
             (mark_visited_inv w i _ nb Hw Hi V Hnb) as [[Hvnb Hne']| ->].
    + rewrite !mark_label_other by assumption. now apply L2.
    + exfalso. exact (Hfresh x Hvx Hcx Hin).
    + exfalso. apply (Hfresh nb Hvnb Hcnb). now apply regionQuery_sym.
    + reflexivity.
Qed.

Lemma next_cluster_linked w :
  linked n near minPts w [] -> linked n near minPts (next_cluster w) [].
Proof.
  intros [L1 L2]. split.
  - intros x nb Hx Hc Hin. destruct (L1 x nb Hx Hc Hin) as [H|[[] _]]. now left.
  - exact L2.
Qed.

Lemma visit_linked w i :
  walk_ok n near minPts w -> i < n ->
  linked n near minPts w [] -> linked n near minPts (visit n near minPts w i) [].
Proof.
  intros Hw Hi Hl. rewrite visit_unfold.
  destruct (is_visited w i) eqn:V; [exact Hl|].
  destruct (sparse minPts (regionQuery n near i)) eqn:Sp.
  - apply mark_noise_linked; auto. now apply sparse_not_core.
  - apply next_cluster_linked, expand_linked.
    + apply mark_ok; auto. pose proof (ok_clusterId _ _ _ _ Hw). lia.
    + apply regionQuery_stack_ok.
    + now apply mark_seed_linked.
Qed.

Lemma walk_upto_linked k :
  k <= n -> linked n near minPts (walk_upto n near minPts k) [].
Proof.
  induction k as [|k IH]; intros Hk.
  - split.
    + intros x nb [[=] _]%is_visited_true%lookup_replicate.
    + intros x nb [[=] _]%is_visited_true%lookup_replicate.
  - rewrite walk_upto_S. apply visit_linked; [|lia|apply IH; lia].
    apply walk_upto_inv. lia.
Qed.

(** At the end of the walk two core points that are neighbours carry the
    same cluster id. *)
Lemma walk_all_core_link j nb :
  j < n -> core n near minPts j = true -> core n near minPts nb = true ->
  In nb (regionQuery n near j) ->
  exists c, (0 <= c)%Z
            /\ labels (walk_all n near minPts) !! j = Some (Some c)
            /\ labels (walk_all n near minPts) !! nb = Some (Some c).
Proof.
  intros Hj Hcj Hcnb Hin.
  destruct (walk_upto_inv n near minPts n (le_n n)) as (Hw & [Hdom _] & Hvis).
  destruct (walk_upto_linked n (le_n n)) as [_ L2].
  assert (Hnb : nb < n) by now apply regionQuery_spec in Hin.
  destruct (core_label _ j Hw (Hvis j Hj) Hcj) as [c [H Hne]].
  exists c. split; [destruct (Hdom j c H); [contradiction|lia]|].
  split; [exact H|]. rewrite <- H. symmetry.
  apply L2; auto.
Qed.

End WalkLink.

(** * Assignment to the nearest core point *)

Lemma in_snoc {A} (l : list A) (i j : A) : In j (l ++ [i]) <-> In j l \/ j = i.
Proof.
  rewrite in_app_iff. simpl.
  split; [intros [H|[->|[]]]; auto|intros [H| ->]; auto].
Qed.

Section Nearest.
Variable X : matrix.
Variable p : vector.
Local Open Scope float_scope.

Lemma nearest_snoc cores i :
  nearest X p (cores ++ [i]) = nearer X p (nearest X p cores) i.
Proof. unfold nearest. now rewrite fold_left_app. Qed.

Lemma nearer_cases b i :
  (core_dist X p i = None /\ nearer X p b i = b)
  \/ (exists d, core_dist X p i = Some d /\ (d <? dist b) = false
                /\ nearer X p b i = b)
  \/ (exists d, core_dist X p i = Some d /\ (d <? dist b) = true
                /\ nearer X p b i = {| idx := Z.of_nat i; dist := d |}).
Proof.
  unfold nearer, core_dist. destruct (X !! i) as [xi|]; simpl; [|now left].
  right. destruct (euclidean xi p <? dist b) eqn:E; [right|left]; eauto.
Qed.

(** What the loop over the core points leaves in [best]. *)
Lemma nearest_spec cores :
  (idx (nearest X p cores) = (-1)%Z
   /\ dist (nearest X p cores) = infinity
   /\ forall i di, In i cores -> core_dist X p i = Some di ->
                   (di <? infinity) = false)
  \/ (exists k, idx (nearest X p cores) = Z.of_nat k
                /\ first_least X p cores k (dist (nearest X p cores))).
Proof.
  induction cores as [|i cores IH] using rev_ind.
  - left. repeat split. intros i di [].
  - rewrite nearest_snoc. set (b := nearest X p cores) in *.
    destruct (nearer_cases b i) as [[Hd ->]|[(d & Hd & Hlt & ->)|(d & Hd & Hlt & ->)]].
    + (* no row: skipped *)
      destruct IH as [(Hi & Hinf & Hall)|(k & Hk & pre & post & Hc & H1 & H2 & H3 & H4)].
      * left. repeat split; auto.
        intros j dj [Hj| ->]%in_snoc; [eauto|congruence].
      * right. exists k. split; [exact Hk|]. exists pre, (post ++ [i]).
        split; [now rewrite Hc, <- app_assoc|]. repeat split; auto.
        intros j dj [Hj| ->]%in_snoc; [eauto|congruence].
    + (* not nearer: best is kept *)
      destruct IH as [(Hi & Hinf & Hall)|(k & Hk & pre & post & Hc & H1 & H2 & H3 & H4)].
      * left. repeat split; auto.
        intros j dj [Hj| ->]%in_snoc; [eauto|].
        rewrite Hd. intros [= <-]. now rewrite <- Hinf.
      * right. exists k. split; [exact Hk|]. exists pre, (post ++ [i]).
        split; [now rewrite Hc, <- app_assoc|]. repeat split; auto.
        intros j dj [Hj| ->]%in_snoc; [eauto|].
        rewrite Hd. now intros [= <-].
    + (* nearer: the new best *)
      right. exists i. split; [reflexivity|]. exists cores, []. simpl.
      assert (Hinf : (d <? infinity) = true).
      { destruct IH as [(_ & Hinf & _)|(k & _ & pre & post & _ & _ & H2 & _)].
        - now rewrite <- Hinf.
        - exact (FloatFacts.ltb_trans _ _ _ Hlt H2). }
      assert (Hother : forall j dj, In j cores -> core_dist X p j = Some dj ->
                                    (dj <? dist b) = false).
      { destruct IH as [(_ & Hinf' & Hall)|(k & _ & pre & post & _ & _ & _ & H3 & _)].
        - rewrite Hinf'. exact Hall.
        - exact H3. }
      repeat split; auto.
      * intros j dj [Hj| ->]%in_snoc.
        -- intros Hdj. destruct (dj <? d) eqn:E; [|reflexivity].
           rewrite <- (Hother j dj Hj Hdj).
           symmetry. exact (FloatFacts.ltb_trans _ _ _ E Hlt).
        -- rewrite Hd. intros [= <-]. apply FloatFacts.ltb_irrefl.
      * intros j dj Hj Hdj. destruct (dj <=? d) eqn:E; [|reflexivity].
        rewrite <- (Hother j dj Hj Hdj).
        symmetry. exact (FloatFacts.leb_ltb_trans _ _ _ E Hlt).
Qed.

End Nearest.

Lemma assign_unfold g Xraw lbls cores eps newPoint :
  assignByNearestCore g Xraw lbls cores eps newPoint
  = let b := nearest (assign_Xscaled g Xraw)
                     (applyScalerToRow newPoint (of_scaler (assign_scaler g Xraw)))
                     cores in
    if (idx b =? -1)%Z || (eps <? dist b)%float
    then {| cluster := Some (-1)%Z; a_dist := dist b |}
    else {| cluster := label_at lbls (idx b); a_dist := dist b |}.
Proof. reflexivity. Qed.

Lemma label_at_index lbls k : label_at lbls (Z.of_nat k) = mjoin (lbls !! k).
Proof.
  unfold label_at. destruct (Z.ltb_spec (Z.of_nat k) 0); [lia|].
  now rewrite Nat2Z.id.
Qed.

(** * The walk as a sequence of states *)

Lemma keeps_refl w : keeps w w.
Proof. intros p c _ H. exact H. Qed.

Lemma keeps_trans w1 w2 w3 : keeps w1 w2 -> keeps w2 w3 -> keeps w1 w3.
Proof. intros H1 H2 p c Hc H. apply H2, H1; assumption. Qed.

Lemma last_default {A} (l : list A) : forall a d d',
  List.last (a :: l) d = List.last (a :: l) d'.
Proof. induction l as [|b l IH]; intros a d d'; [reflexivity|apply (IH b)]. Qed.

Lemma last_app_cons {A} (l1 : list A) : forall a l2 d,
  List.last (l1 ++ a :: l2) d = List.last (a :: l2) d.
Proof.
  induction l1 as [|b l1 IH]; intros a l2 d; [reflexivity|].
  rewrite <- (IH a l2 d). simpl. destruct (l1 ++ a :: l2) eqn:E; [|reflexivity].
  now destruct l1.
Qed.

Lemma steps_keep_app l1 : forall w l2,
  steps_keep w (l1 ++ l2)
  <-> steps_keep w l1 /\ steps_keep (List.last l1 w) l2.
Proof.
  induction l1 as [|a l1 IH]; intros w l2; [simpl; tauto|].
  change (steps_keep w ((a :: l1) ++ l2))
    with (keeps w a /\ steps_keep a (l1 ++ l2)).
  change (steps_keep w (a :: l1)) with (keeps w a /\ steps_keep a l1).
  rewrite IH. destruct l1 as [|b l1]; [simpl; tauto|].
  change (List.last (a :: b :: l1) w) with (List.last (b :: l1) w).
  rewrite (last_default l1 b a w). tauto.
Qed.

(** In a sequence whose steps keep the cluster ids, every later state keeps
    those of every earlier one. *)
Lemma steps_keep_lookup l : forall w0 t t' w w',
  steps_keep w0 l -> t <= t' ->
  (w0 :: l) !! t = Some w -> (w0 :: l) !! t' = Some w' -> keeps w w'.
Proof.
  induction l as [|a l IH]; intros w0 t t' w w' Hs Ht H H'.
  - destruct t as [|t]; [|destruct t; discriminate].
    destruct t' as [|t']; [|destruct t'; discriminate].
    injection H as <-. injection H' as <-. apply keeps_refl.
  - destruct Hs as [Hk Hs]. destruct t as [|t].
    + injection H as <-. destruct t' as [|t'].
      * injection H' as <-. apply keeps_refl.
      * apply (keeps_trans _ a); [exact Hk|].
        apply (IH a 0 t' a w' Hs); [lia|reflexivity|exact H'].
    + destruct t' as [|t']; [lia|].
      apply (IH a t t' w w' Hs); [lia|exact H|exact H'].
Qed.

Section TraceFacts.
Variable n : nat.
Variable near : nat -> nat -> bool.
Variable minPts : Z.

Lemma expand_trace_last fuel : forall w stack,
  List.last (expand_trace n near minPts fuel w stack) w
  = fst (expand n near minPts fuel w stack).
Proof.
  induction fuel as [|fuel IH]; intros w stack; simpl; [reflexivity|].
  destruct stack as [|j rest]; [reflexivity|].
  destruct (expand_step n near minPts w j rest) as [w' stack'] eqn:E.
  rewrite <- IH.
  destruct (expand_trace n near minPts fuel w' stack') as [|w0 l];
    [reflexivity|apply (last_default l w0 w w')].
Qed.

Lemma expand_trace_keeps fuel : forall w stack,
  steps_keep w (expand_trace n near minPts fuel w stack).
Proof.
  induction fuel as [|fuel IH]; intros w stack; simpl; [exact I|].
  destruct stack as [|j rest]; [exact I|].
  pose proof (expand_step_keeps n near minPts w j rest) as Hk.
  destruct (expand_step n near minPts w j rest) as [w' stack']. simpl in Hk.
  split; [|apply IH]. intros p c Hc H. apply Hk; [exact H|lia].
Qed.

Lemma visit_trace_last w i :
  List.last (visit_trace n near minPts w i) w = visit n near minPts w i.
Proof.
  unfold visit_trace. rewrite visit_unfold.
  destruct (is_visited w i); [reflexivity|].
  destruct (sparse minPts (regionQuery n near i)); [reflexivity|].
  cbv zeta. rewrite app_comm_cons, List.last_last. reflexivity.
Qed.

Lemma visit_trace_keeps w i :
  walk_ok n near minPts w -> steps_keep w (visit_trace n near minPts w i).
Proof.
  intros Hw. unfold visit_trace.
  destruct (is_visited w i) eqn:V; [exact I|].
  assert (Hm : forall c, keeps w (mark w i c)).
  { intros c p c' _ H. now apply (mark_keeps n near minPts). }
  destruct (sparse minPts (regionQuery n near i)); [split; [apply Hm|exact I]|].
  cbv zeta. split; [apply Hm|]. apply steps_keep_app.
  split; [apply expand_trace_keeps|]. split; [|exact I].
  rewrite expand_trace_last. intros p c _ H. exact H.
Qed.

Lemma walk_tail_last k :
  List.last (walk_tail n near minPts k) (walk_init n) = walk_upto n near minPts k.
Proof.
  induction k as [|k IH]; [reflexivity|]. simpl. rewrite walk_upto_S.
  rewrite <- (visit_trace_last (walk_upto n near minPts k) k), <- IH.
  destruct (visit_trace n near minPts _ k) as [|a l] eqn:E.
  - rewrite app_nil_r. reflexivity.
  - rewrite last_app_cons. apply last_default.
Qed.

Lemma walk_tail_keeps k :
  k <= n -> steps_keep (walk_init n) (walk_tail n near minPts k).
Proof.
  induction k as [|k IH]; intros Hk; [exact I|]. simpl.
  apply steps_keep_app. split; [apply IH; lia|].
  rewrite walk_tail_last. apply visit_trace_keeps, walk_upto_inv. lia.
Qed.

End TraceFacts.

(** C5.  Among the states the walk goes through (one after each turn of the
    [while] loop, one after each marking and each change of cluster id), a
    slot that holds a cluster id holds the same id in every later state; the
    last state is the one the walk returns.  A slot that holds [-1] can hold
    a cluster id later: on the three points of [line], point [0] is noise
    after the first turn of the outer loop and joins cluster [0] when the
    expansion from point [1] reaches it. *)
Theorem labels_never_reassigned :
  (forall (X : matrix) (eps : float) (minPts : Z) t t' w w' p c,
     let tr := walk_trace (length X) (within X eps) minPts in
     t <= t' -> tr !! t = Some w -> tr !! t' = Some w' ->
     (0 <= c)%Z -> labels w !! p = Some (Some c) ->
     labels w' !! p = Some (Some c))
  /\ (forall (X : matrix) (eps : float) (minPts : Z),
        List.last (walk_trace (length X) (within X eps) minPts)
                  (walk_init (length X))
        = walk_all (length X) (within X eps) minPts)
  /\ (exists w w',
        walk_trace 3 (within (scaled line) 1%float) 3 !! 1 = Some w
        /\ walk_trace 3 (within (scaled line) 1%float) 3 !! 3 = Some w'
        /\ labels w !! 0 = Some (Some (-1)%Z)
        /\ labels w' !! 0 = Some (Some 0%Z)).
Proof.
  split; [|split].
  - intros X eps minPts t t' w w' p c tr Ht H H' Hc Hl.
    assert (Hk : keeps w w'); [|now apply Hk].
    apply (steps_keep_lookup (walk_tail (length X) (within X eps) minPts (length X))
             (walk_init (length X)) t t'); auto.
    apply walk_tail_keeps. lia.
  - intros X eps minPts. unfold walk_trace, walk_all.
    rewrite <- (walk_tail_last (length X) (within X eps) minPts (length X)).
    destruct (walk_tail _ _ _ _); reflexivity.
  - eexists. eexists. split; [vm_compute; reflexivity|].
    split; [vm_compute; reflexivity|]. split; reflexivity.
Qed.

(** C5 on the scenario: point [0] holds cluster id [0] from the first state
    after the initial one to the last of the eight states. *)
Lemma labels_never_reassigned_witness :
  exists w',
    walk_trace 4 (within (scaled scenario) 1.5%float) 3 !! 7 = Some w'
    /\ labels w' !! 0 = Some (Some 0%Z).
Proof.
  eexists. split; [vm_compute; reflexivity|].
  apply (proj1 labels_never_reassigned (scaled scenario) 1.5%float 3%Z 1 7
           (mark (walk_init 4) 0 0%Z));
    [lia|vm_compute; reflexivity|vm_compute; reflexivity|lia|reflexivity].
Defined.

(** * The clustering engine *)

Lemma scaled_length raw : length (scaled raw) = length raw.
Proof. apply length_map. Qed.

Lemma dbscan_result g r0 raw eps minPts :
  fst (dbscan g (Arr (r0 :: raw)) eps minPts)
  = let X := scaled (r0 :: raw) in
    {| res_labels := labels (walk_all (length X) (within X eps) minPts);
       res_corePoints := corePoints_of (length X) (within X eps) minPts;
       res_scaler := Some (computeScaler (Arr (r0 :: raw)));
       res_Xscaled := X;
       res_summary :=
         Some {| counts :=
                   count_labels (labels (walk_all (length X) (within X eps) minPts)) |} |}.
Proof. reflexivity. Qed.

Lemma count_labels_fold (ls : list label) (l : label) : forall m : gmap label nat,
  default 0 (fold_left
               (fun counts lbl => <[lbl := default 0 (counts !! lbl) + 1]> counts)
               ls m !! l)
  = default 0 (m !! l) + occurrences l ls.
Proof.
  unfold occurrences. induction ls as [|a ls IH]; intros m; simpl; [lia|].
  rewrite IH. destruct (decide (a = l)) as [->|Hne].
  - rewrite lookup_insert_eq, bool_decide_eq_true_2 by reflexivity. simpl. lia.
  - rewrite lookup_insert_ne, bool_decide_eq_false_2 by assumption. reflexivity.
Qed.

(** The summary maps a label to the number of points that carry it. *)
Lemma count_labels_counts (ls : list label) (l : label) :
  default 0 (count_labels ls !! l) = occurrences l ls.
Proof. unfold count_labels. now rewrite count_labels_fold, lookup_empty. Qed.

(** C1.  On [[0,0],[0,1],[1,0],[10,10]] with [eps = 1.5] and [minPts = 3]
    the first three points get cluster id [0], the fourth [-1], and the
    summary holds the mapping [{0: 3, -1: 1}]; the summary of any run maps
    each label to the number of points that carry it. *)
Theorem scenario_clusters (g : global) :
  let r := fst (dbscan g (Arr scenario) 1.5%float 3) in
  res_labels r = [Some 0%Z; Some 0%Z; Some 0%Z; Some (-1)%Z]
  /\ res_summary r = Some {| counts := {[ Some 0%Z := 3; Some (-1)%Z := 1 ]} |}
  /\ forall g' Xraw eps minPts s l,
       res_summary (fst (dbscan g' Xraw eps minPts)) = Some s ->
       default 0 (counts s !! l)
       = occurrences l (res_labels (fst (dbscan g' Xraw eps minPts))).
Proof.
  split; [vm_compute; reflexivity|].
  split; [vm_compute; reflexivity|].
  intros g' [|[|r0 raw]] eps minPts s l; try discriminate.
  rewrite dbscan_result. cbv zeta. cbn [res_summary res_labels].
  intros [= <-]. apply count_labels_counts.
Qed.

(** C2.  A point that [dbscan] labels [-1] has fewer than [minPts] points in
    its eps-neighbourhood, itself included, and is no core point. *)
Theorem noise_is_not_core (g : global) (Xraw : input) (eps : float)
    (minPts : Z) (i : nat) :
  let r := fst (dbscan g Xraw eps minPts) in
  res_labels r !! i = Some (Some (-1)%Z) ->
  (Z.of_nat (length (eps_neighbourhood (res_Xscaled r) eps i)) < minPts)%Z
  /\ ~ In i (res_corePoints r).
Proof.
  destruct Xraw as [|[|r0 raw]]; try discriminate.
  rewrite dbscan_result. cbv zeta. cbn [res_labels res_Xscaled res_corePoints].
  intros H. split.
  - apply walk_all_noise in H. unfold sparse in H.
    apply Z.ltb_lt in H. unfold eps_neighbourhood. simpl length in *. lia.
  - now apply walk_all_noise_not_core.
Qed.

(** C2 at the fourth point of the scenario. *)
Lemma noise_is_not_core_witness :
  (Z.of_nat (length (eps_neighbourhood
       (res_Xscaled (fst (dbscan no_session (Arr scenario) 1.5%float 3)))
       1.5%float 3)) < 3)%Z
  /\ ~ In 3 (res_corePoints (fst (dbscan no_session (Arr scenario) 1.5%float 3))).
Proof.
  apply (noise_is_not_core no_session (Arr scenario) 1.5%float 3 3).
  vm_compute. reflexivity.
Defined.

(** C4.  Every entry of the labels that [dbscan] returns is set, and is [-1]
    or a cluster id below [k], the number of distinct non-negative labels
    in the array; there is one entry per row. *)
Theorem label_domain (g : global) (Xraw : input) (eps : float) (minPts : Z) :
  let ls := res_labels (fst (dbscan g Xraw eps minPts)) in
  let k := Z.of_nat (size (cluster_ids ls)) in
  length ls = length (or_empty Xraw)
  /\ Forall (fun l => exists c, l = Some c /\ (c = (-1)%Z \/ (0 <= c < k)%Z)) ls.
Proof.
  destruct Xraw as [|[|r0 raw]]; try (split; [reflexivity|constructor]).
  rewrite dbscan_result. cbv zeta. cbn [res_labels or_empty].
  rewrite <- (scaled_length (r0 :: raw)). set (X := scaled (r0 :: raw)).
  destruct (walk_upto_inv (length X) (within X eps) minPts (length X) (le_n _))
    as (Hw & [Hdom Hall] & _).
  rewrite (cluster_ids_size _ (clusterId (walk_all (length X) (within X eps) minPts)));
    [|apply (ok_clusterId _ _ _ _ Hw)|exact Hdom|exact Hall].
  split; [now rewrite walk_all_length|].
  apply Forall_lookup. intros i l Hl.
  assert (Hi : i < length X).
  { apply lookup_lt_Some in Hl. now rewrite walk_all_length in Hl. }
  destruct (walk_all_labelled (length X) (within X eps) minPts i Hi) as [c [H Hc]].
  exists c. split; [congruence|exact Hc].
Qed.

(** C10.  On a degenerate input [dbscan] returns the empty result, which has
    no summary, and leaves the stored session as it was, so that a later
    [assignByNearestCore] still reads that session. *)
Theorem degenerate_keeps_session (g : global) (Xraw : input) (eps : float)
    (minPts : Z) :
  Xraw = NotArray \/ Xraw = Arr [] ->
  dbscan g Xraw eps minPts = (empty_result, g)
  /\ res_summary (fst (dbscan g Xraw eps minPts)) = None
  /\ forall Xraw' lbls cores eps' newPoint,
       assignByNearestCore (snd (dbscan g Xraw eps minPts))
                           Xraw' lbls cores eps' newPoint
       = assignByNearestCore g Xraw' lbls cores eps' newPoint.
Proof. intros [-> | ->]; repeat split. Qed.

(** C10 with the session of the scenario stored and an empty array given. *)
Lemma degenerate_keeps_session_witness :
  let g := snd (dbscan no_session (Arr scenario) 1.5%float 3) in
  dbscan g (Arr []) 2%float 4 = (empty_result, g)
  /\ a_dist (assignByNearestCore (snd (dbscan g (Arr []) 2%float 4)) NotArray
               (res_labels (fst (dbscan no_session (Arr scenario) 1.5%float 3)))
               [0; 1; 2] 1.5%float [0; 0]%float) = 0%float.
Proof.
  intros g.
  destruct (degenerate_keeps_session g (Arr []) 2%float 4 (or_intror eq_refl))
    as (H1 & _ & H3).
  split; [exact H1|]. rewrite H3. vm_compute. reflexivity.
Defined.

(** A non-degenerate call installs the session it computed. *)
Lemma dbscan_installs (g : global) r0 raw eps minPts :
  let out := dbscan g (Arr (r0 :: raw)) eps minPts in
  exists s, last (snd out) = Some s
            /\ ses_labels s = res_labels (fst out)
            /\ ses_corePoints s = res_corePoints (fst out)
            /\ ses_Xscaled s = res_Xscaled (fst out)
            /\ Some (ses_scaler s) = res_scaler (fst out)
            /\ ses_Xraw s = r0 :: raw.
Proof. eexists. repeat split. Qed.

(** * Assignment against a stored session *)

Lemma lookup_map {A B} (f : A -> B) (l : list A) (i : nat) :
  map f l !! i = f <$> (l !! i).
Proof. revert i. induction l as [|a l IH]; intros [|i]; simpl; auto. Qed.

Lemma scaled_row raw i :
  i < length raw ->
  scaled raw !! i
  = Some (applyScalerToRow (row raw i) (of_scaler (computeScaler (Arr raw)))).
Proof.
  intros Hi. unfold scaled, applyScaler, row. rewrite lookup_map.
  destruct (lookup_lt_is_Some_2 raw i Hi) as [ri ->]. reflexivity.
Qed.

Lemma within_sym X eps i j : within X eps i j = within X eps j i.
Proof. unfold within. now rewrite euclidean_sym. Qed.

(** A sum of squares that starts at [+0] never becomes [-0]. *)
Lemma fold_signed_or_nan (g h : nat -> float) l : forall acc,
  signed false (Prim2SF acc) = true \/ is_nan acc = true ->
  let s := fold_left (fun s i => let d := (g i - h i)%float in (s + d * d)%float)
                     l acc in
  signed false (Prim2SF s) = true \/ is_nan s = true.
Proof.
  induction l as [|i l IH]; intros acc Hacc; simpl; [exact Hacc|].
  apply IH. rewrite !FloatFacts.is_nan_spec in *.
  destruct (is_nan (g i - h i)) eqn:Ed.
  - right. rewrite FloatFacts.is_nan_spec in Ed. rewrite add_spec, mul_spec.
    destruct (Prim2SF (g i - h i)); try discriminate.
    now destruct (Prim2SF acc).
  - destruct Hacc as [Hacc|Hacc].
    + left. apply FloatFacts.add_signed; [exact Hacc|].
      now apply FloatFacts.square_signed.
    + right. rewrite add_spec. destruct (Prim2SF acc); try discriminate.
      reflexivity.
Qed.

Lemma euclidean_zero a b : (euclidean a b <=? 0)%float = true -> euclidean a b = 0%float.
Proof.
  unfold euclidean.
  destruct (fold_signed_or_nan (fun i => or_else (a !! i) 0%float)
              (fun i => or_else (b !! i) 0%float)
              (seq 0 (Nat.max (length a) (length b))) 0%float (or_introl eq_refl))
    as [H|H]; cbv zeta in H.
  - apply FloatFacts.sqrt_signed in H. revert H.
    set (d := sqrt _). intros H Hle. apply Prim2SF_inj.
    change (Prim2SF 0) with (S754_zero false).
    rewrite FloatAxioms.leb_spec in Hle. unfold SFleb in Hle.
    change (Prim2SF 0) with (S754_zero false) in Hle.
    destruct (Prim2SF d) as [[]|[]| |[] m e]; try discriminate; reflexivity.
  - rewrite (is_nan_eq _ H). discriminate.
Qed.

Lemma dbscan_session g r0 raw eps minPts :
  exists s, last (snd (dbscan g (Arr (r0 :: raw)) eps minPts)) = Some s
            /\ ses_Xscaled s = scaled (r0 :: raw)
            /\ ses_scaler s = computeScaler (Arr (r0 :: raw)).
Proof. eexists. repeat split. Qed.

(** C3, as amended.  For the session that [dbscan] stores for a matrix,
    a core point [i] whose scaled row holds no infinite entry, and its
    label [c]: [assignByNearestCore], given that session's labels and core
    points, the same [eps >= 0] and the raw row of [i], returns the cluster
    [c] at distance [0]. *)
Theorem assign_agrees_on_core (g0 : global) (raw : matrix) (eps : float)
    (minPts : Z) (i : nat) (c : Z) (Xraw' : input) :
  let out := dbscan g0 (Arr raw) eps minPts in
  In i (res_corePoints (fst out)) ->
  res_labels (fst out) !! i = Some (Some c) ->
  (0 <=? eps)%float = true ->
  no_infinity (row (res_Xscaled (fst out)) i) ->
  assignByNearestCore (snd out) Xraw' (res_labels (fst out))
                      (res_corePoints (fst out)) eps (row raw i)
  = {| cluster := Some c; a_dist := 0%float |}.
Proof.
  destruct raw as [|r0 raw]; [intros out []|].
  intros out. subst out. rewrite assign_unfold.
  destruct (dbscan_session g0 r0 raw eps minPts) as (s & Hs & HX & Hsc).
  unfold assign_Xscaled, assign_scaler. rewrite Hs, HX, Hsc.
  rewrite dbscan_result. cbv zeta.
  cbn [res_labels res_corePoints res_Xscaled].
  set (X := scaled (r0 :: raw)). set (n := length X).
  set (cores := corePoints_of n (within X eps) minPts).
  set (lbls := labels (walk_all n (within X eps) minPts)).
  intros Hi Hl Heps Hfin.
  apply corePoints_of_spec in Hi as [Hin Hci].
  assert (HXi : X !! i
                = Some (applyScalerToRow (row (r0 :: raw) i)
                          (of_scaler (computeScaler (Arr (r0 :: raw)))))).
  { apply scaled_row. unfold n, X in Hin. now rewrite scaled_length in Hin. }
  set (p := applyScalerToRow _ _) in *.
  assert (Hrow : row X i = p) by (unfold row; now rewrite HXi).
  rewrite Hrow in Hfin.
  assert (Hdi : core_dist X p i = Some 0%float).
  { unfold core_dist. rewrite HXi. simpl. now rewrite euclidean_self. }
  assert (Hicores : In i cores) by now apply corePoints_of_spec.
  destruct (nearest_spec X p cores)
    as [(_ & _ & Hall)|(k & Hk & pre & post & Hc & Hdk & Hinf & Hleast & _)].
  { specialize (Hall i _ Hicores Hdi). discriminate Hall. }
  set (b := nearest X p cores) in *.
  pose proof (Hleast i _ Hicores Hdi) as Hz.
  assert (Hle : (dist b <=? 0)%float = true).
  { apply FloatFacts.ltb_false_leb; [exact Hz|reflexivity|].
    now apply FloatFacts.ltb_not_nan in Hinf. }
  assert (Hd0 : dist b = 0%float).
  { unfold core_dist in Hdk. destruct (X !! k) as [xk|]; [|discriminate].
    simpl in Hdk. injection Hdk as Hdk. rewrite <- Hdk.
    apply euclidean_zero. now rewrite Hdk. }
  assert (Hkcores : In k cores) by (rewrite Hc; apply in_elt).
  assert (Hlk : lbls !! k = Some (Some c)).
  { destruct (decide (k = i)) as [->|Hne]; [exact Hl|].
    apply corePoints_of_spec in Hkcores as [Hkn Hck].
    destruct (walk_all_core_link n (within X eps) minPts (within_sym X eps)
                k i Hkn Hck Hci) as (c' & _ & H1 & H2).
    - apply regionQuery_spec. split; [exact Hin|]. split; [exact Hne|].
      unfold within. rewrite Hrow. unfold core_dist in Hdk. unfold row.
      destruct (X !! k) as [xk|]; [|discriminate].
      simpl in Hdk. injection Hdk as Hdk. simpl. rewrite Hdk.
      exact (FloatFacts.leb_trans _ _ _ Hle Heps).
    - fold lbls in H1, H2. congruence. }
  rewrite Hk. replace (Z.of_nat k =? -1)%Z with false by (symmetry; apply Z.eqb_neq; lia).
  rewrite (FloatFacts.leb_ltb_false _ _ (FloatFacts.leb_trans _ _ _ Hle Heps)).
  simpl orb. cbv iota. rewrite label_at_index, Hlk, Hd0. reflexivity.
Qed.

(** The amended C3 at the first point of the scenario. *)
Lemma assign_agrees_on_core_witness :
  assignByNearestCore (snd (dbscan no_session (Arr scenario) 1.5%float 3)) NotArray
    (res_labels (fst (dbscan no_session (Arr scenario) 1.5%float 3)))
    (res_corePoints (fst (dbscan no_session (Arr scenario) 1.5%float 3)))
    1.5%float [0; 0]%float
  = {| cluster := Some 0%Z; a_dist := 0%float |}.
Proof.
  apply (assign_agrees_on_core no_session scenario 1.5%float 3 0 0%Z NotArray).
  - vm_compute. auto.
  - vm_compute. reflexivity.
  - reflexivity.
  - vm_compute. repeat constructor.
Defined.

(** C3 as stated fails when the column sum overflows: the scaled rows are
    [-Infinity], every distance between them is [NaN], each point is a core
    point of its own cluster for [minPts = 1], and no core point is ever
    nearer than [Infinity]. *)
Lemma agreement_fails_on_overflow :
  ~ agreement_as_stated overflowing 2%float 1 0 0%Z.
Proof.
  unfold agreement_as_stated. intros H.
  destruct H as [H _]; [vm_compute; auto|vm_compute; reflexivity|reflexivity|].
  vm_compute in H. discriminate H.
Qed.

Lemma first_least_In X p cores k d : first_least X p cores k d -> In k cores.
Proof. intros (pre & post & -> & _). apply in_elt. Qed.

(** C6, as amended.  When no core point with a scaled row is in reach (at a
    distance below [Infinity] that is not greater than [eps]; a distance
    that is [NaN] or [Infinity] is never in reach), the result is
    [{cluster: -1, dist: d}], where [d] is [Infinity] if no distance was
    below [Infinity] and the least distance found otherwise.  When some core
    point is in reach, the result is [{cluster: labels[k], dist: d}] for the
    first core point [k], in iteration order, whose distance [d] is
    least. *)
Theorem assign_outcome (g : global) (Xraw : input) (lbls : list label)
    (cores : list nat) (eps : float) (newPoint : vector) :
  let X := assign_Xscaled g Xraw in
  let p := applyScalerToRow newPoint (of_scaler (assign_scaler g Xraw)) in
  let r := assignByNearestCore g Xraw lbls cores eps newPoint in
  ((forall i d, In i cores -> core_dist X p i = Some d -> in_reach eps d = false) ->
   cluster r = Some (-1)%Z
   /\ ((a_dist r = infinity
        /\ forall i d, In i cores -> core_dist X p i = Some d ->
                       (d <? infinity)%float = false)
       \/ exists k, first_least X p cores k (a_dist r)))
  /\ ((exists i d, In i cores /\ core_dist X p i = Some d /\ in_reach eps d = true) ->
      exists k, first_least X p cores k (a_dist r)
                /\ cluster r = mjoin (lbls !! k)).
Proof.
  intros X p r. subst r. rewrite assign_unfold. fold X p. cbv zeta.
  destruct (nearest_spec X p cores) as [(Hi & Hinf & Hall)|(k & Hk & Hfl)].
  - rewrite Hi. simpl. split.
    + intros _. split; [reflexivity|]. left. now split.
    + intros (i & d & Hin & Hd & [Hlt _]%andb_prop).
      rewrite (Hall i d Hin Hd) in Hlt. discriminate.
  - pose proof Hfl as (pre & post & Hc & Hdk & Hinf & Hleast & _).
    rewrite Hk.
    replace (Z.of_nat k =? -1)%Z with false by (symmetry; apply Z.eqb_neq; lia).
    simpl orb. split.
    + intros Hfar. pose proof (Hfar k _ (first_least_In _ _ _ _ _ Hfl) Hdk) as Hr.
      unfold in_reach in Hr. rewrite Hinf in Hr. simpl in Hr.
      apply negb_false_iff in Hr. rewrite Hr. simpl. split; [reflexivity|].
      right. now exists k.
    + intros (i & d & Hin & Hd & [Hlt Hge%negb_true_iff]%andb_prop).
      assert (Hnear : (eps <? dist (nearest X p cores))%float = false).
      { destruct (eps <? dist (nearest X p cores))%float eqn:E; [|reflexivity].
        rewrite <- Hge. symmetry.
        apply (FloatFacts.ltb_leb_trans _ _ _ E).
        apply FloatFacts.ltb_false_leb; [exact (Hleast i d Hin Hd)| |].
        - now apply FloatFacts.ltb_not_nan in Hlt.
        - now apply FloatFacts.ltb_not_nan in Hinf. }
      rewrite Hnear. simpl. exists k. split; [exact Hfl|apply label_at_index].
Qed.

(** The amended C6 on the session of the scenario: [[0, 0]] is assigned to
    cluster [0], and no core point is in reach of [[100, 100]]. *)
Lemma assign_outcome_witness :
  let out := dbscan no_session (Arr scenario) 1.5%float 3 in
  (exists k, cluster (assignByNearestCore (snd out) NotArray (res_labels (fst out))
                        [0; 1; 2] 1.5%float [0; 0]%float)
             = mjoin (res_labels (fst out) !! k))
  /\ cluster (assignByNearestCore (snd out) NotArray (res_labels (fst out))
                [0; 1; 2] 1.5%float [100; 100]%float) = Some (-1)%Z.
Proof.
  intros out. split.
  - destruct (proj2 (assign_outcome (snd out) NotArray (res_labels (fst out))
                       [0; 1; 2] 1.5%float [0; 0]%float)) as (k & _ & Hk).
    + exists 0, 0%float. split; [now left|]. split; vm_compute; reflexivity.
    + now exists k.
  - apply (proj1 (assign_outcome (snd out) NotArray (res_labels (fst out))
                    [0; 1; 2] 1.5%float [100; 100]%float)).
    intros i d [<-|[<-|[<-|[]]]] Hd; vm_compute in Hd; injection Hd as <-;
      vm_compute; reflexivity.
Defined.

(** C6 as stated fails on the session of the overflowing matrix: the core
    points are not all strictly farther than [eps] (their distances are
    [NaN]), yet the result is noise, not the label of a core point. *)
Lemma assign_as_stated_fails :
  let out := dbscan no_session (Arr overflowing) 2%float 1 in
  ~ assign_as_stated (snd out) (Arr overflowing) (res_labels (fst out))
                     (res_corePoints (fst out)) 2%float [0x1p1023]%float.
Proof.
  intros out [_ H]. destruct H as (k & d & Hin & _ & Hc & _).
  - intros [E|Hall]; [discriminate E|].
    specialize (Hall 0 nan (or_introl eq_refl) eq_refl). discriminate Hall.
  - vm_compute in Hin. destruct Hin as [<-|[<-|[]]]; vm_compute in Hc; discriminate Hc.
Qed.

(** * What a cluster takes in

    The core points of a cluster are chained, the other points of a
    cluster are neighbours of its core points, and noise is what no core
    point reaches. *)

Section WalkReach.
Variable n : nat.
Variable near : nat -> nat -> bool.
Variable minPts : Z.
Hypothesis near_sym : forall i j, near i j = near j i.

Lemma chained_cons a b c :
  reaches n near minPts a b -> core n near minPts b = true ->
  chained n near minPts b c -> chained n near minPts a c.
Proof.
  intros Hab Hb H. induction H as [|j k _ IH Hjk Hk].
  - apply (chained_next n near minPts a a b); [constructor|exact Hab|exact Hb].
  - exact (chained_next n near minPts a j k IH Hjk Hk).
Qed.

Lemma chained_trans a b c :
  chained n near minPts a b -> chained n near minPts b c ->
  chained n near minPts a c.
Proof.
  intros Hab H. induction H as [|j k _ IH Hjk Hk]; [exact Hab|].
  exact (chained_next n near minPts a j k IH Hjk Hk).
Qed.

Lemma reaches_sym j k :
  reaches n near minPts j k -> core n near minPts k = true ->
  reaches n near minPts k j.
Proof.
  intros (Hj & Hc & Hin) Hk. split; [|split; [exact Hk|]].
  - now apply regionQuery_spec in Hin.
  - now apply (regionQuery_sym n near near_sym j k).
Qed.

Lemma chained_sym a b :
  core n near minPts a = true ->
  chained n near minPts a b -> chained n near minPts b a.
Proof.
  intros Ha H. induction H as [|j k Hj IH Hjk Hk]; [constructor|].
  apply (chained_cons k j a); [now apply reaches_sym| |exact IH].
  apply Hjk.
Qed.

(** The label of the point that a turn of the [while] loop takes off the
    stack is a cluster id after the turn. *)
Lemma expand_step_popped_label w j rest k :
  walk_ok n near minPts w -> j < n -> ids_upto k w ->
  exists c, (0 <= c)%Z
            /\ labels (fst (expand_step n near minPts w j rest)) !! j
               = Some (Some c).
Proof.
  intros Hw Hj [Hdom _]. rewrite expand_step_labels.
  destruct (unlabelled w j) eqn:U.
  - exists (clusterId w). split; [apply (ok_clusterId _ _ _ _ Hw)|].
    apply list_lookup_insert_eq. now rewrite (ok_labels _ _ _ _ Hw).
  - apply unlabelled_false in U as [c [H Hne]]. exists c. split; [|exact H].
    destruct (Hdom j c H); [contradiction|lia].
Qed.

Lemma expand_step_visited_inv w j rest x :
  walk_ok n near minPts w -> j < n ->
  is_visited (fst (expand_step n near minPts w j rest)) x = true ->
  is_visited w x = true \/ (x = j /\ is_visited w j = false).
Proof.
  intros Hw Hj H. apply expand_step_is_visited in H.
  - destruct H as [H| ->]; [now left|]. destruct (is_visited w j); auto.
  - now rewrite (ok_visited _ _ _ _ Hw).
Qed.

Lemma expand_step_cluster_kept w j rest p c :
  (0 <= c)%Z -> labels w !! p = Some (Some c) ->
  labels (fst (expand_step n near minPts w j rest)) !! p = Some (Some c).
Proof. intros Hc H. apply expand_step_keeps; [exact H|lia]. Qed.

Lemma expand_step_grown w j rest k :
  walk_ok n near minPts w -> stack_ok n (j :: rest) -> ids_upto k w ->
  grown n near minPts w (j :: rest) ->
  grown n near minPts (fst (expand_step n near minPts w j rest))
                      (snd (expand_step n near minPts w j rest)).
Proof.
  intros Hw Hs Hids [G1 G2 G3 G4].
  pose proof (proj1 (stack_ok_tail n j rest Hs)) as Hj.
  pose proof (ok_clusterId _ _ _ _ Hw) as Hid.
  split.
  - intros x nb Hx Hc Hin.
    destruct (expand_step_visited_inv w j rest x Hw Hj Hx) as [Hvx|[-> V]].
    + destruct (G1 x nb Hvx Hc Hin) as [[c [Hc0 H]]|[<-|H]].
      * left. exists c. split; [exact Hc0|now apply expand_step_cluster_kept].
      * left. now apply (expand_step_popped_label w j rest k).
      * right. now apply expand_step_stack_incl.
    + right. rewrite expand_step_stack, V. fold (core n near minPts j).
      rewrite Hc. apply fold_push_In. now right.
  - intros x c Hc H.
    destruct (expand_step_label_inv n near minPts w j rest x c H) as [Hold|[-> ->]].
    + destruct (G2 x c Hc Hold) as [Hcore|[j0 [Hr Hl]]]; [now left|].
      right. exists j0. split; [exact Hr|now apply expand_step_cluster_kept].
    + destruct (G3 j (or_introl eq_refl)) as [j0 [Hr Hl]].
      right. exists j0. split; [exact Hr|now apply expand_step_cluster_kept].
  - intros x Hx. rewrite expand_step_clusterId.
    assert (Hrest : In x rest ->
              exists j0, reaches n near minPts j0 x
                /\ labels (fst (expand_step n near minPts w j rest)) !! j0
                   = Some (Some (clusterId w))).
    { intros Hin. destruct (G3 x (or_intror Hin)) as [j0 [Hr Hl]].
      exists j0. split; [exact Hr|now apply expand_step_cluster_kept]. }
    rewrite expand_step_stack in Hx.
    destruct (is_visited w j) eqn:V; [now apply Hrest|].
    destruct (dense minPts (regionQuery n near j)) eqn:D; [|now apply Hrest].
    apply fold_push_In in Hx as [Hx|Hx]; [now apply Hrest|].
    exists j. split; [now split|]. now apply expand_step_fresh_label.
  - assert (Hnew : forall y, core n near minPts j = true ->
                     core n near minPts y = true ->
                     labels w !! y = Some (Some (clusterId w)) ->
                     chained n near minPts j y /\ chained n near minPts y j).
    { intros y Hcj Hcy Hy. destruct (G3 j (or_introl eq_refl)) as [j0 [Hr Hl]].
      assert (Hy0 : chained n near minPts y j0)
        by (apply (G4 y j0 (clusterId w)); auto; apply Hr).
      assert (Hyj : chained n near minPts y j)
        by exact (chained_next n near minPts y j0 j Hy0 Hr Hcj).
      split; [|exact Hyj]. now apply chained_sym. }
    intros x y c Hc Hcx Hcy Hx Hy.
    destruct (expand_step_label_inv n near minPts w j rest x c Hx) as [Hx'|[-> Hxc]],
             (expand_step_label_inv n near minPts w j rest y c Hy) as [Hy'|[-> Hyc]].
    + now apply (G4 x y c).
    + subst c. now apply Hnew.
    + subst c. now apply Hnew.
    + constructor.
Qed.

Lemma expand_grown w stack k :
  walk_ok n near minPts w -> stack_ok n stack ->
  ids_upto k w -> (0 <= clusterId w < k)%Z ->
  grown n near minPts w stack ->
  grown n near minPts (fst (expand n near minPts (walk_fuel n) w stack)) [].
Proof.
  intros Hw Hs Hids Hk Hg.
  rewrite <- (expand_exhausts n near minPts (walk_fuel n) w stack Hw Hs
                (walk_fuel_enough n near minPts w stack Hw Hs)).
  apply (expand_invariant n near minPts
           (fun w s => walk_ok n near minPts w /\ stack_ok n s
                       /\ (ids_upto k w /\ (0 <= clusterId w < k)%Z)
                       /\ grown n near minPts w s)); [|auto].
  intros w0 j rest (H1 & H2 & [H3 H4] & H5). split; [|split; [|split; [split|]]].
  - apply expand_step_ok; [exact H1|]. now apply stack_ok_tail in H2.
  - now apply expand_step_stack_ok.
  - now apply expand_step_ids.
  - now rewrite expand_step_clusterId.
  - now apply (expand_step_grown w0 j rest k).
Qed.

Lemma mark_label_eq w i c :
  walk_ok n near minPts w -> i < n ->
  labels (mark w i c) !! i = Some (Some c).
Proof.
  intros Hw Hi. unfold mark. simpl. apply list_lookup_insert_eq.
  now rewrite (ok_labels _ _ _ _ Hw).
Qed.

(** Marking a point that is no core point. *)
Lemma mark_noise_grown w i :
  walk_ok n near minPts w -> i < n -> is_visited w i = false ->
  core n near minPts i = false ->
  grown n near minPts w [] -> grown n near minPts (mark w i (-1)) [].
Proof.
  intros Hw Hi V Hnc [G1 G2 G3 G4].
  assert (Hold : forall x c, (0 <= c)%Z ->
                   labels (mark w i (-1)) !! x = Some (Some c) ->
                   labels w !! x = Some (Some c)).
  { intros x c Hc H. destruct (decide (x = i)) as [->|Hne].
    - rewrite mark_label_eq in H by assumption. injection H as <-. lia.
    - now rewrite mark_label_other in H. }
  split.
  - intros x nb Hx Hc Hin.
    destruct (mark_visited_inv n near minPts w i _ x Hw Hi V Hx) as [[Hvx _]| ->];
      [|congruence].
    destruct (G1 x nb Hvx Hc Hin) as [[c [Hc0 H]]|[]].
    left. exists c. split; [exact Hc0|now apply (mark_keeps n near minPts)].
  - intros x c Hc H. destruct (G2 x c Hc (Hold x c Hc H)) as [Hcore|[j0 [Hr Hl]]];
      [now left|].
    right. exists j0. split; [exact Hr|now apply (mark_keeps n near minPts)].
  - intros x [].
  - intros x y c Hc Hcx Hcy Hx Hy. apply (G4 x y c); auto.
Qed.

(** Marking the seed of a new cluster, whose neighbours make up the stack. *)
Lemma mark_seed_grown w i :
  walk_ok n near minPts w -> i < n -> is_visited w i = false ->
  core n near minPts i = true -> ids_upto (clusterId w) w ->
  grown n near minPts w [] ->
  grown n near minPts (mark w i (clusterId w)) (regionQuery n near i).
Proof.
  intros Hw Hi V Hci [Hdom _] [G1 G2 G3 G4].
  assert (Hold : forall x c,
                   labels (mark w i (clusterId w)) !! x = Some (Some c) ->
                   (x = i /\ c = clusterId w)
                   \/ (x <> i /\ labels w !! x = Some (Some c)
                       /\ c <> clusterId w)).
  { intros x c H. destruct (decide (x = i)) as [->|Hne].
    - rewrite mark_label_eq in H by assumption. injection H as <-. now left.
    - rewrite mark_label_other in H by assumption. right.
      split; [exact Hne|]. split; [exact H|].
      destruct (Hdom x c H); pose proof (ok_clusterId _ _ _ _ Hw); lia. }
  split.
  - intros x nb Hx Hc Hin.
    destruct (mark_visited_inv n near minPts w i _ x Hw Hi V Hx) as [[Hvx _]| ->];
      [|now right].
    destruct (G1 x nb Hvx Hc Hin) as [[c [Hc0 H]]|[]].
    left. exists c. split; [exact Hc0|now apply (mark_keeps n near minPts)].
  - intros x c Hc H. destruct (Hold x c H) as [[-> _]|(_ & H' & _)]; [now left|].
    destruct (G2 x c Hc H') as [Hcore|[j0 [Hr Hl]]]; [now left|].
    right. exists j0. split; [exact Hr|now apply (mark_keeps n near minPts)].
  - intros x Hx. exists i. split; [now split|]. now apply mark_label_eq.
  - intros x y c Hc Hcx Hcy Hx Hy.
    destruct (Hold x c Hx) as [[-> Hxc]|(_ & Hx' & Hnx)],
             (Hold y c Hy) as [[-> Hyc]|(_ & Hy' & Hny)]; try congruence.
    + constructor.
    + now apply (G4 x y c).
Qed.

Lemma next_cluster_grown w :
  grown n near minPts w [] -> grown n near minPts (next_cluster w) [].
Proof.
  intros [G1 G2 G3 G4]. split.
  - exact G1.
  - exact G2.
  - intros x [].
  - exact G4.
Qed.

Lemma visit_grown w i :
  walk_ok n near minPts w -> i < n -> ids_upto (clusterId w) w ->
  grown n near minPts w [] -> grown n near minPts (visit n near minPts w i) [].
Proof.
  intros Hw Hi Hids Hg. rewrite visit_unfold.
  destruct (is_visited w i) eqn:V; [exact Hg|].
  pose proof (ok_clusterId _ _ _ _ Hw) as Hc.
  destruct (sparse minPts (regionQuery n near i)) eqn:Sp.
  - apply mark_noise_grown; auto. now apply sparse_not_core.
  - apply next_cluster_grown, (expand_grown _ _ (clusterId w + 1)).
    + apply mark_ok; auto. lia.
    + apply regionQuery_stack_ok.
    + now apply (ids_upto_succ n near minPts).
    + simpl. lia.
    + apply mark_seed_grown; auto.
      unfold core. rewrite sparse_dense in Sp. now destruct (dense minPts _).
Qed.

Lemma walk_upto_grown k :
  k <= n -> grown n near minPts (walk_upto n near minPts k) [].
Proof.
  induction k as [|k IH]; intros Hk.
  - split.
    + intros x nb [[=] _]%is_visited_true%lookup_replicate.
    + intros x c _ [[=] _]%lookup_replicate.
    + intros x [].
    + intros x y c _ _ _ [[=] _]%lookup_replicate.
  - rewrite walk_upto_S.
    destruct (walk_upto_inv n near minPts k) as (Hw & Hids & _); [lia|].
    apply visit_grown; [exact Hw|lia|exact Hids|apply IH; lia].
Qed.

(** ** The clusters at the end of the walk *)

(** Every neighbour of a core point is in a cluster. *)
Lemma walk_all_taken j nb :
  reaches n near minPts j nb ->
  exists c, (0 <= c)%Z
            /\ labels (walk_all n near minPts) !! nb = Some (Some c).
Proof.
  intros (Hj & Hc & Hin).
  destruct (walk_upto_inv n near minPts n (le_n n)) as (_ & _ & Hvis).
  destruct (gr_taken _ _ _ _ _ (walk_upto_grown n (le_n n)) j nb
              (Hvis j Hj) Hc Hin) as [H|[]].
  exact H.
Qed.

(** A core point is in a cluster. *)
Lemma walk_all_core_labelled j :
  j < n -> core n near minPts j = true ->
  exists c, (0 <= c)%Z
            /\ labels (walk_all n near minPts) !! j = Some (Some c).
Proof.
  intros Hj Hc.
  destruct (walk_upto_inv n near minPts n (le_n n)) as (Hw & [Hdom _] & Hvis).
  destruct (core_label n near minPts _ j Hw (Hvis j Hj) Hc) as [c [H Hne]].
  exists c. split; [|exact H]. destruct (Hdom j c H); [contradiction|lia].
Qed.

(** A point of a cluster that is no core point is a neighbour of a core
    point of that cluster. *)
Lemma walk_all_joined x c :
  (0 <= c)%Z -> labels (walk_all n near minPts) !! x = Some (Some c) ->
  core n near minPts x = true
  \/ exists j, reaches n near minPts j x
               /\ labels (walk_all n near minPts) !! j = Some (Some c).
Proof. apply (gr_joined _ _ _ _ _ (walk_upto_grown n (le_n n))). Qed.

(** Noise is what is neither a core point nor a neighbour of one. *)
Lemma walk_all_noise_iff x :
  x < n ->
  labels (walk_all n near minPts) !! x = Some (Some (-1)%Z)
  <-> core n near minPts x = false
      /\ forall j, ~ reaches n near minPts j x.
Proof.
  intros Hx. split.
  - intros H. split.
    + apply sparse_not_core. now apply walk_all_noise.
    + intros j [c [Hc H']]%walk_all_taken. rewrite H in H'.
      injection H' as <-. lia.
  - intros [Hnc Hnr].
    destruct (walk_all_labelled n near minPts x Hx) as [c [H [->|Hc]]];
      [exact H|].
    destruct (walk_all_joined x c (proj1 Hc) H) as [Hcore|[j [Hr _]]].
    + congruence.
    + destruct (Hnr j Hr).
Qed.

(** Two core points carry one label exactly when a chain of core points
    links them. *)
Lemma walk_all_chained i j :
  i < n -> core n near minPts i = true -> core n near minPts j = true ->
  chained n near minPts i j ->
  labels (walk_all n near minPts) !! i = labels (walk_all n near minPts) !! j.
Proof.
  intros Hi Hci _ H. induction H as [|j k Hij IH Hjk Hk]; [reflexivity|].
  destruct Hjk as (Hj & Hcj' & Hin). rewrite IH.
  destruct (walk_all_core_link n near minPts near_sym j k Hj Hcj' Hk Hin)
    as (c & _ & H1 & H2).
  now rewrite H1, H2.
Qed.

Lemma walk_all_same_cluster i j :
  i < n -> j < n ->
  core n near minPts i = true -> core n near minPts j = true ->
  labels (walk_all n near minPts) !! i = labels (walk_all n near minPts) !! j
  <-> chained n near minPts i j.
Proof.
  intros Hi Hj Hci Hcj. split; [|now apply walk_all_chained].
  intros H. destruct (walk_all_core_labelled i Hi Hci) as (c & Hc & Hl).
  apply (gr_chained _ _ _ _ _ (walk_upto_grown n (le_n n)) i j c);
    [exact Hc|exact Hci|exact Hcj|exact Hl|].
  fold (walk_all n near minPts). now rewrite <- H.
Qed.

End WalkReach.

(** * The walk at its edges: no core points, only core points *)

Lemma filter_all {A} (f : A -> bool) (l : list A) :
  (forall x, In x l -> f x = true) -> List.filter f l = l.
Proof.
  induction l as [|a l IH]; intros H; [reflexivity|]. simpl.
  rewrite (H a (or_introl eq_refl)), IH; [reflexivity|].
  intros x Hx. apply H. now right.
Qed.

Lemma filter_none {A} (f : A -> bool) (l : list A) :
  (forall x, In x l -> f x = false) -> List.filter f l = [].
Proof.
  induction l as [|a l IH]; intros H; [reflexivity|]. simpl.
  rewrite (H a (or_introl eq_refl)). apply IH.
  intros x Hx. apply H. now right.
Qed.

Lemma filter_seq_increasing (f : nat -> bool) (len : nat) : forall start,
  (forall a b x y, List.filter f (seq start len) !! a = Some x ->
                   List.filter f (seq start len) !! b = Some y ->
                   a < b -> x < y)
  /\ forall x, In x (List.filter f (seq start len)) -> start <= x.
Proof.
  induction len as [|len IH]; intros start; simpl.
  - split; [intros a b x y [=]|intros x []].
  - destruct (IH (S start)) as [Hs Hlow]. destruct (f start).
    + split.
      * intros [|a] [|b] x y Ha Hb Hab; try lia; simpl in Ha, Hb.
        -- injection Ha as <-. apply list_elem_of_lookup_2, list_elem_of_In in Hb.
           apply Hlow in Hb. lia.
        -- apply (Hs a b x y Ha Hb). lia.
      * intros x [<-|Hx]; [lia|]. apply Hlow in Hx. lia.
    + split; [exact Hs|]. intros x Hx. apply Hlow in Hx. lia.
Qed.

Section WalkEdge.
Variable n : nat.
Variable near : nat -> nat -> bool.
Variable minPts : Z.

Lemma walk_init_unvisited x : is_visited (walk_init n) x = false.
Proof.
  unfold is_visited, walk_init. simpl.
  destruct (replicate n false !! x) as [b|] eqn:E; [|reflexivity].
  now apply lookup_replicate in E as [-> _].
Qed.

(** As long as the outer loop has met no core point, it has opened no
    cluster and visited nothing but the points it has gone through. *)
Lemma walk_upto_no_core k :
  k <= n -> no_core_before n near minPts k ->
  clusterId (walk_upto n near minPts k) = 0%Z
  /\ forall x, k <= x -> is_visited (walk_upto n near minPts k) x = false.
Proof.
  induction k as [|k IH]; intros Hk Hnc.
  - split; [reflexivity|]. intros x _. apply walk_init_unvisited.
  - destruct IH as [Hid Hvis]; [lia|intros j Hj; apply Hnc; lia|].
    destruct (walk_upto_inv n near minPts k) as (Hw & _ & _); [lia|].
    rewrite walk_upto_S, visit_unfold, (Hvis k (le_n k)).
    assert (Sp : sparse minPts (regionQuery n near k) = true).
    { rewrite sparse_dense. fold (core n near minPts k).
      now rewrite (Hnc k (Nat.lt_succ_diag_r k)). }
    rewrite Sp. split; [exact Hid|]. intros x Hx.
    destruct (is_visited (mark _ k (-1)) x) eqn:V; [|reflexivity].
    apply mark_is_visited in V; [|rewrite (ok_visited _ _ _ _ Hw); lia].
    destruct V as [V| ->]; [|lia]. rewrite Hvis in V by lia. discriminate.
Qed.

(** The first core point opens cluster [0]. *)
Lemma walk_all_first_core i :
  i < n -> core n near minPts i = true -> no_core_before n near minPts i ->
  labels (walk_all n near minPts) !! i = Some (Some 0%Z).
Proof.
  intros Hi Hc Hnc.
  destruct (walk_upto_no_core i) as [Hid Hvis]; [lia|exact Hnc|].
  destruct (walk_upto_inv n near minPts i) as (Hw & _ & _); [lia|].
  apply (walk_upto_keeps n near minPts n (S i)); [lia|lia| |lia].
  rewrite walk_upto_S, visit_unfold, (Hvis i (le_n i)).
  assert (Sp : sparse minPts (regionQuery n near i) = false).
  { rewrite sparse_dense. fold (core n near minPts i). now rewrite Hc. }
  rewrite Sp, Hid.
  change (labels (next_cluster ?w)) with (labels w).
  apply expand_keeps; [|lia]. unfold mark. simpl.
  apply list_lookup_insert_eq. now rewrite (ok_labels _ _ _ _ Hw).
Qed.

(** Without core points every point is noise. *)
Lemma walk_all_no_core i :
  no_core_before n near minPts n -> i < n ->
  labels (walk_all n near minPts) !! i = Some (Some (-1)%Z).
Proof.
  intros Hnc Hi.
  destruct (walk_upto_no_core n (le_n n) Hnc) as [Hid _].
  destruct (walk_all_labelled n near minPts i Hi) as [c [H [->|Hc]]];
    [exact H|].
  unfold walk_all in Hc. rewrite Hid in Hc. lia.
Qed.

(** With [minPts] at most [1] every neighbourhood is dense. *)
Lemma dense_low l : (minPts <= 1)%Z -> dense minPts l = true.
Proof. intros H. unfold dense. apply Z.geb_le. lia. Qed.

Lemma corePoints_of_low :
  (minPts <= 1)%Z -> corePoints_of n near minPts = seq 0 n.
Proof.
  intros H. apply filter_all. intros x _. now apply dense_low.
Qed.

(** A test that nothing passes leaves every neighbourhood empty. *)
Lemma regionQuery_none i :
  (forall j, near i j = false) -> regionQuery n near i = [].
Proof.
  intros H. apply filter_none. intros j _. rewrite H. apply andb_false_r.
Qed.
End WalkEdge.

(** * A point joins the first cluster that reaches it *)

Section WalkOrder.
Variable n : nat.
Variable near : nat -> nat -> bool.
Variable minPts : Z.

Lemma expand_step_popped_low w j rest :
  walk_ok n near minPts w -> j < n -> ids_upto (clusterId w + 1) w ->
  exists c, (0 <= c <= clusterId w)%Z
            /\ labels (fst (expand_step n near minPts w j rest)) !! j
               = Some (Some c).
Proof.
  intros Hw Hj [Hdom _]. rewrite expand_step_labels.
  pose proof (ok_clusterId _ _ _ _ Hw) as Hid.
  destruct (unlabelled w j) eqn:U.
  - exists (clusterId w). split; [lia|].
    apply list_lookup_insert_eq. now rewrite (ok_labels _ _ _ _ Hw).
  - apply unlabelled_false in U as [c [H Hne]]. exists c. split; [|exact H].
    destruct (Hdom j c H); [contradiction|lia].
Qed.

Lemma expand_step_ordered w j rest :
  walk_ok n near minPts w -> stack_ok n (j :: rest) ->
  ids_upto (clusterId w + 1) w ->
  ordered n near minPts w (j :: rest) ->
  ordered n near minPts (fst (expand_step n near minPts w j rest))
                        (snd (expand_step n near minPts w j rest)).
Proof.
  intros Hw Hs Hids Hord x nb cx Hx Hc Hin Hlx.
  pose proof (proj1 (stack_ok_tail n j rest Hs)) as Hj.
  rewrite expand_step_clusterId.
  assert (Hnew : is_visited w x = true \/ (x = j /\ is_visited w j = false)).
  { apply expand_step_is_visited in Hx; [|now rewrite (ok_visited _ _ _ _ Hw)].
    destruct Hx as [Hx| ->]; [now left|]. destruct (is_visited w j); auto. }
  destruct Hnew as [Hvx|[-> V]].
  - rewrite (expand_step_core_label n near minPts w j rest x Hw Hvx Hc) in Hlx.
    destruct (Hord x nb cx Hvx Hc Hin Hlx) as [(c & Hc0 & H)|[[<-|H] ->]].
    + left. exists c. split; [exact Hc0|]. apply expand_step_keeps; [exact H|lia].
    + left. now apply expand_step_popped_low.
    + right. split; [now apply expand_step_stack_incl|reflexivity].
  - rewrite (expand_step_fresh_label n near minPts w j rest Hw Hj V) in Hlx.
    injection Hlx as <-. right. split; [|reflexivity].
    rewrite expand_step_stack, V. fold (core n near minPts j).
    rewrite Hc. apply fold_push_In. now right.
Qed.

Lemma expand_ordered w stack :
  walk_ok n near minPts w -> stack_ok n stack ->
  ids_upto (clusterId w + 1) w -> ordered n near minPts w stack ->
  ordered n near minPts (fst (expand n near minPts (walk_fuel n) w stack)) [].
Proof.
  intros Hw Hs Hids Hord.
  rewrite <- (expand_exhausts n near minPts (walk_fuel n) w stack Hw Hs
                (walk_fuel_enough n near minPts w stack Hw Hs)).
  apply (expand_invariant n near minPts
           (fun w s => walk_ok n near minPts w /\ stack_ok n s
                       /\ ids_upto (clusterId w + 1) w
                       /\ ordered n near minPts w s)); [|auto].
  intros w0 j rest (H1 & H2 & H3 & H4). split; [|split; [|split]].
  - apply expand_step_ok; [exact H1|]. now apply stack_ok_tail in H2.
  - now apply expand_step_stack_ok.
  - rewrite expand_step_clusterId. apply expand_step_ids; [exact H3|].
    pose proof (ok_clusterId _ _ _ _ H1). lia.
  - now apply expand_step_ordered.
Qed.

(** Marking a point that is no core point. *)
Lemma mark_noise_ordered w i :
  walk_ok n near minPts w -> i < n -> is_visited w i = false ->
  core n near minPts i = false ->
  ordered n near minPts w [] -> ordered n near minPts (mark w i (-1)) [].
Proof.
  intros Hw Hi V Hnc Hord x nb cx Hx Hc Hin Hlx.
  destruct (mark_visited_inv n near minPts w i _ x Hw Hi V Hx) as [[Hvx Hne]| ->];
    [|congruence].
  rewrite mark_label_other in Hlx by exact Hne.
  destruct (Hord x nb cx Hvx Hc Hin Hlx) as [(c & Hc0 & H)|[[] _]].
  left. exists c. split; [exact Hc0|]. now apply (mark_keeps n near minPts).
Qed.

(** Marking the seed of a new cluster, whose neighbours make up the stack. *)
Lemma mark_seed_ordered w i :
  walk_ok n near minPts w -> i < n -> is_visited w i = false ->
  ordered n near minPts w [] ->
  ordered n near minPts (mark w i (clusterId w)) (regionQuery n near i).
Proof.
  intros Hw Hi V Hord x nb cx Hx Hc Hin Hlx.
  destruct (mark_visited_inv n near minPts w i _ x Hw Hi V Hx) as [[Hvx Hne]| ->].
  - rewrite mark_label_other in Hlx by exact Hne.
    destruct (Hord x nb cx Hvx Hc Hin Hlx) as [(c & Hc0 & H)|[[] _]].
    left. exists c. split; [exact Hc0|]. now apply (mark_keeps n near minPts).
  - right. split; [exact Hin|]. unfold mark in Hlx. simpl in Hlx.
    rewrite list_lookup_insert_eq in Hlx by now rewrite (ok_labels _ _ _ _ Hw).
    now injection Hlx as <-.
Qed.

Lemma visit_ordered w i :
  walk_ok n near minPts w -> i < n -> ids_upto (clusterId w) w ->
  ordered n near minPts w [] -> ordered n near minPts (visit n near minPts w i) [].
Proof.
  intros Hw Hi Hids Hord. rewrite visit_unfold.
  destruct (is_visited w i) eqn:V; [exact Hord|].
  pose proof (ok_clusterId _ _ _ _ Hw) as Hc.
  destruct (sparse minPts (regionQuery n near i)) eqn:Sp.
  - apply mark_noise_ordered; auto. now apply sparse_not_core.
  - assert (Hfinal : ordered n near minPts
              (fst (expand n near minPts (walk_fuel n)
                      (mark w i (clusterId w)) (regionQuery n near i))) []).
    { apply expand_ordered.
      - apply mark_ok; auto. lia.
      - apply regionQuery_stack_ok.
      - now apply (ids_upto_succ n near minPts).
      - now apply mark_seed_ordered. }
    intros x nb cx Hx Hcx Hin Hlx.
    destruct (Hfinal x nb cx Hx Hcx Hin Hlx) as [Hl|[[] _]]. now left.
Qed.

Lemma walk_upto_ordered k :
  k <= n -> ordered n near minPts (walk_upto n near minPts k) [].
Proof.
  induction k as [|k IH]; intros Hk.
  - intros x nb cx [[=] _]%is_visited_true%lookup_replicate.
  - rewrite walk_upto_S.
    destruct (walk_upto_inv n near minPts k) as (Hw & Hids & _); [lia|].
    apply visit_ordered; [exact Hw|lia|exact Hids|apply IH; lia].
Qed.

(** A neighbour of a core point holds a cluster id that is not above that
    of the core point. *)
Lemma walk_all_ordered j nb cj :
  j < n -> core n near minPts j = true -> In nb (regionQuery n near j) ->
  labels (walk_all n near minPts) !! j = Some (Some cj) ->
  exists c, (0 <= c <= cj)%Z
            /\ labels (walk_all n near minPts) !! nb = Some (Some c).
Proof.
  intros Hj Hc Hin Hl.
  destruct (walk_upto_inv n near minPts n (le_n n)) as (_ & _ & Hvis).
  destruct (walk_upto_ordered n (le_n n) j nb cj (Hvis j Hj) Hc Hin Hl)
    as [H|[[] _]].
  exact H.
Qed.
End WalkOrder.

(** * Wider neighbourhoods; points that cannot be told apart *)

Lemma filter_length_mono {A} (f g : A -> bool) (l : list A) :
  (forall x, f x = true -> g x = true) ->
  length (List.filter f l) <= length (List.filter g l).
Proof.
  intros H. induction l as [|a l IH]; simpl; [lia|].
  destruct (f a) eqn:E.
  - rewrite (H a E). simpl. lia.
  - destruct (g a); simpl; lia.
Qed.

Section WalkMono.
Variable n : nat.
Variable near near' : nat -> nat -> bool.
Variable minPts minPts' : Z.
Hypothesis near_sym : forall i j, near i j = near j i.
Hypothesis near'_sym : forall i j, near' i j = near' j i.
Hypothesis wider : forall i j, near i j = true -> near' i j = true.
Hypothesis lower : (minPts' <= minPts)%Z.

Lemma regionQuery_mono i x :
  In x (regionQuery n near i) -> In x (regionQuery n near' i).
Proof.
  intros (Hx & Hne & H)%regionQuery_spec. apply regionQuery_spec. auto.
Qed.

Lemma core_mono i :
  core n near minPts i = true -> core n near' minPts' i = true.
Proof.
  unfold core, dense. rewrite !Z.geb_leb, !Z.leb_le. intros H.
  assert (length (regionQuery n near i) <= length (regionQuery n near' i)).
  { apply filter_length_mono. intros x [H1 H2]%andb_prop.
    now rewrite H1, (wider i x H2). }
  lia.
Qed.

Lemma reaches_mono j x :
  reaches n near minPts j x -> reaches n near' minPts' j x.
Proof.
  intros (Hj & Hc & Hin). split; [exact Hj|].
  split; [now apply core_mono|now apply regionQuery_mono].
Qed.

Lemma chained_mono i j :
  chained n near minPts i j -> chained n near' minPts' i j.
Proof.
  intros H. induction H as [|j k _ IH Hjk Hk]; [constructor|].
  apply (chained_next n near' minPts' i j k IH);
    [now apply reaches_mono|now apply core_mono].
Qed.

(** What is noise under the wider test is noise under the narrower one. *)
Lemma walk_all_noise_mono x :
  x < n ->
  labels (walk_all n near' minPts') !! x = Some (Some (-1)%Z) ->
  labels (walk_all n near minPts) !! x = Some (Some (-1)%Z).
Proof.
  intros Hx H.
  apply (walk_all_noise_iff n near' minPts' near'_sym x Hx) in H as [Hnc Hnr].
  apply (walk_all_noise_iff n near minPts near_sym x Hx). split.
  - destruct (core n near minPts x) eqn:E; [|reflexivity].
    now rewrite (core_mono x E) in Hnc.
  - intros j Hr. exact (Hnr j (reaches_mono j x Hr)).
Qed.

(** Core points of one cluster stay in one cluster. *)
Lemma walk_all_cluster_mono i j :
  i < n -> j < n ->
  core n near minPts i = true -> core n near minPts j = true ->
  labels (walk_all n near minPts) !! i = labels (walk_all n near minPts) !! j ->
  labels (walk_all n near' minPts') !! i = labels (walk_all n near' minPts') !! j.
Proof.
  intros Hi Hj Hci Hcj H.
  apply (walk_all_same_cluster n near minPts near_sym i j Hi Hj Hci Hcj) in H.
  apply (walk_all_same_cluster n near' minPts' near'_sym i j Hi Hj);
    [now apply core_mono|now apply core_mono|now apply chained_mono].
Qed.
End WalkMono.

Section WalkTwins.
Variable n : nat.
Variable near : nat -> nat -> bool.
Variable minPts : Z.
Hypothesis near_sym : forall i j, near i j = near j i.

(** A core point and a neighbour that every point sees as it sees the
    core point carry one label. *)
Lemma twin_of_core a b :
  a < n -> b < n -> a <> b -> near a b = true ->
  (forall k, near k a = near k b) ->
  core n near minPts a = true ->
  labels (walk_all n near minPts) !! a = labels (walk_all n near minPts) !! b.
Proof.
  intros Ha Hb Hne Hab Htwin Hca.
  assert (Hin : In b (regionQuery n near a)) by now apply regionQuery_spec.
  destruct (walk_all_taken n near minPts near_sym a b) as (cb & Hcb & Hlb);
    [now split|].
  destruct (walk_all_joined n near minPts near_sym b cb Hcb Hlb)
    as [Hcore|(k & (Hk & Hck & Hkb) & Hlk)].
  - destruct (walk_all_core_link n near minPts near_sym a b Ha Hca Hcore Hin)
      as (c & _ & H1 & H2).
    now rewrite H1, H2.
  - rewrite Hlb, <- Hlk. destruct (decide (k = a)) as [->|Hka]; [reflexivity|].
    apply regionQuery_spec in Hkb as (_ & _ & Hkb).
    assert (Hka' : In a (regionQuery n near k)).
    { apply regionQuery_spec. rewrite Htwin. auto. }
    destruct (walk_all_core_link n near minPts near_sym k a Hk Hck Hca Hka')
      as (c & _ & H1 & H2).
    now rewrite H1, H2.
Qed.

(** The cluster id of a point that is no core point is not above that of
    a twin that is no core point either. *)
Lemma twin_label_le a b ca cb :
  b < n -> (forall k, near k a = near k b) ->
  core n near minPts a = false -> core n near minPts b = false ->
  labels (walk_all n near minPts) !! a = Some (Some ca) -> (0 <= ca)%Z ->
  labels (walk_all n near minPts) !! b = Some (Some cb) ->
  (cb <= ca)%Z.
Proof.
  intros Hb Htwin Hca Hcb Hla Hca0 Hlb.
  destruct (walk_all_joined n near minPts near_sym a ca Hca0 Hla)
    as [Hcore|(k & (Hk & Hck & Hka) & Hlk)]; [congruence|].
  apply regionQuery_spec in Hka as (_ & _ & Hka).
  assert (Hkb : In b (regionQuery n near k)).
  { apply regionQuery_spec. rewrite <- Htwin.
    split; [exact Hb|]. split; [intros ->; congruence|exact Hka]. }
  destruct (walk_all_ordered n near minPts k b ca Hk Hck Hkb Hlk) as (c & Hc & Hl).
  rewrite Hlb in Hl. injection Hl as ->. lia.
Qed.

(** Two neighbours that every point sees alike carry one label. *)
Lemma twins_share_label i j :
  i < n -> j < n -> i <> j -> near i j = true ->
  (forall k, near k i = near k j) ->
  labels (walk_all n near minPts) !! i = labels (walk_all n near minPts) !! j.
Proof.
  intros Hi Hj Hne Hij Htwin.
  assert (Htwin' : forall k, near k j = near k i) by (intros k; now rewrite Htwin).
  destruct (core n near minPts i) eqn:Hci; [now apply twin_of_core|].
  destruct (core n near minPts j) eqn:Hcj.
  { symmetry. apply twin_of_core; auto. now rewrite near_sym. }
  destruct (walk_all_labelled n near minPts i Hi) as (ci & Hli & Hdi).
  destruct (walk_all_labelled n near minPts j Hj) as (cj & Hlj & Hdj).
  rewrite Hli, Hlj. do 2 f_equal.
  assert (Hnoise : forall a b ca cb,
            a < n -> b < n -> (forall k, near k a = near k b) ->
            core n near minPts a = false -> core n near minPts b = false ->
            labels (walk_all n near minPts) !! a = Some (Some ca) ->
            labels (walk_all n near minPts) !! b = Some (Some cb) ->
            ca = (-1)%Z -> cb = (-1)%Z).
  { intros a b ca cb Ha Hb Hab Hca Hcb Hla Hlb ->.
    apply (walk_all_noise_iff n near minPts near_sym a Ha) in Hla as [_ Hnr].
    assert (Hlb' : labels (walk_all n near minPts) !! b = Some (Some (-1)%Z)).
    { apply (walk_all_noise_iff n near minPts near_sym b Hb).
      split; [exact Hcb|]. intros k (Hk & Hck & Hkb). apply (Hnr k).
      apply regionQuery_spec in Hkb as (_ & _ & Hkb).
      split; [exact Hk|]. split; [exact Hck|]. apply regionQuery_spec.
      rewrite Hab. split; [exact Ha|]. split; [intros ->; congruence|exact Hkb]. }
    congruence. }
  destruct Hdi as [->|Hdi]; [symmetry; now apply (Hnoise i j (-1)%Z cj)|].
  destruct Hdj as [->|Hdj]; [now apply (Hnoise j i (-1)%Z ci)|].
  pose proof (twin_label_le i j ci cj Hj Htwin Hci Hcj Hli (proj1 Hdi) Hlj).
  pose proof (twin_label_le j i cj ci Hi Htwin' Hcj Hci Hlj (proj1 Hdj) Hli).
  lia.
Qed.
End WalkTwins.

(** * What the clusters of [dbscan] are *)

(** The labels and the core points of a result are those of the walk over
    its scaled matrix, for every input. *)
Lemma dbscan_walk (g : global) (Xraw : input) (eps : float) (minPts : Z) :
  let r := fst (dbscan g Xraw eps minPts) in
  let X := res_Xscaled r in
  res_labels r = labels (walk_all (length X) (within X eps) minPts)
  /\ res_corePoints r = corePoints_of (length X) (within X eps) minPts.
Proof.
  destruct Xraw as [|[|r0 raw]]; [split; reflexivity..|].
  rewrite dbscan_result. split; reflexivity.
Qed.

Lemma leb_not_nan x y :
  (x <=? y)%float = true -> is_nan x = false /\ is_nan y = false.
Proof.
  rewrite !FloatFacts.is_nan_spec. to_spec.
  destruct (Prim2SF x) as [[]|[]| |[] mx ex], (Prim2SF y) as [[]|[]| |[] my ey];
    simpl; easy.
Qed.

(** A radius that is negative or [NaN] lets no distance pass. *)
Lemma within_dead X eps i j :
  (0 <=? eps)%float = false -> within X eps i j = false.
Proof.
  intros Heps. unfold within.
  destruct (euclidean (row X i) (row X j) <=? eps)%float eqn:E; [|reflexivity].
  destruct (leb_not_nan _ _ E) as [Hd _].
  pose proof (FloatFacts.ltb_false_leb _ _ (euclidean_not_negative (row X i) (row X j))
                Hd eq_refl) as H0.
  rewrite (FloatFacts.leb_trans _ _ _ H0 E) in Heps. discriminate.
Qed.

(** X1: the distance does not depend on the order of its arguments, and a
    vector without an infinite entry is at distance zero from itself. *)
Theorem distance_symmetric (a b : vector) :
  euclidean a b = euclidean b a
  /\ (no_infinity a -> euclidean a a = 0%float).
Proof. split; [apply euclidean_sym|apply euclidean_self]. Qed.

Lemma distance_symmetric_witness :
  euclidean [3; 4]%float [0%float] = euclidean [0%float] [3; 4]%float
  /\ euclidean [3; 4]%float [3; 4]%float = 0%float.
Proof.
  split; [apply (distance_symmetric [3; 4]%float [0%float])|].
  apply (distance_symmetric [3; 4]%float [0%float]).
  repeat constructor.
Defined.

(** X2: the [while] loop that expands a cluster ends: started in any turn
    of the outer loop on the neighbours of a point, it empties its stack
    within [(n + 1) * (n + 1)] turns, and allowing it more turns does not
    change what it returns. *)
Theorem expansion_terminates (n : nat) (near : nat -> nat -> bool)
    (minPts : Z) (k i : nat) :
  k <= n -> i < n ->
  let w := walk_upto n near minPts k in
  let w1 := mark w i (clusterId w) in
  snd (expand n near minPts (walk_fuel n) w1 (regionQuery n near i)) = []
  /\ forall fuel, walk_fuel n <= fuel ->
       expand n near minPts fuel w1 (regionQuery n near i)
       = expand n near minPts (walk_fuel n) w1 (regionQuery n near i).
Proof.
  intros Hk Hi w w1.
  destruct (walk_upto_inv n near minPts k Hk) as (Hw & _ & _).
  assert (Hw1 : walk_ok n near minPts w1).
  { apply mark_ok; [exact Hw|exact Hi|].
    pose proof (ok_clusterId _ _ _ _ Hw) as Hid. fold w in Hid. lia. }
  pose proof (regionQuery_stack_ok n near i) as Hs.
  pose proof (walk_fuel_enough n near minPts w1 _ Hw1 Hs) as Hfuel.
  split.
  - now apply expand_exhausts.
  - intros fuel Hle. apply expand_fuel_irrelevant; [exact Hw1|exact Hs| |exact Hfuel].
    lia.
Qed.

Lemma expansion_terminates_witness :
  snd (expand 3 (within (scaled line) 1.5%float) 2 (walk_fuel 3)
         (mark (walk_init 3) 0 0) [1]) = [].
Proof.
  apply (expansion_terminates 3 (within (scaled line) 1.5%float) 2 0 0); lia.
Defined.

(** X3: two core points carry the same label exactly when a chain of core
    points links them, each within [eps] of the one before. *)
Theorem same_cluster_iff_chained (g : global) (Xraw : input) (eps : float)
    (minPts : Z) (i j : nat) :
  let r := fst (dbscan g Xraw eps minPts) in
  let X := res_Xscaled r in
  In i (res_corePoints r) -> In j (res_corePoints r) ->
  (res_labels r !! i = res_labels r !! j
   <-> chained (length X) (within X eps) minPts i j).
Proof.
  intros r X. destruct (dbscan_walk g Xraw eps minPts) as [Hl Hc].
  fold r X in Hl, Hc. rewrite Hl, Hc.
  intros [Hi Hci]%corePoints_of_spec [Hj Hcj]%corePoints_of_spec.
  apply walk_all_same_cluster; auto using within_sym.
Qed.

Lemma same_cluster_iff_chained_witness :
  chained 3 (within (scaled line) 1.5%float) 2 0 2.
Proof.
  apply (same_cluster_iff_chained no_session (Arr line) 1.5%float 2 0 2).
  - vm_compute. auto.
  - vm_compute. auto.
  - vm_compute. reflexivity.
Defined.

(** For an integer [minPts] a point is noise exactly when no core point is
    that point or within [eps] of it. *)
Lemma noise_unreachable_int (g : global) (Xraw : input) (eps : float)
    (minPts : Z) (x : nat) :
  let r := fst (dbscan g Xraw eps minPts) in
  x < length (res_labels r) ->
  (res_labels r !! x = Some (Some (-1)%Z)
   <-> forall j, In j (res_corePoints r) ->
                 j <> x /\ within (res_Xscaled r) eps j x = false).
Proof.
  intros r. destruct (dbscan_walk g Xraw eps minPts) as [Hl Hc].
  fold r in Hl, Hc. rewrite Hl, Hc, walk_all_length. intros Hx.
  rewrite (walk_all_noise_iff _ _ _ (within_sym _ _) x Hx). split.
  - intros [Hnc Hnr] j [Hj Hcj]%corePoints_of_spec.
    assert (Hne : j <> x) by (intros ->; congruence).
    split; [exact Hne|].
    destruct (within (res_Xscaled r) eps j x) eqn:E; [|reflexivity].
    destruct (Hnr j). split; [exact Hj|]. split; [exact Hcj|].
    now apply regionQuery_spec.
  - intros H. split.
    + destruct (core _ _ minPts x) eqn:E; [|reflexivity].
      destruct (H x) as [Hne _]; [now apply corePoints_of_spec|]. now destruct Hne.
    + intros j (Hj & Hcj & (_ & _ & Hin)%regionQuery_spec).
      destruct (H j) as [_ Hw]; [now apply corePoints_of_spec|]. congruence.
Qed.

(** For an integer [minPts] every point of a cluster is a core point of
    that cluster or within [eps] of one. *)
Lemma cluster_members_int (g : global) (Xraw : input) (eps : float)
    (minPts : Z) (x : nat) (c : Z) :
  let r := fst (dbscan g Xraw eps minPts) in
  res_labels r !! x = Some (Some c) -> (0 <= c)%Z ->
  exists j, In j (res_corePoints r)
            /\ res_labels r !! j = Some (Some c)
            /\ (j = x \/ within (res_Xscaled r) eps j x = true).
Proof.
  intros r. destruct (dbscan_walk g Xraw eps minPts) as [Hl Hc].
  fold r in Hl, Hc. rewrite Hl, Hc. intros H Hc0.
  assert (Hx : x < length (res_Xscaled r)).
  { apply lookup_lt_Some in H. now rewrite walk_all_length in H. }
  destruct (walk_all_joined _ _ _ (within_sym _ _) x c Hc0 H)
    as [Hcore|[j [(Hj & Hcj & Hin) Hlj]]].
  - exists x. split; [now apply corePoints_of_spec|]. split; [exact H|now left].
  - exists j. split; [now apply corePoints_of_spec|]. split; [exact Hlj|].
    right. now apply regionQuery_spec in Hin.
Qed.

(** X6: the core point of lowest index is in cluster [0]. *)
Theorem first_core_opens_cluster_zero (g : global) (Xraw : input)
    (eps : float) (minPts : Z) (i : nat) :
  let r := fst (dbscan g Xraw eps minPts) in
  In i (res_corePoints r) ->
  (forall j, In j (res_corePoints r) -> i <= j) ->
  res_labels r !! i = Some (Some 0%Z).
Proof.
  intros r. destruct (dbscan_walk g Xraw eps minPts) as [Hl Hc].
  fold r in Hl, Hc. rewrite Hl, Hc.
  intros [Hi Hci]%corePoints_of_spec Hmin.
  apply walk_all_first_core; [exact Hi|exact Hci|].
  intros j Hj. destruct (core _ _ minPts j) eqn:E; [|reflexivity].
  assert (i <= j); [|lia]. apply Hmin, corePoints_of_spec. split; [lia|exact E].
Qed.

Lemma first_core_opens_cluster_zero_witness :
  res_labels (fst (dbscan no_session (Arr line) 1.5%float 3)) !! 1
  = Some (Some 0%Z).
Proof.
  apply (first_core_opens_cluster_zero no_session (Arr line) 1.5%float 3 1).
  - vm_compute. auto.
  - vm_compute. intros j [<-|[]]. lia.
Defined.

(** Without core points every label is [-1]. *)
Lemma no_core_all_noise (g : global) (Xraw : input) (eps : float) (minPts : Z) :
  let r := fst (dbscan g Xraw eps minPts) in
  res_corePoints r = [] -> Forall (fun l => l = Some (-1)%Z) (res_labels r).
Proof.
  intros r. destruct (dbscan_walk g Xraw eps minPts) as [Hl Hc].
  fold r in Hl, Hc. rewrite Hl, Hc.
  intros Hnone. apply Forall_lookup. intros i l Hi.
  assert (Hlt : i < length (res_Xscaled r)).
  { apply lookup_lt_Some in Hi. now rewrite walk_all_length in Hi. }
  rewrite walk_all_no_core in Hi; [congruence| |exact Hlt].
  intros j Hj. destruct (core _ _ minPts j) eqn:E; [|reflexivity].
  assert (Hin : In j (corePoints_of (length (res_Xscaled r))
                        (within (res_Xscaled r) eps) minPts))
    by now apply corePoints_of_spec.
  rewrite Hnone in Hin. destruct Hin.
Qed.

(** For an integer [minPts] a result has no core point exactly when all its
    labels are [-1]. *)
Lemma no_core_noise_int (g : global) (Xraw : input) (eps : float)
    (minPts : Z) :
  let r := fst (dbscan g Xraw eps minPts) in
  res_corePoints r = []
  <-> Forall (fun l => l = Some (-1)%Z) (res_labels r).
Proof.
  intros r. split; [apply no_core_all_noise|].
  destruct (dbscan_walk g Xraw eps minPts) as [Hl Hc].
  fold r in Hl, Hc. rewrite Hl, Hc.
  - intros Hall.
    destruct (corePoints_of _ _ _) as [|i cores] eqn:E; [reflexivity|].
    assert (Hin : In i (corePoints_of (length (res_Xscaled r))
                          (within (res_Xscaled r) eps) minPts))
      by (rewrite E; now left).
    apply corePoints_of_spec in Hin as [Hi Hci].
    destruct (walk_all_core_labelled _ _ _ i Hi Hci) as (c & Hc0 & Hli).
    pose proof (proj1 (Forall_lookup _ _) Hall i _ Hli) as Heq.
    injection Heq as ->. lia.
Qed.

(** X8: with [minPts] at most [1] every point is a core point and none is
    noise. *)
Theorem low_minPts_no_noise (g : global) (Xraw : input) (eps : float)
    (minPts : Z) :
  (minPts <= 1)%Z ->
  let r := fst (dbscan g Xraw eps minPts) in
  res_corePoints r = seq 0 (length (res_labels r))
  /\ Forall (fun l => exists c, l = Some c /\ (0 <= c)%Z) (res_labels r).
Proof.
  intros Hm r. destruct (dbscan_walk g Xraw eps minPts) as [Hl Hc].
  fold r in Hl, Hc. rewrite Hl, Hc, walk_all_length. split.
  - now apply corePoints_of_low.
  - apply Forall_lookup. intros i l Hi.
    assert (Hlt : i < length (res_Xscaled r)).
    { apply lookup_lt_Some in Hi. now rewrite walk_all_length in Hi. }
    destruct (walk_all_core_labelled _ (within (res_Xscaled r) eps) minPts i Hlt)
      as (c & Hc0 & Hli); [now apply dense_low|].
    exists c. split; [congruence|exact Hc0].
Qed.

Lemma low_minPts_no_noise_witness :
  res_corePoints (fst (dbscan no_session (Arr scenario) 1.5%float 1))
  = seq 0 (length (res_labels (fst (dbscan no_session (Arr scenario) 1.5%float 1)))).
Proof.
  apply (low_minPts_no_noise no_session (Arr scenario) 1.5%float 1). lia.
Defined.

(** X9: with a radius that is negative or [NaN] and [minPts] at least [2]
    nothing is a core point and every point is noise. *)
Theorem dead_radius_all_noise (g : global) (Xraw : input) (eps : float)
    (minPts : Z) :
  (0 <=? eps)%float = false -> (2 <= minPts)%Z ->
  let r := fst (dbscan g Xraw eps minPts) in
  res_corePoints r = []
  /\ Forall (fun l => l = Some (-1)%Z) (res_labels r).
Proof.
  intros Heps Hm r.
  assert (Hnone : res_corePoints r = []).
  { destruct (dbscan_walk g Xraw eps minPts) as [_ Hc]. fold r in Hc.
    rewrite Hc. apply filter_none. intros i _. unfold core.
    rewrite regionQuery_none by (intros j; now apply within_dead).
    unfold dense. simpl. rewrite Z.geb_leb. apply Z.leb_gt. lia. }
  split; [exact Hnone|]. now apply no_core_all_noise.
Qed.

Lemma dead_radius_all_noise_witness :
  res_corePoints (fst (dbscan no_session (Arr scenario) (-1)%float 2)) = []
  /\ Forall (fun l => l = Some (-1)%Z)
            (res_labels (fst (dbscan no_session (Arr scenario) (-1)%float 2))).
Proof.
  apply (dead_radius_all_noise no_session (Arr scenario) (-1)%float 2).
  - vm_compute. reflexivity.
  - lia.
Defined.

(** * Results on small inputs, the list of core points, assignment *)

(** For an integer [minPts] a matrix of one row gives one label: cluster
    [0] and the point as a core point when [minPts] is at most [1], noise
    and no core point otherwise. *)
Lemma single_row_int (g : global) (r0 : vector) (eps : float)
    (minPts : Z) :
  let r := fst (dbscan g (Arr [r0]) eps minPts) in
  if (minPts <=? 1)%Z
  then res_labels r = [Some 0%Z] /\ res_corePoints r = [0]
  else res_labels r = [Some (-1)%Z] /\ res_corePoints r = [].
Proof.
  rewrite dbscan_result. cbv zeta. cbn [res_labels res_corePoints].
  unfold scaled, applyScaler. cbn [map length].
  unfold walk_all, walk_upto, corePoints_of, core. cbn [seq fold_left List.filter].
  rewrite visit_unfold.
  change (regionQuery 1 ?near 0) with (@nil nat).
  unfold sparse, dense. cbn [length Z.of_nat Z.add].
  change (is_visited (walk_init 1) 0) with false. cbv iota.
  change (Z.of_nat 0 + 1)%Z with 1%Z. rewrite Z.geb_leb.
  destruct (Z.leb_spec minPts 1), (Z.ltb_spec 1 minPts); try lia;
    split; reflexivity.
Qed.

(** A core point carries a cluster id. *)
Lemma core_point_labelled (g : global) (Xraw : input) (eps : float)
    (minPts : Z) (i : nat) :
  let r := fst (dbscan g Xraw eps minPts) in
  In i (res_corePoints r) ->
  exists c, (0 <= c)%Z /\ res_labels r !! i = Some (Some c).
Proof.
  intros r. destruct (dbscan_walk g Xraw eps minPts) as [Hl Hc].
  fold r in Hl, Hc. rewrite Hl, Hc.
  intros [Hi Hci]%corePoints_of_spec. now apply walk_all_core_labelled.
Qed.

(** X11: [corePoints] lists indices in increasing order, and each of them
    carries a cluster id. *)
Theorem core_points_listing (g : global) (Xraw : input) (eps : float)
    (minPts : Z) :
  let r := fst (dbscan g Xraw eps minPts) in
  (forall a b i j, res_corePoints r !! a = Some i ->
                   res_corePoints r !! b = Some j -> a < b -> i < j)
  /\ forall i, In i (res_corePoints r) ->
               exists c, (0 <= c)%Z /\ res_labels r !! i = Some (Some c).
Proof.
  intros r. split; [|apply core_point_labelled].
  destruct (dbscan_walk g Xraw eps minPts) as [_ Hc]. fold r in Hc.
  rewrite Hc. apply filter_seq_increasing.
Qed.

Lemma core_points_listing_witness :
  exists c, (0 <= c)%Z
    /\ res_labels (fst (dbscan no_session (Arr scenario) 1.5%float 3)) !! 2
       = Some (Some c).
Proof.
  apply (core_points_listing no_session (Arr scenario) 1.5%float 3).
  vm_compute. auto.
Defined.

(** X12: without a stored session [assignByNearestCore] fits the scaler to
    its [Xraw] argument and gives what it gives with the session that
    [dbscan] stores for that matrix; with that session stored, the [Xraw]
    argument is not looked at. *)
Theorem assign_refits_without_session (g : global) (raw : matrix)
    (eps : float) (minPts : Z) (Xraw' : input) (lbls : list label)
    (cores : list nat) (eps' : float) (newPoint : vector) :
  raw <> [] ->
  assignByNearestCore no_session (Arr raw) lbls cores eps' newPoint
  = assignByNearestCore (snd (dbscan g (Arr raw) eps minPts)) Xraw'
                        lbls cores eps' newPoint.
Proof.
  intros Hraw. destruct raw as [|r0 raw]; [contradiction|].
  destruct (dbscan_session g r0 raw eps minPts) as (s & Hs & HX & Hsc).
  rewrite !assign_unfold. unfold assign_Xscaled, assign_scaler.
  rewrite Hs, HX, Hsc. reflexivity.
Qed.

Lemma assign_refits_without_session_witness :
  assignByNearestCore no_session (Arr scenario)
    [Some 0%Z; Some 0%Z; Some 0%Z; Some (-1)%Z] [0; 1; 2] 1.5%float [0; 0]%float
  = assignByNearestCore (snd (dbscan no_session (Arr scenario) 1.5%float 3))
      NotArray [Some 0%Z; Some 0%Z; Some 0%Z; Some (-1)%Z] [0; 1; 2] 1.5%float
      [0; 0]%float.
Proof.
  apply (assign_refits_without_session no_session scenario 1.5%float 3 NotArray).
  discriminate.
Defined.

(** X13: given the labels and the core points of a clustering,
    [assignByNearestCore] returns [-1] or the cluster id of one of the core
    points, whatever session is stored and whatever point is assigned. *)
Theorem assign_after_clustering (g g' : global) (Xraw Xraw' : input)
    (eps eps' : float) (minPts : Z) (newPoint : vector) :
  let r := fst (dbscan g Xraw eps minPts) in
  let a := assignByNearestCore g' Xraw' (res_labels r) (res_corePoints r)
                               eps' newPoint in
  cluster a = Some (-1)%Z
  \/ exists k c, In k (res_corePoints r)
                 /\ res_labels r !! k = Some (Some c)
                 /\ (0 <= c)%Z /\ cluster a = Some c.
Proof.
  intros r a. subst a. rewrite assign_unfold. cbv zeta.
  set (X := assign_Xscaled g' Xraw').
  set (p := applyScalerToRow _ _).
  destruct (nearest_spec X p (res_corePoints r))
    as [(Hi & _ & _)|(k & Hk & Hfl)].
  - rewrite Hi. now left.
  - rewrite Hk.
    replace (Z.of_nat k =? -1)%Z with false by (symmetry; apply Z.eqb_neq; lia).
    cbn [orb]. destruct (eps' <? _)%float; [now left|]. right.
    pose proof (first_least_In _ _ _ _ _ Hfl) as Hin.
    destruct (core_point_labelled g Xraw eps minPts k Hin) as (c & Hc & Hl).
    exists k, c. split; [exact Hin|]. split; [exact Hl|]. split; [exact Hc|].
    cbn [cluster]. rewrite label_at_index. fold r in Hl. now rewrite Hl.
Qed.

(** * Points in reach of several clusters; rows longer than the scaler *)

(** X14: a point within [eps] of a core point holds a cluster id that is
    not above that of the core point: where clusters meet, a point that is
    no core point joins the one of lowest id that reaches it. *)
Theorem joins_lowest_cluster (g : global) (Xraw : input) (eps : float)
    (minPts : Z) (j x : nat) (cj : Z) :
  let r := fst (dbscan g Xraw eps minPts) in
  In j (res_corePoints r) -> x < length (res_labels r) -> j <> x ->
  within (res_Xscaled r) eps j x = true ->
  res_labels r !! j = Some (Some cj) ->
  exists c, (0 <= c <= cj)%Z /\ res_labels r !! x = Some (Some c).
Proof.
  intros r. destruct (dbscan_walk g Xraw eps minPts) as [Hl Hc].
  fold r in Hl, Hc. rewrite Hl, Hc, walk_all_length.
  intros [Hj Hcj]%corePoints_of_spec Hx Hne Hw Hlj.
  apply (walk_all_ordered _ _ _ j x cj Hj Hcj); [|exact Hlj].
  now apply regionQuery_spec.
Qed.

Lemma joins_lowest_cluster_witness :
  exists c, (0 <= c <= 0)%Z
    /\ res_labels (fst (dbscan no_session (Arr line) 1.5%float 3)) !! 0
       = Some (Some c).
Proof.
  apply (joins_lowest_cluster no_session (Arr line) 1.5%float 3 1 0 0%Z).
  - vm_compute. auto.
  - vm_compute. lia.
  - lia.
  - vm_compute. reflexivity.
  - vm_compute. reflexivity.
Defined.

Lemma sub_0_r x : (x - 0)%float = x.
Proof.
  apply FloatAxioms.Prim2SF_inj. rewrite FloatAxioms.sub_spec.
  change (Prim2SF 0) with (S754_zero false).
  destruct (Prim2SF x) as [[]|[]| |s m e]; reflexivity.
Qed.

(** X15: [applyScalerToRow] keeps the length of the row, and an entry at a
    position beyond the scaler's [mean] and [std] is not scaled: it comes
    out as it is, a falsy one as [0]. *)
Theorem scaler_shorter_than_row (row m s : vector) (j : nat) (v : float) :
  length m <= j -> length s <= j -> row !! j = Some v ->
  applyScalerToRow row (SObject (Some m) (Some s)) !! j
  = Some (or_else (Some v) 0%float)
  /\ length (applyScalerToRow row (SObject (Some m) (Some s))) = length row.
Proof.
  intros Hm Hs Hv. unfold applyScalerToRow. cbn [malformed isArray negb orb].
  split; [|apply length_imap].
  rewrite list_lookup_imap, Hv. cbn [fmap option_fmap option_map scaler_mean scaler_std elems].
  rewrite (lookup_ge_None_2 m j Hm), (lookup_ge_None_2 s j Hs).
  cbn [or_else]. now rewrite sub_0_r, FloatFacts.div_1_r.
Qed.

Lemma scaler_shorter_than_row_witness :
  applyScalerToRow [5; 7]%float (SObject (Some [1%float]) (Some [2%float])) !! 1
  = Some 7%float
  /\ length (applyScalerToRow [5; 7]%float (SObject (Some [1%float]) (Some [2%float])))
     = 2.
Proof.
  apply (scaler_shorter_than_row [5; 7]%float [1%float] [2%float] 1 7%float);
    [simpl; lia|simpl; lia|reflexivity].
Defined.

(** * E-mails: features and cluster names *)

(** ** Searching a string *)

Lemma starts_with_spec kw : forall s,
  starts_with kw s = true <-> exists post, s = kw ++ post.
Proof.
  induction kw as [|a kw IH]; intros s.
  - split; [intros _; now exists s|reflexivity].
  - destruct s as [|b s]; simpl.
    + split; [discriminate|]. now intros [post [=]].
    + rewrite andb_true_iff, Nat.eqb_eq, IH. split.
      * intros [-> [post ->]]. now exists post.
      * intros [post [= -> ->]]. split; [reflexivity|now exists post].
Qed.

Lemma starts_with_length kw s :
  starts_with kw s = true -> length kw <= length s.
Proof.
  intros [post ->]%starts_with_spec. rewrite length_app. lia.
Qed.

Lemma includes_unfold kw s :
  includes kw s
  = starts_with kw s || match s with [] => false | _ :: s' => includes kw s' end.
Proof. destruct s; reflexivity. Qed.

Lemma includes_spec kw : forall s,
  includes kw s = true <-> substring kw s.
Proof.
  induction s as [|c s IH]; rewrite includes_unfold, orb_true_iff.
  - split.
    + intros [[post H]%starts_with_spec|[=]]. now exists [], post.
    + intros (pre & post & H). left. apply starts_with_spec.
      symmetry in H. apply app_eq_nil in H as [-> H]. now exists post.
  - rewrite IH. split.
    + intros [[post H]%starts_with_spec|(pre & post & ->)].
      * now exists [], post.
      * now exists (c :: pre), post.
    + intros ([|c' pre] & post & H).
      * left. apply starts_with_spec. now exists post.
      * right. injection H as -> ->. now exists pre, post.
Qed.

Lemma matches_from_bound kw : forall s skip,
  kw <> [] ->
  matches_from kw skip s * length kw <= length s - skip.
Proof.
  induction s as [|c s IH]; intros skip Hkw; [simpl; lia|].
  assert (HL : 1 <= length kw) by (destruct kw; [contradiction|simpl; lia]).
  destruct skip as [|k].
  - change (matches_from kw 0 (c :: s))
      with (if starts_with kw (c :: s)
            then S (matches_from kw (length kw - 1) s)
            else matches_from kw 0 s).
    destruct (starts_with kw (c :: s)) eqn:E.
    + apply starts_with_length in E. simpl in E.
      pose proof (IH (length kw - 1) Hkw) as H. simpl. lia.
    + pose proof (IH 0 Hkw) as H. simpl. lia.
  - pose proof (IH k Hkw) as H. simpl. lia.
Qed.

(** ** The first loop of [preprocessEmails] *)

Section EmailFacts.
Variable inherited : jsstring -> bool.
Variable toLowerCase : jsstring -> jsstring.

Lemma note_domain_cases st e :
  (unmapped inherited (fst st) (fromDomain e) = true
   /\ note_domain inherited st e
      = (<[fromDomain e := snd st]> (fst st), S (snd st)))
  \/ (unmapped inherited (fst st) (fromDomain e) = false
      /\ note_domain inherited st e = st).
Proof.
  unfold note_domain. destruct (unmapped inherited (fst st) (fromDomain e));
    [left|right]; split; reflexivity.
Qed.

Lemma unmapped_not_inherited m k :
  (forall k, is_Some (m !! k) -> inherited k = false) ->
  unmapped inherited m k = true -> inherited k = false.
Proof.
  intros Hm. unfold unmapped. destruct (m !! k) as [v|] eqn:E.
  - intros _. apply Hm. now rewrite E.
  - now intros ->%negb_true_iff.
Qed.

Lemma note_domain_ok st e :
  domains_ok inherited st -> domains_ok inherited (note_domain inherited st e).
Proof.
  intros (Hlt & Hinj & Hown).
  destruct (note_domain_cases st e) as [[U ->]|[_ ->]]; [|now split].
  split; [|split]; simpl.
  - intros k v. destruct (decide (k = fromDomain e)) as [->|Hne].
    + rewrite lookup_insert_eq. intros [= <-]. lia.
    + rewrite lookup_insert_ne by congruence. intros H%Hlt. lia.
  - intros k1 k2 v.
    destruct (decide (k1 = fromDomain e)) as [->|H1],
             (decide (k2 = fromDomain e)) as [->|H2]; [reflexivity|..].
    + rewrite lookup_insert_eq, lookup_insert_ne by congruence.
      intros [= <-] H%Hlt. lia.
    + rewrite lookup_insert_eq, lookup_insert_ne by congruence.
      intros H%Hlt [= <-]. lia.
    + rewrite !lookup_insert_ne by congruence. apply Hinj.
  - intros k. destruct (decide (k = fromDomain e)) as [->|Hne].
    + intros _. now apply (unmapped_not_inherited (fst st)).
    + rewrite lookup_insert_ne by congruence. apply Hown.
Qed.

Lemma note_domain_idx st e :
  snd st <= snd (note_domain inherited st e) <= S (snd st).
Proof.
  destruct (note_domain_cases st e) as [[_ ->]|[_ ->]]; simpl; lia.
Qed.

Lemma note_domain_keeps st e k :
  is_Some (fst st !! k) -> is_Some (fst (note_domain inherited st e) !! k).
Proof.
  intros H. destruct (note_domain_cases st e) as [[_ ->]|[_ ->]]; [|exact H].
  simpl. destruct (decide (k = fromDomain e)) as [->|Hne].
  - rewrite lookup_insert_eq. eauto.
  - now rewrite lookup_insert_ne by congruence.
Qed.

Lemma note_domain_mapped st e :
  inherited (fromDomain e) = false ->
  is_Some (fst (note_domain inherited st e) !! fromDomain e).
Proof.
  intros Hk. destruct (note_domain_cases st e) as [[_ ->]|[U ->]].
  - simpl. rewrite lookup_insert_eq. eauto.
  - unfold unmapped in U. destruct (fst st !! fromDomain e); [eauto|].
    rewrite Hk in U. discriminate.
Qed.

Lemma fold_note_domain emails : forall st,
  domains_ok inherited st ->
  let st' := fold_left (note_domain inherited) emails st in
  domains_ok inherited st'
  /\ snd st' <= snd st + length emails
  /\ (forall k, is_Some (fst st !! k) -> is_Some (fst st' !! k))
  /\ (forall e, In e emails -> inherited (fromDomain e) = false ->
                is_Some (fst st' !! fromDomain e)).
Proof.
  induction emails as [|e emails IH]; intros st Hok; simpl.
  - split; [exact Hok|]. split; [lia|]. split; [auto|]. intros e [].
  - destruct (IH _ (note_domain_ok st e Hok)) as (H1 & H2 & H3 & H4).
    split; [exact H1|]. split; [|split].
    + pose proof (note_domain_idx st e). lia.
    + intros k Hk. now apply H3, note_domain_keeps.
    + intros e' [<-|Hin] Hk; [|now apply H4].
      now apply H3, note_domain_mapped.
Qed.

Lemma domains_ok_init : domains_ok inherited (∅, 0).
Proof.
  split; [|split]; simpl.
  - intros k v. now rewrite lookup_empty.
  - intros k1 k2 v. now rewrite lookup_empty.
  - intros k [v H]. now rewrite lookup_empty in H.
Qed.

(** What becomes of the index of a key [d] that is mapped already. *)
Lemma fold_note_first d emails : forall st v,
  1 <= snd st -> fst st !! d = Some v ->
  exists v', fst (fold_left (note_domain inherited) emails st) !! d = Some v'
             /\ (v' = 0 <-> v = 0 /\ forall e, In e emails -> fromDomain e <> d).
Proof.
  induction emails as [|e emails IH]; intros st v Hidx Hd; simpl.
  - exists v. split; [exact Hd|].
    split; [intros ->; split; [reflexivity|]|intros [H _]; exact H].
    intros e [].
  - pose proof (note_domain_idx st e) as Hmono.
    destruct (decide (fromDomain e = d)) as [He|He].
    + destruct (note_domain_cases st e) as [[U Hst]|[U Hst]].
      * destruct (IH (note_domain inherited st e) (snd st)) as (v' & Hv' & Hiff).
        { lia. }
        { rewrite Hst, <- He. simpl. apply lookup_insert_eq. }
        exists v'. split; [exact Hv'|]. split.
        -- intros H0. apply Hiff in H0 as [H0 _]. lia.
        -- intros [_ Hall]. destruct (Hall e (or_introl eq_refl) He).
      * destruct (IH (note_domain inherited st e) v) as (v' & Hv' & Hiff).
        { lia. }
        { now rewrite Hst. }
        exists v'. split; [exact Hv'|].
        assert (Hv : v <> 0).
        { unfold unmapped in U. rewrite He, Hd in U.
          now apply Nat.eqb_neq in U. }
        split.
        -- intros H0. apply Hiff in H0 as [H0 _]. contradiction.
        -- intros [H0 _]. contradiction.
    + destruct (IH (note_domain inherited st e) v) as (v' & Hv' & Hiff).
      { lia. }
      { destruct (note_domain_cases st e) as [[_ ->]|[_ ->]]; [|exact Hd].
        simpl. now rewrite lookup_insert_ne. }
      exists v'. split; [exact Hv'|]. rewrite Hiff. split.
      * intros [H0 Hall]. split; [exact H0|].
        intros e' [<-|Hin]; [exact He|now apply Hall].
      * intros [H0 Hall]. split; [exact H0|]. intros e' Hin. apply Hall. now right.
Qed.

(** ** The second loop *)

Lemma featureArr_None m e :
  featureArr inherited toLowerCase m e = None <-> body e = None.
Proof. unfold featureArr. destruct (body e); split; congruence. Qed.

Lemma featureArr_Some m e r :
  featureArr inherited toLowerCase m e = Some r ->
  exists b x2 x3 x4 x5 x6 x7,
    body e = Some b
    /\ r = [Num (num (length b)); domain_lookup inherited m (fromDomain e);
            Num x2; Num x3; Num x4; Num x5; Num x6; Num x7].
Proof.
  unfold featureArr. destruct (body e) as [b|]; [|discriminate].
  intros [= <-]. exists b. do 6 eexists. split; reflexivity.
Qed.

(** ** Scores *)

Lemma count_hits_cases kws bodyLower : forall score,
  count_hits kws bodyLower score = score
  \/ exists kw, In kw kws /\ includes kw bodyLower = true.
Proof.
  unfold count_hits. induction kws as [|kw kws IH]; intros score; simpl.
  - now left.
  - destruct (includes kw bodyLower) eqn:E.
    + right. exists kw. auto.
    + destruct (IH score) as [H|(kw' & Hin & H)]; [now left|].
      right. exists kw'. auto.
Qed.

Lemma fold_score_cases emails : forall scores,
  let scores' := fold_left (score_email toLowerCase) emails scores in
  (fst scores' = fst scores
   \/ exists e kw, In e emails /\ In kw phishingKeywords
        /\ includes kw (toLowerCase (or_empty_string (body e))) = true)
  /\ (snd scores' = snd scores
      \/ exists e kw, In e emails /\ In kw promoKeywords
           /\ includes kw (toLowerCase (or_empty_string (body e))) = true).
Proof.
  induction emails as [|e emails IH]; intros scores; [split; now left|].
  cbn [fold_left]. destruct (IH (score_email toLowerCase scores e)) as [H1 H2].
  split.
  - destruct H1 as [H1|(e' & kw & Hin & Hkw & H)].
    + cbv zeta in H1. rewrite H1. unfold score_email. cbn [fst].
      destruct (count_hits_cases phishingKeywords
                  (toLowerCase (or_empty_string (body e))) (fst scores))
        as [H|(kw & Hkw & H)]; [now left|].
      right. exists e, kw. split; [now left|auto].
    + right. exists e', kw. split; [now right|auto].
  - destruct H2 as [H2|(e' & kw & Hin & Hkw & H)].
    + cbv zeta in H2. rewrite H2. unfold score_email. cbn [snd].
      destruct (count_hits_cases promoKeywords
                  (toLowerCase (or_empty_string (body e))) (snd scores))
        as [H|(kw & Hkw & H)]; [now left|].
      right. exists e, kw. split; [now left|auto].
    + right. exists e', kw. split; [now right|auto].
Qed.
End EmailFacts.

(** A score of zero is not above one half, whatever the cluster size. *)
Lemma zero_score_low y : (0.5 <? 0 / y)%float = false.
Proof.
  rewrite FloatAxioms.ltb_spec, FloatAxioms.div_spec.
  destruct (Prim2SF y) as [[]|[]| |[] m e]; reflexivity.
Qed.

(** * What the features and the cluster names are *)

Lemma split_count_zero kw : forall s,
  kw <> [] -> (split_count kw s = 0 <-> includes kw s = false).
Proof.
  unfold split_count. intros s Hkw. induction s as [|c s IH].
  - destruct kw; [contradiction|]. split; reflexivity.
  - rewrite includes_unfold.
    change (matches_from kw 0 (c :: s))
      with (if starts_with kw (c :: s)
            then S (matches_from kw (length kw - 1) s)
            else matches_from kw 0 s).
    destruct (starts_with kw (c :: s)); [split; discriminate|exact IH].
Qed.

Lemma labels_length (g : global) (Xraw : input) (eps : float) (minPts : Z) :
  length (res_labels (fst (dbscan g Xraw eps minPts))) = length (or_empty Xraw).
Proof.
  destruct Xraw as [|[|r0 raw]]; [reflexivity..|].
  rewrite dbscan_result. cbv zeta. cbn [res_labels or_empty].
  now rewrite walk_all_length, scaled_length.
Qed.

(** X16: [preprocessEmails] throws exactly when some e-mail has no body;
    otherwise it returns one row of eight features for each e-mail. *)
Theorem preprocessEmails_rows (inherited : jsstring -> bool)
    (toLowerCase : jsstring -> jsstring) (emails : list email) :
  (preprocessEmails inherited toLowerCase emails = None
   <-> exists e, In e emails /\ body e = None)
  /\ forall rows, preprocessEmails inherited toLowerCase emails = Some rows ->
       length rows = length emails /\ Forall (fun r => length r = 8) rows.
Proof.
  unfold preprocessEmails. split.
  - rewrite mapM_None, Exists_exists.
    split; intros (e & Hin & H); exists e.
    + split; [now apply list_elem_of_In|]. now apply featureArr_None in H.
    + split; [now apply list_elem_of_In|]. now apply featureArr_None.
  - intros rows H. split; [symmetry; exact (length_mapM _ _ _ H)|].
    apply mapM_Some_1 in H. apply Forall_lookup. intros i r Hr.
    destruct (Forall2_lookup_r _ _ _ _ _ H Hr) as (e & _ & He).
    apply featureArr_Some in He as (b & x2 & x3 & x4 & x5 & x6 & x7 & _ & ->).
    reflexivity.
Qed.

Lemma preprocessEmails_rows_witness :
  exists rows, preprocessEmails from_prototype lower_ascii inbox = Some rows
               /\ length rows = 3 /\ Forall (fun r => length r = 8) rows.
Proof.
  eexists. split; [vm_compute; reflexivity|].
  apply (preprocessEmails_rows from_prototype lower_ascii inbox).
  vm_compute. reflexivity.
Defined.

(** X17: the domain feature tells the domains apart: an e-mail whose
    domain is no inherited key gets a number [v] below the number of
    e-mails, no two domains get the same [v]; an e-mail whose domain is an
    inherited key gets the inherited value, which is no number. *)
Theorem domain_indices (inherited : jsstring -> bool) (emails : list email) :
  let m := domain_map inherited emails in
  (forall e, In e emails -> inherited (fromDomain e) = false ->
     exists v, m !! fromDomain e = Some v /\ v < length emails
               /\ domain_lookup inherited m (fromDomain e) = Num (num v))
  /\ (forall k1 k2 v, m !! k1 = Some v -> m !! k2 = Some v -> k1 = k2)
  /\ (forall e, In e emails -> inherited (fromDomain e) = true ->
        domain_lookup inherited m (fromDomain e) = Inherited (fromDomain e)).
Proof.
  intros m.
  destruct (fold_note_domain inherited emails (∅, 0) (domains_ok_init inherited))
    as ((Hlt & Hinj & Hown) & Hidx & _ & Hin).
  fold (domain_map inherited emails) in Hlt, Hinj, Hown, Hin. fold m in Hlt, Hinj, Hown, Hin.
  split; [|split].
  - intros e He Hk. destruct (Hin e He Hk) as [v Hv]. exists v.
    split; [exact Hv|]. split.
    + apply Hlt in Hv. simpl in Hidx. lia.
    + unfold domain_lookup. now rewrite Hv.
  - exact Hinj.
  - intros e _ Hk. unfold domain_lookup.
    destruct (m !! fromDomain e) as [v|] eqn:E; [|now rewrite Hk].
    rewrite Hown in Hk; [discriminate|]. now rewrite E.
Qed.

Lemma domain_indices_witness :
  exists v, domain_map from_prototype inbox !! units "b.org" = Some v /\ v < 3
            /\ domain_lookup from_prototype (domain_map from_prototype inbox)
                 (units "b.org") = Num (num v).
Proof.
  apply (proj1 (domain_indices from_prototype inbox)
           {| body := Some (units "meeting invoice"); fromDomain := units "b.org";
              hasAttachment := true; senderReputation := None |}).
  - vm_compute. auto.
  - vm_compute. reflexivity.
Defined.

(** X18: the domain of the first e-mail keeps the index [0] exactly when no
    later e-mail comes from it; when one does, the index [0] is falsy at
    that e-mail and the domain is given a new index. *)
Theorem first_domain_index (inherited : jsstring -> bool) (e0 : email)
    (rest : list email) :
  inherited (fromDomain e0) = false ->
  (domain_map inherited (e0 :: rest) !! fromDomain e0 = Some 0
   <-> forall e, In e rest -> fromDomain e <> fromDomain e0).
Proof.
  intros Hk. unfold domain_map. cbn [fold_left].
  assert (Hst : note_domain inherited (∅, 0) e0 = ({[fromDomain e0 := 0]}, 1)).
  { unfold note_domain, unmapped. simpl. rewrite lookup_empty, Hk. reflexivity. }
  rewrite Hst.
  destruct (fold_note_first inherited (fromDomain e0) rest
              ({[fromDomain e0 := 0]}, 1) 0) as (v' & Hv' & Hiff).
  { simpl. lia. }
  { simpl. apply lookup_singleton_eq. }
  rewrite Hv'. split.
  - intros [= ->]. now apply Hiff.
  - intros Hall. f_equal. apply Hiff. now split.
Qed.

Lemma first_domain_index_witness :
  domain_map from_prototype inbox !! units "a.com" = Some 0
  <-> forall e, In e (tl inbox) -> fromDomain e <> units "a.com".
Proof.
  apply (first_domain_index from_prototype
           {| body := Some (units "Please VERIFY your payment");
              fromDomain := units "a.com"; hasAttachment := false;
              senderReputation := Some 0.5%float |}
           (tl inbox)).
  vm_compute. reflexivity.
Defined.

(** X19: a keyword feature, the number of pieces less one that [split]
    cuts the body into, is zero exactly when the keyword does not occur in
    the body, and the matches it counts do not overlap. *)
Theorem keyword_count (kw s : jsstring) :
  kw <> [] ->
  (split_count kw s = 0 <-> ~ substring kw s)
  /\ split_count kw s * length kw <= length s.
Proof.
  intros Hkw. split.
  - rewrite (split_count_zero kw s Hkw), <- includes_spec.
    destruct (includes kw s); split; congruence.
  - pose proof (matches_from_bound kw s 0 Hkw) as H. unfold split_count. lia.
Qed.

Lemma keyword_count_witness :
  split_count (units "aa") (units "aaaaa") * 2 <= 5.
Proof.
  apply (keyword_count (units "aa") (units "aaaaa")). discriminate.
Defined.

(** X20: when no e-mail has a domain that is an inherited key, the rows of
    [preprocessEmails] hold numbers only, eight in each row, and [dbscan]
    on them returns one label for each e-mail. *)
Theorem clustering_of_emails (inherited : jsstring -> bool)
    (toLowerCase : jsstring -> jsstring) (emails : list email)
    (rows : list (list value)) (g : global) (eps : float) (minPts : Z) :
  preprocessEmails inherited toLowerCase emails = Some rows ->
  (forall e, In e emails -> inherited (fromDomain e) = false) ->
  exists X, numbers rows = Some X
            /\ length X = length emails
            /\ Forall (fun r => length r = 8) X
            /\ length (res_labels (fst (dbscan g (Arr X) eps minPts)))
               = length emails.
Proof.
  intros Hrows Hdom. unfold preprocessEmails in Hrows.
  pose proof (length_mapM _ _ _ Hrows) as Hlen.
  apply mapM_Some_1 in Hrows.
  destruct (fold_note_domain inherited emails (∅, 0) (domains_ok_init inherited))
    as (_ & _ & _ & Hin).
  fold (domain_map inherited emails) in Hin.
  assert (Hnum : forall i r, rows !! i = Some r ->
                   exists x, mapM number r = Some x /\ length x = 8).
  { intros i r Hr. destruct (Forall2_lookup_r _ _ _ _ _ Hrows Hr) as (e & He & Hf).
    apply featureArr_Some in Hf as (b & x2 & x3 & x4 & x5 & x6 & x7 & _ & ->).
    apply list_elem_of_lookup_2, list_elem_of_In in He.
    destruct (Hin e He (Hdom e He)) as [v Hv].
    unfold domain_lookup. rewrite Hv. eexists. split; reflexivity. }
  destruct (mapM_is_Some_2 (mapM number) rows) as [X HX].
  { apply Forall_lookup. intros i r Hr.
    destruct (Hnum i r Hr) as (x & Hx & _). simpl. now rewrite Hx. }
  exists X. unfold numbers. split; [exact HX|].
  pose proof (length_mapM _ _ _ HX) as HlenX.
  split; [lia|]. split.
  - apply mapM_Some_1 in HX. apply Forall_lookup. intros i x Hx.
    destruct (Forall2_lookup_r _ _ _ _ _ HX Hx) as (r & Hr & Hrx).
    destruct (Hnum i r Hr) as (x' & Hx' & Hl). congruence.
  - rewrite labels_length. simpl. lia.
Qed.

Lemma clustering_of_emails_witness :
  exists X, numbers [[Num 26; Num 2; Num 0; Num 0.5; Num 1; Num 0; Num 1; Num 0];
                     [Num 15; Num 1; Num 1; Num 0; Num 0; Num 1; Num 0; Num 1];
                     [Num 20; Num 2; Num 0; Num 0; Num 1; Num 0; Num 0; Num 0]]%float
            = Some X
            /\ length X = length inbox
            /\ Forall (fun r => length r = 8) X
            /\ length (res_labels (fst (dbscan no_session (Arr X) 2%float 4)))
               = length inbox.
Proof.
  apply (clustering_of_emails from_prototype lower_ascii inbox).
  - vm_compute. reflexivity.
  - intros e [<-|[<-|[<-|[]]]]; vm_compute; reflexivity.
Defined.

(** X21: a cluster is named [Phishing] only if the lower-cased body of one
    of its e-mails includes a phishing keyword, and [Promo] only if one
    includes a promotion keyword; an empty cluster is named [Other]. *)
Theorem cluster_label_needs_keyword (toLowerCase : jsstring -> jsstring)
    (clusterEmails : list email) :
  (determineClusterLabel toLowerCase clusterEmails = "Phishing"%string ->
   exists e kw, In e clusterEmails /\ In kw phishingKeywords
     /\ includes kw (toLowerCase (or_empty_string (body e))) = true)
  /\ (determineClusterLabel toLowerCase clusterEmails = "Promo"%string ->
      exists e kw, In e clusterEmails /\ In kw promoKeywords
        /\ includes kw (toLowerCase (or_empty_string (body e))) = true)
  /\ determineClusterLabel toLowerCase [] = "Other"%string.
Proof.
  split; [|split; [|reflexivity]].
  - destruct clusterEmails as [|e0 es]; [discriminate|].
    unfold determineClusterLabel.
    destruct (fold_score_cases toLowerCase (e0 :: es) (0, 0)) as [[H|H] _];
      [|intros _; exact H].
    cbv zeta in H. rewrite H. cbn [fst]. change (num 0) with 0%float.
    rewrite zero_score_low, andb_false_r.
    destruct (_ && _); discriminate.
  - destruct clusterEmails as [|e0 es]; [discriminate|].
    unfold determineClusterLabel.
    destruct (fold_score_cases toLowerCase (e0 :: es) (0, 0)) as [_ [H|H]];
      [|intros _; exact H].
    cbv zeta in H. rewrite H. cbn [snd]. change (num 0) with 0%float.
    rewrite zero_score_low, andb_false_r.
    destruct (_ && _); discriminate.
Qed.

Lemma cluster_label_needs_keyword_witness :
  exists e kw, In e inbox /\ In kw phishingKeywords
    /\ includes kw (lower_ascii (or_empty_string (body e))) = true.
Proof.
  apply (cluster_label_needs_keyword lower_ascii inbox).
  vm_compute. reflexivity.
Defined.

(** X22: preprocessed on its own, as the assignment of a new e-mail does
    it, an e-mail gets the domain feature [0] whatever its domain is,
    unless the domain is an inherited key. *)
Theorem single_email_domain_feature (inherited : jsstring -> bool)
    (toLowerCase : jsstring -> jsstring) (e : email) (rows : list (list value)) :
  preprocessEmails inherited toLowerCase [e] = Some rows ->
  inherited (fromDomain e) = false ->
  exists r, rows = [r] /\ r !! 1 = Some (Num 0%float).
Proof.
  intros Hrows Hk. unfold preprocessEmails in Hrows.
  apply mapM_Some_1 in Hrows.
  apply Forall2_cons_inv_l in Hrows as (r & rest & Hr & Hrest & ->).
  apply Forall2_nil_inv_l in Hrest as ->.
  exists r. split; [reflexivity|].
  apply featureArr_Some in Hr as (b & x2 & x3 & x4 & x5 & x6 & x7 & _ & ->).
  cbn [lookup list_lookup]. unfold domain_lookup, domain_map. cbn [fold_left].
  unfold note_domain, unmapped. cbn [fst snd].
  rewrite lookup_empty, Hk. cbn [negb fst]. now rewrite lookup_insert_eq.
Qed.

Lemma single_email_domain_feature_witness :
  exists r, [[Num 15; Num 0; Num 1; Num 0; Num 0; Num 1; Num 0; Num 1]]%float = [r]
            /\ r !! 1 = Some (Num 0%float).
Proof.
  apply (single_email_domain_feature from_prototype lower_ascii
           {| body := Some (units "meeting invoice"); fromDomain := units "b.org";
              hasAttachment := true; senderReputation := None |}).
  - vm_compute. reflexivity.
  - vm_compute. reflexivity.
Defined.

(** * Changing the parameters; rows that are alike *)

Lemma dbscan_Xscaled (g : global) (Xraw : input) (eps : float) (minPts : Z) :
  res_Xscaled (fst (dbscan g Xraw eps minPts)) = scaled (or_empty Xraw).
Proof.
  destruct Xraw as [|[|r0 raw]]; [reflexivity..|].
  now rewrite dbscan_result.
Qed.

Lemma within_wider X eps eps' i j :
  (eps <=? eps')%float = true ->
  within X eps i j = true -> within X eps' i j = true.
Proof. unfold within. intros H H'. exact (FloatFacts.leb_trans _ _ _ H' H). Qed.

(** X23: a wider radius or a lower [minPts] loses nothing: every core
    point stays a core point, no point of a cluster becomes noise, and
    core points that shared a cluster still share one. *)
Theorem wider_radius_keeps_clusters (g g' : global) (Xraw : input)
    (eps eps' : float) (minPts minPts' : Z) :
  (eps <=? eps')%float = true -> (minPts' <= minPts)%Z ->
  let r := fst (dbscan g Xraw eps minPts) in
  let r' := fst (dbscan g' Xraw eps' minPts') in
  (forall i, In i (res_corePoints r) -> In i (res_corePoints r'))
  /\ (forall x, res_labels r' !! x = Some (Some (-1)%Z) ->
                res_labels r !! x = Some (Some (-1)%Z))
  /\ (forall i j, In i (res_corePoints r) -> In j (res_corePoints r) ->
                  res_labels r !! i = res_labels r !! j ->
                  res_labels r' !! i = res_labels r' !! j).
Proof.
  intros Heps Hmin r r'.
  destruct (dbscan_walk g Xraw eps minPts) as [Hl Hc].
  destruct (dbscan_walk g' Xraw eps' minPts') as [Hl' Hc'].
  fold r in Hl, Hc. fold r' in Hl', Hc'.
  rewrite Hl, Hc, Hl', Hc'. unfold r, r'. rewrite !dbscan_Xscaled.
  set (X := scaled (or_empty Xraw)).
  pose proof (fun i j => within_wider X eps eps' i j Heps) as Hw.
  split; [|split].
  - intros i [Hi Hci]%corePoints_of_spec. apply corePoints_of_spec.
    split; [exact Hi|]. exact (core_mono _ _ _ _ _ Hw Hmin i Hci).
  - intros x Hx.
    assert (Hlt : x < length X).
    { apply lookup_lt_Some in Hx. now rewrite walk_all_length in Hx. }
    exact (walk_all_noise_mono _ _ _ _ _ (within_sym X eps) (within_sym X eps')
             Hw Hmin x Hlt Hx).
  - intros i j [Hi Hci]%corePoints_of_spec [Hj Hcj]%corePoints_of_spec.
    exact (walk_all_cluster_mono _ _ _ _ _ (within_sym X eps) (within_sym X eps')
             Hw Hmin i j Hi Hj Hci Hcj).
Qed.

Lemma wider_radius_keeps_clusters_witness :
  In 1 (res_corePoints (fst (dbscan no_session (Arr line) 1.5%float 2))).
Proof.
  apply (wider_radius_keeps_clusters no_session no_session (Arr line)
           1%float 1.5%float 3 2).
  - vm_compute. reflexivity.
  - lia.
  - vm_compute. auto.
Defined.

(** X24: two rows of the input that are equal get the same label, when
    the radius is not negative and their scaled row has no infinite
    entry. *)
Theorem identical_rows_share_label (g : global) (raw : matrix) (eps : float)
    (minPts : Z) (i j : nat) (r0 : vector) :
  raw !! i = Some r0 -> raw !! j = Some r0 ->
  (0 <=? eps)%float = true -> no_infinity (row (scaled raw) i) ->
  let r := fst (dbscan g (Arr raw) eps minPts) in
  res_labels r !! i = res_labels r !! j.
Proof.
  intros Hi Hj Heps Hfin r.
  destruct (decide (i = j)) as [->|Hne]; [reflexivity|].
  destruct (dbscan_walk g (Arr raw) eps minPts) as [Hl _]. fold r in Hl.
  rewrite Hl. unfold r. rewrite dbscan_Xscaled. cbn [or_empty].
  set (X := scaled raw) in *.
  assert (Hi' : i < length X).
  { unfold X. rewrite scaled_length. now apply lookup_lt_Some in Hi. }
  assert (Hj' : j < length X).
  { unfold X. rewrite scaled_length. now apply lookup_lt_Some in Hj. }
  assert (Hrow : row X i = row X j).
  { unfold row, X. rewrite !scaled_row by (rewrite <- scaled_length; assumption).
    unfold row. now rewrite Hi, Hj. }
  apply (twins_share_label _ _ _ (within_sym X eps) i j Hi' Hj' Hne).
  - unfold within. rewrite <- Hrow, (euclidean_self _ Hfin). exact Heps.
  - intros k. unfold within. now rewrite Hrow.
Qed.

Lemma identical_rows_share_label_witness :
  res_labels (fst (dbscan no_session (Arr twins) 0.5%float 2)) !! 0
  = res_labels (fst (dbscan no_session (Arr twins) 0.5%float 2)) !! 2.
Proof.
  apply (identical_rows_share_label no_session twins 0.5%float 2 0 2 [1; 2]%float).
  - reflexivity.
  - reflexivity.
  - vm_compute. reflexivity.
  - vm_compute. repeat constructor.
Defined.

(** * [minPts] as a number: the walk at [NaN] *)

Section NumberFacts.
Variable n : nat.
Variable near : nat -> nat -> bool.

(** ** A number that is not [NaN] gives the walk over integers *)

Lemma expand_num_int z fuel : forall w stack,
  expand_num n near (Threshold z) fuel w stack = expand n near z fuel w stack.
Proof.
  induction fuel as [|fuel IH]; intros w stack; [reflexivity|].
  destruct stack as [|j rest]; [reflexivity|]. simpl.
  change (expand_step_num n near (Threshold z) w j rest)
    with (expand_step n near z w j rest).
  destruct (expand_step n near z w j rest) as [w' stack']. apply IH.
Qed.

Lemma visit_num_int z w i :
  visit_num n near (Threshold z) w i = visit n near z w i.
Proof.
  unfold visit_num, visit. now rewrite expand_num_int.
Qed.

Lemma walk_upto_num_int z k :
  walk_upto_num n near (Threshold z) k = walk_upto n near z k.
Proof.
  unfold walk_upto_num, walk_upto. generalize (walk_init n).
  induction (seq 0 k) as [|i l IH]; intros w; [reflexivity|].
  simpl. rewrite visit_num_int. apply IH.
Qed.

Lemma corePoints_num_int z :
  corePoints_num n near (Threshold z) = corePoints_of n near z.
Proof. reflexivity. Qed.

(** ** At [NaN] *)

Lemma expand_step_num_nan_stack w j rest :
  snd (expand_step_num n near NotANumber w j rest) = rest.
Proof. unfold expand_step_num. now destruct (negb (is_visited w j)). Qed.

(** At [NaN] nothing is pushed, so the loop ends after as many turns as
    the stack is long. *)
Lemma expand_num_nan_exhausts fuel : forall w stack,
  length stack <= fuel ->
  snd (expand_num n near NotANumber fuel w stack) = [].
Proof.
  induction fuel as [|fuel IH]; intros w stack Hlen.
  - destruct stack; [reflexivity|simpl in Hlen; lia].
  - destruct stack as [|j rest]; [reflexivity|]. simpl.
    pose proof (expand_step_num_nan_stack w j rest) as Hs.
    destruct (expand_step_num n near NotANumber w j rest) as [w' stack'].
    simpl in Hs. subst stack'. apply IH. simpl in Hlen. lia.
Qed.

Lemma regionQuery_length i : length (regionQuery n near i) <= walk_fuel n.
Proof.
  unfold regionQuery.
  pose proof (List.filter_length_le
                (fun j => negb (Nat.eqb i j) && near i j) (seq 0 n)) as H.
  rewrite length_seq in H. unfold walk_fuel. lia.
Qed.

Lemma expand_step_num_ids minPts w j rest :
  ids_only w -> ids_only (fst (expand_step_num n near minPts w j rest)).
Proof.
  intros [Hid Hl]. unfold expand_step_num.
  destruct (if negb (is_visited w j) then _ else _) as [vis stack].
  cbn [fst labels clusterId]. split; [exact Hid|].
  intros x c. destruct (unlabelled w j); [|apply Hl].
  intros H. apply list_lookup_insert_Some in H as [(-> & H & _)|[_ H]].
  - injection H as <-. exact Hid.
  - exact (Hl x c H).
Qed.

Lemma expand_num_ids minPts fuel : forall w stack,
  ids_only w -> ids_only (fst (expand_num n near minPts fuel w stack)).
Proof.
  induction fuel as [|fuel IH]; intros w stack Hw; [exact Hw|].
  destruct stack as [|j rest]; [exact Hw|]. simpl.
  pose proof (expand_step_num_ids minPts w j rest Hw) as H.
  destruct (expand_step_num n near minPts w j rest) as [w' stack'].
  now apply IH.
Qed.

Lemma visit_num_nan_ids w i :
  ids_only w -> ids_only (visit_num n near NotANumber w i).
Proof.
  intros Hw. unfold visit_num. destruct (is_visited w i); [exact Hw|].
  cbn [below].
  set (w1 := {| labels := <[i:=Some (clusterId w)]> (labels w);
                visited := <[i:=true]> (visited w);
                clusterId := clusterId w |}).
  assert (Hw1 : ids_only w1).
  { destruct Hw as [Hid Hl]. split; [exact Hid|]. intros x c H.
    apply list_lookup_insert_Some in H as [(-> & H & _)|[_ H]].
    - injection H as <-. exact Hid.
    - exact (Hl x c H). }
  destruct (expand_num_ids NotANumber (walk_fuel n) w1 (regionQuery n near i) Hw1)
    as [Hid Hl].
  split; [cbn [clusterId]; lia|exact Hl].
Qed.

Lemma walk_upto_num_nan_ids k : ids_only (walk_upto_num n near NotANumber k).
Proof.
  unfold walk_upto_num.
  assert (H0 : ids_only (walk_init n)).
  { split; [simpl; lia|]. intros j c [[=] _]%lookup_replicate. }
  revert H0. generalize (walk_init n).
  induction (seq 0 k) as [|i l IH]; intros w Hw; [exact Hw|].
  simpl. apply IH. now apply visit_num_nan_ids.
Qed.

Lemma corePoints_num_nan : corePoints_num n near NotANumber = [].
Proof. apply filter_none. reflexivity. Qed.
End NumberFacts.

(** With [minPts] a number that is not [NaN], the result is that of
    [dbscan] on the integer. *)
Lemma dbscan_num_int (g : global) (Xraw : input) (eps : float) (z : Z) :
  dbscan_num Xraw eps (Threshold z) = fst (dbscan g Xraw eps z).
Proof.
  destruct Xraw as [|[|r0 raw]]; [reflexivity..|].
  unfold dbscan_num, dbscan. cbn [fst]. unfold walk_all_num, walk_all.
  now rewrite walk_upto_num_int, corePoints_num_int.
Qed.

(** With [minPts] [NaN] there is no core point and no label is [-1]. *)
Lemma dbscan_num_nan (Xraw : input) (eps : float) :
  let r := dbscan_num Xraw eps NotANumber in
  res_corePoints r = []
  /\ Forall (fun l => l <> Some (-1)%Z) (res_labels r).
Proof.
  destruct Xraw as [|[|r0 raw]]; [split; [reflexivity|constructor]..|].
  unfold dbscan_num. cbv zeta. cbn [res_corePoints res_labels].
  split; [apply corePoints_num_nan|].
  apply Forall_lookup. intros i l Hi ->.
  apply (proj2 (walk_upto_num_nan_ids _ _ _)) in Hi. lia.
Qed.

(** The run of the three points of [line] with [eps = 1] and [minPts]
    [NaN]: every point opens or joins a cluster, none is a core point. *)
Lemma line_at_nan :
  res_labels (dbscan_num (Arr line) 1%float NotANumber)
  = [Some 0%Z; Some 0%Z; Some 1%Z]
  /\ res_corePoints (dbscan_num (Arr line) 1%float NotANumber) = [].
Proof. split; vm_compute; reflexivity. Qed.

(** X4: when [minPts] is not [NaN], a point is noise exactly when no core
    point is that point or within [eps] of it. *)
Theorem noise_iff_unreachable (Xraw : input) (eps : float)
    (minPts : threshold) (x : nat) :
  minPts <> NotANumber ->
  let r := dbscan_num Xraw eps minPts in
  x < length (res_labels r) ->
  (res_labels r !! x = Some (Some (-1)%Z)
   <-> forall j, In j (res_corePoints r) ->
                 j <> x /\ within (res_Xscaled r) eps j x = false).
Proof.
  destruct minPts as [z|]; [intros _|contradiction].
  rewrite (dbscan_num_int no_session). apply noise_unreachable_int.
Qed.

Lemma noise_iff_unreachable_witness :
  res_labels (dbscan_num (Arr scenario) 1.5%float (Threshold 3)) !! 3
  = Some (Some (-1)%Z).
Proof.
  apply (noise_iff_unreachable (Arr scenario) 1.5%float (Threshold 3) 3).
  - discriminate.
  - vm_compute. lia.
  - intros j Hj. vm_compute in Hj.
    destruct Hj as [<-|[<-|[<-|[]]]]; (split; [lia|vm_compute; reflexivity]).
Defined.

(** X5: when [minPts] is not [NaN], every point of a cluster is a core
    point of that cluster or within [eps] of one; so each cluster holds a
    core point. *)
Theorem cluster_members_near_core (Xraw : input) (eps : float)
    (minPts : threshold) (x : nat) (c : Z) :
  minPts <> NotANumber ->
  let r := dbscan_num Xraw eps minPts in
  res_labels r !! x = Some (Some c) -> (0 <= c)%Z ->
  exists j, In j (res_corePoints r)
            /\ res_labels r !! j = Some (Some c)
            /\ (j = x \/ within (res_Xscaled r) eps j x = true).
Proof.
  destruct minPts as [z|]; [intros _|contradiction].
  rewrite (dbscan_num_int no_session). apply cluster_members_int.
Qed.

Lemma cluster_members_near_core_witness :
  exists j, In j (res_corePoints (dbscan_num (Arr line) 1.5%float (Threshold 3)))
    /\ res_labels (dbscan_num (Arr line) 1.5%float (Threshold 3)) !! j
       = Some (Some 0%Z)
    /\ (j = 0
        \/ within (res_Xscaled (dbscan_num (Arr line) 1.5%float (Threshold 3)))
                  1.5%float j 0 = true).
Proof.
  apply (cluster_members_near_core (Arr line) 1.5%float (Threshold 3) 0 0%Z).
  - discriminate.
  - vm_compute. reflexivity.
  - lia.
Defined.

(** X7: when [minPts] is not [NaN], a result has no core point exactly
    when all its labels are [-1]; when [minPts] is [NaN], it has no core
    point and none of its labels is [-1]. *)
Theorem no_core_iff_all_noise (Xraw : input) (eps : float)
    (minPts : threshold) :
  let r := dbscan_num Xraw eps minPts in
  match minPts with
  | Threshold _ =>
      res_corePoints r = []
      <-> Forall (fun l => l = Some (-1)%Z) (res_labels r)
  | NotANumber =>
      res_corePoints r = []
      /\ Forall (fun l => l <> Some (-1)%Z) (res_labels r)
  end.
Proof.
  destruct minPts as [z|]; [|apply dbscan_num_nan].
  cbv zeta. rewrite (dbscan_num_int no_session). apply no_core_noise_int.
Qed.

(** X10: a matrix of one row gives one label: cluster [0] and the point as
    a core point when [minPts] is at most [1]; noise and no core point
    when [minPts] is above [1]; cluster [0] and no core point when
    [minPts] is [NaN]. *)
Theorem single_row_result (r0 : vector) (eps : float) (minPts : threshold) :
  let r := dbscan_num (Arr [r0]) eps minPts in
  match minPts with
  | Threshold z =>
      if (z <=? 1)%Z
      then res_labels r = [Some 0%Z] /\ res_corePoints r = [0]
      else res_labels r = [Some (-1)%Z] /\ res_corePoints r = []
  | NotANumber => res_labels r = [Some 0%Z] /\ res_corePoints r = []
  end.
Proof.
  destruct minPts as [z|].
  - cbv zeta. rewrite (dbscan_num_int no_session). apply single_row_int.
  - split; reflexivity.
Qed.
